(** * Skills engine: structured mergers and the migration runner

    A shallow embedding of [skills-engine/structured.ts] (the dependency,
    env-file, compose and langgraph mergers) and of
    [scripts/run-migrations.ts], with the properties the specification
    states about them.

    Modelling conventions.
    - JavaScript strings are Rocq [string]s (ASCII text); the white space
      class is the ASCII one.
    - JavaScript numbers are [number]: [NaN] or an exact integer.  The
      code only ever produces integers; they agree with IEEE doubles up
      to [MAX_SAFE_INTEGER], and the theorems about numeric order carry
      that bound on the version components.
    - Plain objects ([Record<string, T>]) are association lists of
      their own properties, with unique keys, in the order
      [Object.entries] lists them: array indices first, in ascending
      order, then the other keys in the order of their creation.
      Reading [o[k]] finds an own property or, failing that, a member
      inherited from [Object.prototype].  A [Map] is an association
      list in insertion order.
    - The file system is a finite map from paths to file contents, and
      the mergers run in a state-and-exception monad over it. *)

From Stdlib Require Import ZArith String Ascii List Lia Permutation Sorted.
From stdpp Require Import base option list gmap strings pretty.

Set Default Proof Using "Type".
Set Warnings "-register-all,-clear-no-such-hyp".

(* ================================================================= *)
(** ** JavaScript primitives *)

Module Js.

(** A JavaScript number as the code uses it. *)
Inductive number := NaN | Num (z : Z).

Global Instance number_eq_dec : EqDecision number.
Proof. solve_decision. Defined.

(** [a !== b] on numbers: [NaN] differs from everything. *)
Definition strict_neq (a b : number) : bool :=
  match a, b with
  | Num x, Num y => negb (x =? y)%Z
  | _, _ => true
  end.

(** [a - b]. *)
Definition sub (a b : number) : number :=
  match a, b with
  | Num x, Num y => Num (x - y)
  | _, _ => NaN
  end.

(** [a >= 0]; every comparison with [NaN] is false. *)
Definition ge0 (a : number) : bool :=
  match a with
  | Num x => (0 <=? x)%Z
  | NaN => false
  end.

Definition gt0 (a : number) : bool :=
  match a with
  | Num x => (0 <? x)%Z
  | NaN => false
  end.

Definition le0 (a : number) : bool :=
  match a with
  | Num x => (x <=? 0)%Z
  | NaN => false
  end.

Definition MAX_SAFE_INTEGER : Z := 9007199254740991.

(** The line feed and the double quote, as characters and as strings. *)
Definition LF : ascii := "010"%char.
Definition nl : string := String LF EmptyString.
Definition DQUOTE : ascii := "034"%char.
Definition dquote : string := String DQUOTE EmptyString.

(** Character classes. *)
Definition is_space (c : ascii) : bool := Ascii.is_space c.

Definition digit_val (c : ascii) : option Z :=
  Z.of_nat <$> Ascii.is_nat c.

Definition is_digit (c : ascii) : bool :=
  bool_decide (is_Some (digit_val c)).

Definition is_upper (c : ascii) : bool :=
  (65 <=? nat_of_ascii c)%nat && (nat_of_ascii c <=? 90)%nat.

Definition is_lower (c : ascii) : bool :=
  (97 <=? nat_of_ascii c)%nat && (nat_of_ascii c <=? 122)%nat.

Definition is_alpha (c : ascii) : bool := is_upper c || is_lower c.

Definition to_lower (c : ascii) : ascii :=
  if is_upper c then ascii_of_nat (nat_of_ascii c + 32) else c.

(** [s.startsWith(p)], [s.endsWith(p)], [s.slice(1)], [s.toLowerCase()]. *)
Definition startsWith (p s : string) : bool := String.prefix p s.

Fixpoint endsWith_char (c : ascii) (s : string) : bool :=
  match s with
  | EmptyString => false
  | String a EmptyString => bool_decide (a = c)
  | String _ s' => endsWith_char c s'
  end.

Definition slice1 (s : string) : string :=
  match s with
  | EmptyString => EmptyString
  | String _ s' => s'
  end.

Fixpoint toLowerCase (s : string) : string :=
  match s with
  | EmptyString => EmptyString
  | String c s' => String (to_lower c) (toLowerCase s')
  end.

(** [s.split(c)] for a one-character separator: never empty. *)
Fixpoint split (c : ascii) (s : string) : list string :=
  match s with
  | EmptyString => [EmptyString]
  | String a s' =>
      if bool_decide (a = c) then EmptyString :: split c s'
      else match split c s' with
           | [] => [String a EmptyString]
           | h :: t => String a h :: t
           end
  end.

(** The longest prefix of characters in a class, and what follows it. *)
Fixpoint span (p : ascii -> bool) (s : string) : string * string :=
  match s with
  | EmptyString => (EmptyString, EmptyString)
  | String c s' =>
      if p c then let '(w, r) := span p s' in (String c w, r)
      else (EmptyString, s)
  end.

(** [s.trimStart()], [s.trimEnd()] and [s.trim()]. *)
Fixpoint trimStart (s : string) : string :=
  match s with
  | EmptyString => EmptyString
  | String c s' => if is_space c then trimStart s' else s
  end.

Fixpoint trimEnd (s : string) : string :=
  match s with
  | EmptyString => EmptyString
  | String c s' =>
      match trimEnd s' with
      | EmptyString => if is_space c then EmptyString else String c EmptyString
      | r => String c r
      end
  end.

Definition trim (s : string) : string := trimEnd (trimStart s).

(** The value of the longest prefix of decimal digits; [None] when
    that prefix is empty. *)
Fixpoint digits_prefix (acc : option Z) (s : string) : option Z :=
  match s with
  | EmptyString => acc
  | String c s' =>
      match digit_val c with
      | Some d => digits_prefix (Some (10 * default 0%Z acc + d)%Z) s'
      | None => acc
      end
  end.

(** [parseInt(s, 10)]: skip white space, read a sign, read digits. *)
Definition parseInt (s : string) : number :=
  let s1 := trimStart s in
  let '(sign, s2) :=
    match s1 with
    | String "-" r => ((-1)%Z, r)
    | String "+" r => (1%Z, r)
    | _ => (1%Z, s1)
    end in
  match digits_prefix None s2 with
  | Some n => Num (sign * n)
  | None => NaN
  end.

(** [Number(s)] on the strings the code passes to it: runs of decimal
    digits, the empty run counting as zero. *)
Definition Number (s : string) : number :=
  match s with
  | EmptyString => Num 0
  | _ => if forallb is_digit (list_ascii_of_string s)
         then match digits_prefix None s with
              | Some n => Num n
              | None => NaN
              end
         else NaN
  end.

(** [String(n)] for a number. *)
Definition String_of_number (n : number) : string :=
  match n with
  | NaN => "NaN"
  | Num z => pretty z
  end.

(** Truthiness of a string: non-empty. *)
Definition truthy_string (s : string) : bool :=
  negb (bool_decide (s = EmptyString)).

(** A non-empty run of decimal digits ([\d+] in a regular expression). *)
Definition is_digits1 (s : string) : bool :=
  truthy_string s && forallb is_digit (list_ascii_of_string s).

(** Plain objects: own properties in the order [Object.entries] lists
    them (array indices in ascending order, then the other keys in the
    order of their creation).  A [Map] has the same representation, in
    insertion order. *)
Definition obj (A : Type) : Type := list (string * A).

Fixpoint obj_get {A} (o : obj A) (k : string) : option A :=
  match o with
  | [] => None
  | (k', v) :: o' => if bool_decide (k' = k) then Some v else obj_get o' k
  end.

(** [m.set(k, v)] on a [Map]: overwrite in place, or append a new key. *)
Fixpoint Map_set {A} (k : string) (v : A) (m : obj A) : obj A :=
  match m with
  | [] => [(k, v)]
  | (k', v') :: m' =>
      if bool_decide (k' = k) then (k, v) :: m'
      else (k', v') :: Map_set k v m'
  end.

(** An array index: the canonical decimal form of an integer from 0 to
    [2^32 - 2]. *)
Definition array_index (k : string) : option Z :=
  match k with
  | EmptyString => None
  | String c r =>
      if forallb is_digit (list_ascii_of_string k)
         && (negb (bool_decide (c = "0"%char)) || bool_decide (r = EmptyString))
      then match digits_prefix None k with
           | Some n => if (n <=? 4294967294)%Z then Some n else None
           | None => None
           end
      else None
  end.

(** A new array index [i] is listed before the first key that is not a
    smaller array index. *)
Fixpoint insert_index {A} (i : Z) (k : string) (v : A) (o : obj A) : obj A :=
  match o with
  | [] => [(k, v)]
  | (k', v') :: o' =>
      match array_index k' with
      | Some j =>
          if (j <? i)%Z then (k', v') :: insert_index i k v o'
          else (k, v) :: o
      | None => (k, v) :: o
      end
  end.

(** [o[k] = v] on an own or a new property of a plain object: overwrite
    in place; a new array index takes its place among the indices, any
    other new key comes last. *)
Definition obj_set {A} (k : string) (v : A) (o : obj A) : obj A :=
  match array_index k, obj_get o k with
  | Some i, None => insert_index i k v o
  | _, _ => Map_set k v o
  end.

(** The names a plain object inherits from [Object.prototype]. *)
Definition Object_prototype_names : list string :=
  ["constructor"; "__defineGetter__"; "__defineSetter__"; "hasOwnProperty";
   "__lookupGetter__"; "__lookupSetter__"; "isPrototypeOf";
   "propertyIsEnumerable"; "toString"; "valueOf"; "__proto__";
   "toLocaleString"].

Definition is_prototype_name (k : string) : bool :=
  bool_decide (k ∈ Object_prototype_names).

(** What reading [o[k]] finds in a plain object: an own property, or a
    member inherited from [Object.prototype] (a function or, for
    [__proto__], the prototype itself: truthy, and not a string). *)
Inductive slot (A : Type) :=
| Own (v : A)
| Inherited.
Global Arguments Own {A} v.
Global Arguments Inherited {A}.

Definition js_get {A} (o : obj A) (k : string) : option (slot A) :=
  match obj_get o k with
  | Some v => Some (Own v)
  | None => if is_prototype_name k then Some Inherited else None
  end.

Definition Object_entries {A} (o : obj A) : list (string * A) := o.

Definition Object_fromEntries {A} (l : list (string * A)) : obj A :=
  fold_left (fun o kv => obj_set kv.1 kv.2 o) l [].

(** [Array.prototype.sort(cmp)]: a stable sort. *)
Fixpoint sort_insert {A} (cmp : A -> A -> Z) (x : A) (l : list A) : list A :=
  match l with
  | [] => [x]
  | y :: l' => if (cmp x y <=? 0)%Z then x :: l else y :: sort_insert cmp x l'
  end.

Definition Array_sort {A} (cmp : A -> A -> Z) (l : list A) : list A :=
  foldr (sort_insert cmp) [] l.

(** JSON / YAML values ([unknown] in the TypeScript types). *)
Inductive value :=
| VNull
| VBool (b : bool)
| VNum (z : Z)
| VStr (s : string)
| VArr (l : list value)
| VObj (o : list (string * value)).

(** Truthiness of a value. *)
Definition truthy (v : value) : bool :=
  match v with
  | VNull => false
  | VBool b => b
  | VNum z => negb (z =? 0)%Z
  | VStr s => truthy_string s
  | VArr _ | VObj _ => true
  end.

Definition join_comma (l : list string) : string :=
  match l with
  | [] => EmptyString
  | h :: t => fold_left (fun acc s => acc +:+ "," +:+ s) t h
  end.

(** [String(v)]: arrays join their elements with commas, [null]
    elements giving the empty string. *)
Fixpoint String_of (v : value) : string :=
  match v with
  | VNull => "null"
  | VBool true => "true"
  | VBool false => "false"
  | VNum z => pretty z
  | VStr s => s
  | VArr l =>
      join_comma
        (map (fun e => match e with VNull => EmptyString | _ => String_of e end) l)
  | VObj _ => "[object Object]"
  end.

End Js.

Import Js.

(* ================================================================= *)
(** ** The file system and the monad the mergers run in *)

Module Fs.

(** What a call can throw. *)
Inductive exn :=
| Error (message : string)        (* [throw new Error(message)] *)
| ENOENT (path : string)          (* reading a file that does not exist *)
| SyntaxError                     (* a parser rejecting its input *)
| TypeError.                      (* a property of [null] read, or a
                                     value called that is no function *)

Global Instance exn_eq_dec : EqDecision exn.
Proof. solve_decision. Defined.

Inductive Res (A : Type) :=
| Ret (a : A)
| Throw (e : exn).
Global Arguments Ret {A} a.
Global Arguments Throw {A} e.

Definition is_Ret {A} (r : Res A) : bool :=
  match r with Ret _ => true | Throw _ => false end.

Definition bindR {A B} (r : Res A) (k : A -> Res B) : Res B :=
  match r with
  | Ret a => k a
  | Throw e => Throw e
  end.

(** Paths to file contents. *)
Abbreviation fs := (gmap string string).

Definition M (A : Type) : Type := fs -> Res A * fs.

Definition ret {A} (a : A) : M A := fun σ => (Ret a, σ).
Definition throw {A} (e : exn) : M A := fun σ => (Throw e, σ).
Definition lift {A} (r : Res A) : M A := fun σ => (r, σ).

Definition bind {A B} (m : M A) (k : A -> M B) : M B :=
  fun σ =>
    match m σ with
    | (Ret a, σ') => k a σ'
    | (Throw e, σ') => (Throw e, σ')
    end.

Definition existsSync (p : string) : M bool :=
  fun σ => (Ret (bool_decide (is_Some (σ !! p))), σ).

Definition readFileSync (p : string) : M string :=
  fun σ =>
    match σ !! p with
    | Some c => (Ret c, σ)
    | None => (Throw (ENOENT p), σ)
    end.

Definition writeFileSync (p content : string) : M unit :=
  fun σ => (Ret tt, <[p := content]> σ).

End Fs.

Import Fs.

Declare Scope js_scope.
Delimit Scope js_scope with js.
Notation "'let*' x ':=' c 'in' k" :=
  (Fs.bind c (fun x => k))
  (at level 10, x pattern, c at level 100, k at level 200) : js_scope.
Notation "'try*' x ':=' c 'in' k" :=
  (Fs.bindR c (fun x => k))
  (at level 10, x pattern, c at level 100, k at level 200) : js_scope.

(* ================================================================= *)
(** ** skills-engine/structured.ts *)

Module Structured.

Local Open Scope js_scope.

Record PackageJson := {
  dependencies : option (obj string);
  devDependencies : option (obj string);
  pkg_other : obj value;
}.

Record DockerComposeFile := {
  version : option string;
  services : option (obj value);
  compose_other : obj value;
}.

Record LanggraphJson := {
  graphs : option (obj string);
  langgraph_other : obj value;
}.

(** The parsers and printers of the [JSON] object and of the [yaml]
    package, and the host's collation, which the mergers call. *)
Class Host := {
  JSON_parse_PackageJson : string -> Res PackageJson;
  JSON_stringify_PackageJson : PackageJson -> string;
  JSON_parse_LanggraphJson : string -> Res LanggraphJson;
  JSON_stringify_LanggraphJson : LanggraphJson -> string;
  (* [parse] of an empty document is [null] *)
  parse : string -> Res (option DockerComposeFile);
  stringify : DockerComposeFile -> string;
  localeCompare : string -> string -> Z;
}.

(** [for (let i = 0; i < len; i++)] of [compareVersionParts], with
    [n] iterations left. *)
Fixpoint compareVersionParts_from (n i : nat) (a b : list string) : number :=
  match n with
  | O => Num 0
  | S n' =>
      let aNum := parseInt (default "0" (a !! i)) in
      let bNum := parseInt (default "0" (b !! i)) in
      if strict_neq aNum bNum then sub aNum bNum
      else compareVersionParts_from n' (S i) a b
  end.

Definition compareVersionParts (a b : list string) : number :=
  let len := Nat.max (length a) (length b) in
  compareVersionParts_from len 0 a b.

Record RangeResult := { compatible : bool; resolved : string }.

Definition areRangesCompatible (existing requested : string) : RangeResult :=
  if bool_decide (existing = requested) then
    {| compatible := true; resolved := existing |}
  else if startsWith "^" existing && startsWith "^" requested then
    let eParts := split "." (slice1 existing) in
    let rParts := split "." (slice1 requested) in
    if negb (bool_decide (eParts !! 0%nat = rParts !! 0%nat)) then
      {| compatible := false; resolved := existing |}
    else
      {| compatible := true;
         resolved := if ge0 (compareVersionParts eParts rParts)
                     then existing else requested |}
  else if startsWith "~" existing && startsWith "~" requested then
    let eParts := split "." (slice1 existing) in
    let rParts := split "." (slice1 requested) in
    if negb (bool_decide (eParts !! 0%nat = rParts !! 0%nat))
       || negb (bool_decide (eParts !! 1%nat = rParts !! 1%nat)) then
      {| compatible := false; resolved := existing |}
    else
      {| compatible := true;
         resolved := if ge0 (compareVersionParts eParts rParts)
                     then existing else requested |}
  else
    {| compatible := false; resolved := existing |}.

(** The message of the error thrown on a dependency conflict. *)
Definition dependency_conflict (name existing version : string) : exn :=
  Error ("Dependency conflict: " +:+ name +:+ " is already at " +:+ existing
         +:+ ", skill wants " +:+ version).

(** [pkg.dependencies[name] ?? pkg.devDependencies?.[name]] *)
Definition lookup_existing (deps : obj string) (dev : option (obj string))
    (name : string) : option (slot string) :=
  match js_get deps name with
  | Some e => Some e
  | None => dev ≫= (fun d => js_get d name)
  end.

(** The loop over [Object.entries(newDeps)].  An inherited member is
    truthy and differs from [version], so it is passed to
    [areRangesCompatible], which calls its [startsWith]: it has none,
    and the call throws a [TypeError]. *)
Fixpoint mergeNpm_loop (dev : option (obj string))
    (entries : list (string * string)) (deps : obj string) : Res (obj string) :=
  match entries with
  | [] => Ret deps
  | (name, version) :: rest =>
      match lookup_existing deps dev name with
      | Some (Own existing) =>
          if truthy_string existing && negb (bool_decide (existing = version)) then
            let result := areRangesCompatible existing version in
            if negb (compatible result) then
              Throw (dependency_conflict name existing version)
            else
              mergeNpm_loop dev rest (obj_set name (resolved result) deps)
          else
            mergeNpm_loop dev rest (obj_set name version deps)
      | Some Inherited => Throw TypeError
      | None => mergeNpm_loop dev rest (obj_set name version deps)
      end
  end.

(** [Object.fromEntries(Object.entries(o).sort(([a], [b]) => a.localeCompare(b)))] *)
Definition sort_keys `{Host} {A} (o : obj A) : obj A :=
  Object_fromEntries
    (Array_sort (fun a b => localeCompare a.1 b.1) (Object_entries o)).

(** What [mergeNpmDependencies] does to the parsed manifest, between
    [JSON.parse] and [JSON.stringify]. *)
Definition mergeNpm_document `{Host} (pkg : PackageJson)
    (newDeps : obj string) : Res PackageJson :=
  let deps0 := default [] (dependencies pkg) in
  try* deps := mergeNpm_loop (devDependencies pkg)
                 (Object_entries newDeps) deps0 in
  Ret {| dependencies := Some (sort_keys deps);
         devDependencies := sort_keys <$> devDependencies pkg;
         pkg_other := pkg_other pkg |}.

Definition mergeNpmDependencies `{Host} (packageJsonPath : string)
    (newDeps : obj string) : M unit :=
  let* content := readFileSync packageJsonPath in
  let* pkg := lift (JSON_parse_PackageJson content) in
  let* pkg' := lift (mergeNpm_document pkg newDeps) in
  writeFileSync packageJsonPath (JSON_stringify_PackageJson pkg' +:+ nl).

(** The first character of an identifier, and the others. *)
Definition is_ident_start (c : ascii) : bool :=
  is_alpha c || bool_decide (c = "_"%char).

Definition is_ident_char (c : ascii) : bool :=
  is_alpha c || is_digit c || bool_decide (c = "_"%char).

(** The regular expression of [mergeEnvAdditions], matched against a
    line: an identifier (a letter or underscore, then letters, digits
    and underscores) at the start of the line, followed by [=].  The
    result is the captured identifier. *)
Definition match_env_key (line : string) : option string :=
  match line with
  | EmptyString => None
  | String c r =>
      if is_ident_start c then
        let '(w, rest) := span is_ident_char r in
        match rest with
        | String "=" _ => Some (String c w)
        | _ => None
        end
      else None
  end.

(** The set of keys the lines of a file define. *)
Definition env_existingVars (content : string) : gset string :=
  fold_left
    (fun vars line =>
       match match_env_key line with
       | Some k => {[k]} ∪ vars
       | None => vars
       end)
    (split LF content) ∅.

Definition mergeEnvAdditions (envExamplePath : string)
    (additions : list string) : M unit :=
  let* present := existsSync envExamplePath in
  let* content := (if present : bool then readFileSync envExamplePath
                   else ret EmptyString) in
  let existingVars := env_existingVars content in
  let newVars := filter (fun v => v ∉ existingVars) additions in
  if bool_decide (length newVars = 0%nat) then ret tt
  else
    let content1 :=
      if truthy_string content && negb (endsWith_char LF content)
      then content +:+ nl else content in
    let content2 := content1 +:+ nl +:+ "# Added by skill" +:+ nl in
    let content3 :=
      fold_left (fun c v => c +:+ v +:+ "=" +:+ nl) newVars content2 in
    writeFileSync envExamplePath content3.

Definition extractHostPort (portMapping : string) : option string :=
  let parts := split ":" portMapping in
  if bool_decide (2 <= length parts)%nat then head parts else None.

(** [svc.ports] for [svc] cast to a record: reading a property of
    [null] throws, of a non-object gives [undefined]. *)
Definition get_ports (svc : value) : Res (option value) :=
  match svc with
  | VNull => Throw TypeError
  | VObj o => Ret (obj_get o "ports")
  | _ => Ret None
  end.

(** The inner loop of the first pass: the host ports of one service. *)
Definition collect_ports (usedPorts : gset string) (ports : list value)
    : gset string :=
  fold_left
    (fun used p =>
       match extractHostPort (String_of p) with
       | Some host => if truthy_string host then {[host]} ∪ used else used
       | None => used
       end)
    ports usedPorts.

(** The first pass over [Object.entries(compose.services)]. *)
Fixpoint collect_used (entries : list (string * value))
    (usedPorts : gset string) : Res (gset string) :=
  match entries with
  | [] => Ret usedPorts
  | (_, svc) :: rest =>
      try* ports := get_ports svc in
      match ports with
      | Some (VArr l) => collect_used rest (collect_ports usedPorts l)
      | _ => collect_used rest usedPorts
      end
  end.

Definition port_collision (host name : string) : exn :=
  Error ("Port collision: host port " +:+ host +:+ " from service "
         +:+ dquote +:+ name +:+ dquote +:+ " is already in use").

(** The inner loop of the second pass: one new service's ports. *)
Fixpoint check_ports (name : string) (ports : list value)
    (usedPorts : gset string) : Res (gset string) :=
  match ports with
  | [] => Ret usedPorts
  | p :: rest =>
      match extractHostPort (String_of p) with
      | Some host =>
          if truthy_string host then
            if bool_decide (host ∈ usedPorts) then
              Throw (port_collision host name)
            else check_ports name rest ({[host]} ∪ usedPorts)
          else check_ports name rest usedPorts
      | None => check_ports name rest usedPorts
      end
  end.

(** [compose.services[name]] used as a condition: an own property
    counts by its value, an inherited member is truthy. *)
Definition has_truthy {A} (truth : A -> bool) (o : obj A) (name : string) : bool :=
  match js_get o name with
  | Some (Own v) => truth v
  | Some Inherited => true
  | None => false
  end.

(** The second pass over [Object.entries(services)]. *)
Fixpoint add_services (entries : list (string * value))
    (svcs : obj value) (usedPorts : gset string) : Res (obj value) :=
  match entries with
  | [] => Ret svcs
  | (name, definition) :: rest =>
      if has_truthy truthy svcs name then add_services rest svcs usedPorts
      else
        try* ports := get_ports definition in
        try* used := match ports with
                     | Some (VArr l) => check_ports name l usedPorts
                     | _ => Ret usedPorts
                     end in
        add_services rest (obj_set name definition svcs) used
  end.

(** What [mergeDockerComposeServices] does to the parsed document,
    between [parse] and [stringify]. *)
Definition mergeCompose_document (compose : DockerComposeFile)
    (newServices : obj value) : Res DockerComposeFile :=
  let svcs0 := default [] (services compose) in
  try* usedPorts := collect_used (Object_entries svcs0) ∅ in
  try* svcs := add_services (Object_entries newServices) svcs0 usedPorts in
  Ret {| version := version compose; services := Some svcs;
         compose_other := compose_other compose |}.

Definition mergeDockerComposeServices `{Host} (composePath : string)
    (newServices : obj value) : M unit :=
  let* present := existsSync composePath in
  let* compose :=
    (if present : bool then
       let* content := readFileSync composePath in
       let* doc := lift (parse content) in
       ret (default {| version := None; services := None;
                       compose_other := [] |} doc)
     else
       ret {| version := Some "3"; services := None; compose_other := [] |}) in
  let* compose' := lift (mergeCompose_document compose newServices) in
  writeFileSync composePath (stringify compose').

(** *** Python support *)

(** The regular expression of [parsePepPackageName]: the longest
    non-empty prefix of letters, digits, [_] and [-]. *)
Definition is_pep_char (c : ascii) : bool :=
  is_alpha c || is_digit c || bool_decide (c = "_"%char)
  || bool_decide (c = "-"%char).

Definition parsePepPackageName (dep : string) : string :=
  match fst (span is_pep_char dep) with
  | EmptyString => toLowerCase dep
  | w => toLowerCase w
  end.

(** The regular expression of [resolveDepConflict], tried just after a
    [>]: an optional [=], white space, then a non-empty run of digits
    and dots, which is captured. *)
Definition is_version_char (c : ascii) : bool :=
  is_digit c || bool_decide (c = "."%char).

Definition version_after_gt (s : string) : option string :=
  let s1 := match s with String "=" r => r | _ => s end in
  match fst (span is_version_char (trimStart s1)) with
  | EmptyString => None
  | w => Some w
  end.

(** The capture of the leftmost match of that expression in [s]. *)
Fixpoint match_min_version (s : string) : option string :=
  match s with
  | EmptyString => None
  | String c r =>
      if bool_decide (c = ">"%char) then
        match version_after_gt r with
        | Some w => Some w
        | None => match_min_version r
        end
      else match_min_version r
  end.

Definition resolveDepConflict (existing requested : string) : string :=
  match match_min_version existing, match_min_version requested with
  | Some existingVersion, Some requestedVersion =>
      let eParts := map Number (split "." existingVersion) in
      let rParts := map Number (split "." requestedVersion) in
      let cmp := compareVersionParts (map String_of_number eParts)
                                     (map String_of_number rParts) in
      if ge0 cmp then existing else requested
  | _, _ => existing
  end.

(** The word [dependencies], white space, [=], white space and an
    opening bracket at the start of [s]: what follows the bracket. *)
Definition deps_assign (s : string) : option string :=
  if startsWith "dependencies" s then
    match trimStart (String.substring 12 (String.length s - 12) s) with
    | String "=" r =>
        match trimStart r with
        | String "[" r' => Some r'
        | _ => None
        end
    | _ => None
    end
  else None.

(** A lazy run of any characters up to the first closing bracket: the
    run and what follows the bracket. *)
Fixpoint until_close (s : string) : option (string * string) :=
  match s with
  | EmptyString => None
  | String c r =>
      if bool_decide (c = "]"%char) then Some (EmptyString, r)
      else match until_close r with
           | Some (w, rest) => Some (String c w, rest)
           | None => None
           end
  end.

(** The dependency array at the start of [s]: its body and what
    follows it. *)
Definition deps_here (s : string) : option (string * string) :=
  deps_assign s ≫= until_close.

(** A lazy run of any characters and then the dependency array: the
    body of the array at the first position that matches. *)
Fixpoint deps_after (s : string) : option string :=
  match deps_here s with
  | Some (block, _) => Some block
  | None =>
      match s with
      | EmptyString => None
      | String _ r => deps_after r
      end
  end.

(** The regular expression of [mergePyprojectDependencies]: the
    leftmost [[project]] header that a dependency array follows; the
    result is the body of that array. *)
Fixpoint depsMatch (content : string) : option string :=
  match (if startsWith "[project]" content
         then deps_after (String.substring 9 (String.length content - 9) content)
         else None) with
  | Some block => Some block
  | None =>
      match content with
      | EmptyString => None
      | String _ r => depsMatch r
      end
  end.

(** The global replacement applied to each trimmed line: a quote at
    the start is removed, and so is a quote at the end or before a
    final comma (with that comma). *)
Definition is_quote (c : ascii) : bool :=
  bool_decide (c = DQUOTE) || bool_decide (c = "'"%char).

Fixpoint strip_closing_quote (s : string) : string :=
  match s with
  | EmptyString => EmptyString
  | String c r =>
      if is_quote c
         && (bool_decide (r = EmptyString) || bool_decide (r = ","))
      then EmptyString
      else String c (strip_closing_quote r)
  end.

Definition strip_quotes (s : string) : string :=
  match s with
  | EmptyString => EmptyString
  | String c r =>
      if is_quote c then strip_closing_quote r else strip_closing_quote s
  end.

(** The entries of the captured dependency block. *)
Definition parse_deps_block (depsBlock : string) : list string :=
  fold_right
    (fun line acc =>
       let trimmed := strip_quotes (trim line) in
       if truthy_string trimmed && negb (startsWith "#" trimmed)
       then trimmed :: acc else acc)
    [] (split LF depsBlock).

(** [for (const dep of existingDeps) depMap.set(parsePepPackageName(dep), dep)] *)
Definition depMap_of (existingDeps : list string) : obj string :=
  fold_left (fun m dep => Map_set (parsePepPackageName dep) dep m)
            existingDeps [].

(** One round of the loop over [newDeps]. *)
Definition merge_dep (depMap : obj string) (dep : string) : obj string :=
  let name := parsePepPackageName dep in
  match obj_get depMap name with
  | Some existing =>
      if truthy_string existing then
        if negb (bool_decide (existing = dep))
        then Map_set name (resolveDepConflict existing dep) depMap
        else depMap
      else Map_set name dep depMap
  | None => Map_set name dep depMap
  end.

Definition join_lines (l : list string) : string :=
  match l with
  | [] => EmptyString
  | h :: t => fold_left (fun acc s => acc +:+ nl +:+ s) t h
  end.

(** [content.replace] of the first dependency array of the file by
    [replacement], a text without [$] patterns. *)
Fixpoint replace_deps (replacement content : string) : string :=
  match deps_here content with
  | Some (_, rest) => replacement +:+ rest
  | None =>
      match content with
      | EmptyString => EmptyString
      | String c r => String c (replace_deps replacement r)
      end
  end.

(** [content.replace] of the first [[project]] header. *)
Fixpoint replace_project (replacement content : string) : string :=
  if startsWith "[project]" content then
    replacement +:+ String.substring 9 (String.length content - 9) content
  else
    match content with
    | EmptyString => EmptyString
    | String c r => String c (replace_project replacement r)
    end.

(** What [mergePyprojectDependencies] makes of the text of the file. *)
Definition mergePyproject_text `{Host} (content : string)
    (newDeps : list string) : string :=
  let depsMatch := depsMatch content in
  let existingDeps :=
    match depsMatch with
    | Some depsBlock => parse_deps_block depsBlock
    | None => []
    end in
  let depMap := fold_left merge_dep newDeps (depMap_of existingDeps) in
  let sortedDeps :=
    Array_sort (fun a b => localeCompare (parsePepPackageName a)
                                         (parsePepPackageName b))
               (map snd depMap) in
  let depsStr :=
    join_lines (map (fun d => "    " +:+ dquote +:+ d +:+ dquote +:+ ",")
                    sortedDeps) in
  match depsMatch with
  | Some _ =>
      replace_deps ("dependencies = [" +:+ nl +:+ depsStr +:+ nl +:+ "]")
                   content
  | None =>
      replace_project ("[project]" +:+ nl +:+ "dependencies = [" +:+ nl
                       +:+ depsStr +:+ nl +:+ "]") content
  end.

Definition mergePyprojectDependencies `{Host} (pyprojectPath : string)
    (newDeps : list string) : M unit :=
  let* content := readFileSync pyprojectPath in
  let newContent := mergePyproject_text content newDeps in
  writeFileSync pyprojectPath newContent.

(** The package names the lines of a requirements file mention. *)
Definition req_existingNames (content : string) : gset string :=
  fold_left
    (fun names line =>
       let trimmed := trim line in
       if truthy_string trimmed && negb (startsWith "#" trimmed)
       then {[parsePepPackageName trimmed]} ∪ names else names)
    (split LF content) ∅.

Definition mergeRequirementsTxt (requirementsPath : string)
    (newDeps : list string) : M unit :=
  let* present := existsSync requirementsPath in
  let* content := (if present : bool then readFileSync requirementsPath
                   else ret EmptyString) in
  let existingNames := req_existingNames content in
  let toAdd :=
    filter (fun dep => parsePepPackageName dep ∉ existingNames) newDeps in
  if bool_decide (length toAdd = 0%nat) then ret tt
  else
    let content1 :=
      if truthy_string content && negb (endsWith_char LF content)
      then content +:+ nl else content in
    let content2 := content1 +:+ nl +:+ "# Added by skill" +:+ nl in
    let content3 := fold_left (fun c dep => c +:+ dep +:+ nl) toAdd content2 in
    writeFileSync requirementsPath content3.

(** The loop over [Object.entries(newGraphs)]. *)
Definition add_graph (graphs : obj string) (entry : string * string)
    : obj string :=
  if negb (has_truthy truthy_string graphs entry.1)
  then obj_set entry.1 entry.2 graphs else graphs.

(** What [mergeLanggraphJson] does to the parsed registry. *)
Definition mergeLanggraph_document (langgraph : LanggraphJson)
    (newGraphs : obj string) : LanggraphJson :=
  let graphs0 := default [] (graphs langgraph) in
  {| graphs := Some (fold_left add_graph (Object_entries newGraphs) graphs0);
     langgraph_other := langgraph_other langgraph |}.

Definition mergeLanggraphJson `{Host} (langgraphPath : string)
    (newGraphs : obj string) : M unit :=
  let* present := existsSync langgraphPath in
  let* langgraph :=
    (if present : bool then
       let* content := readFileSync langgraphPath in
       lift (JSON_parse_LanggraphJson content)
     else ret {| graphs := None; langgraph_other := [] |}) in
  writeFileSync langgraphPath
    (JSON_stringify_LanggraphJson
       (mergeLanggraph_document langgraph newGraphs) +:+ nl).

End Structured.

(* ================================================================= *)
(** ** scripts/run-migrations.ts *)

Module RunMigrations.

Local Open Scope js_scope.

(** A version component the comparator accepts: a non-empty run of
    decimal digits. *)
Definition component_value (c : string) : option Z :=
  if forallb is_digit (list_ascii_of_string c) then digits_prefix None c
  else None.

Definition semver_components (v : string) : option (list Z) :=
  mapM component_value (split "." v).

(** The first non-zero difference of the components from index [i] on,
    looking at [n] of them; components past the end count as zero. *)
Fixpoint compare_from (n i : nat) (xs ys : list Z) : Z :=
  match n with
  | O => 0
  | S n' =>
      let x := default 0%Z (xs !! i) in
      let y := default 0%Z (ys !! i) in
      if negb (x =? y)%Z then (x - y)%Z else compare_from n' (S i) xs ys
  end.

Definition compare_components (xs ys : list Z) : Z :=
  compare_from (Nat.max (length xs) (length ys)) 0 xs ys.

Definition InvalidVersionError : exn := Error "InvalidVersionError".

(** Modelled from the spec: [compareSemver] of [skills-engine/state.ts],
    which is not among the sources.  Section 4.1: given two
    semantic-version strings it returns a negative, zero or positive
    number for less, equal or greater, comparing numerically component
    by component, a missing component counting as zero, and it fails
    with [InvalidVersionError] on a non-numeric component. *)
Definition compareSemver (a b : string) : Res Z :=
  match semver_components a, semver_components b with
  | Some xs, Some ys => Ret (compare_components xs ys)
  | _, _ => Throw InvalidVersionError
  end.

Record MigrationResult := {
  version : string;
  success : bool;
  error : option string;
}.

(** What the script prints: [{ migrationsRun, results }]. *)
Record Report := {
  migrationsRun : nat;
  results : list MigrationResult;
}.

Record Dirent := { name : string; isDirectory : bool }.

Record ExecOptions := { stdio : string; cwd : string; timeout : Z }.

(** One [execFileSync(file, args, options)]. *)
Record Call := { file : string; args : list string; options : ExecOptions }.

(** The process the script runs in.  [world] is whatever the
    subprocesses can change; [execFileSync] returns the message of the
    error it throws (a non-zero exit, a signal, the timeout), if any. *)
Class Process := {
  world : Type;
  existsSync : world -> string -> bool;
  readdirSync : world -> string -> Res (list Dirent);
  execFileSync : world -> Call -> option string * world;
  execPath : string;
  tsxCjsRegisterSpecifier : string;
  process_cwd : string;
}.

(** [path.join], without normalisation. *)
Definition path_join (parts : list string) : string :=
  match parts with
  | [] => "."
  | h :: t => fold_left (fun acc s => acc +:+ "/" +:+ s) t h
  end.

(** [/^\d+\.\d+\.\d+$/.test(name)] *)
Definition is_version_name (name : string) : bool :=
  match split "." name with
  | [a; b; c] => is_digits1 a && is_digits1 b && is_digits1 c
  | _ => false
  end.

(** [filter] and [sort] with a callback that can throw. *)
Fixpoint filterR {A} (p : A -> Res bool) (l : list A) : Res (list A) :=
  match l with
  | [] => Ret []
  | x :: l' =>
      try* keep := p x in
      try* rest := filterR p l' in
      Ret (if keep : bool then x :: rest else rest)
  end.

Fixpoint sort_insertR {A} (cmp : A -> A -> Res Z) (x : A) (l : list A)
    : Res (list A) :=
  match l with
  | [] => Ret [x]
  | y :: l' =>
      try* c := cmp x y in
      if (c <=? 0)%Z then Ret (x :: l)
      else try* r := sort_insertR cmp x l' in Ret (y :: r)
  end.

Fixpoint sortR {A} (cmp : A -> A -> Res Z) (l : list A) : Res (list A) :=
  match l with
  | [] => Ret []
  | x :: l' => try* s := sortR cmp l' in sort_insertR cmp x s
  end.

(** The version-named directories in the half-open range, in order. *)
Definition migrationVersions (entries : list Dirent)
    (fromVersion toVersion : string) : Res (list string) :=
  let names :=
    map name (List.filter
                (fun e => isDirectory e && is_version_name (name e)) entries) in
  try* selected :=
    filterR (fun v =>
               try* c1 := compareSemver v fromVersion in
               if (0 <? c1)%Z then
                 try* c2 := compareSemver v toVersion in Ret (c2 <=? 0)%Z
               else Ret false)
            names in
  sortR compareSemver selected.

(** The state of the loop over the selected versions: the results so
    far, the subprocesses started so far, and the world. *)
Record LoopState `{Process} := {
  st_results : list MigrationResult;
  st_spawned : list Call;
  st_world : world;
}.

Definition run_one `{Process} (migrationsDir projectRoot : string)
    (st : LoopState) (v : string) : LoopState :=
  let migrationIndex := path_join [migrationsDir; v; "index.ts"] in
  if negb (existsSync (st_world st) migrationIndex) then
    {| st_results :=
         st_results st ++
         [{| version := v; success := false;
             error := Some ("Migration " +:+ v +:+ "/index.ts not found") |}];
       st_spawned := st_spawned st;
       st_world := st_world st |}
  else
    let call :=
      {| file := execPath;
         args := ["--require"; tsxCjsRegisterSpecifier; migrationIndex;
                  projectRoot];
         options := {| stdio := "pipe"; cwd := projectRoot;
                       timeout := 120000 |} |} in
    let '(thrown, w') := execFileSync (st_world st) call in
    {| st_results :=
         st_results st ++
         [match thrown with
          | None => {| version := v; success := true; error := None |}
          | Some message =>
              {| version := v; success := false; error := Some message |}
          end];
       st_spawned := st_spawned st ++ [call];
       st_world := w' |}.

(** How a run of the script ends. *)
Record Outcome `{Process} := {
  printed : option Report;      (* the JSON written to standard output *)
  usage_error : bool;           (* the usage line on standard error *)
  exit_code : Z;
  spawned : list Call;
  final_world : world;
}.

Definition truthy_arg (a : option string) : option string :=
  match a with
  | Some s => if truthy_string s then Some s else None
  | None => None
  end.

(** The script, from its three command-line arguments.  An uncaught
    exception is the [Throw] result. *)
Definition main `{Process} (argv2 argv3 argv4 : option string) (w : world)
    : Res Outcome :=
  match truthy_arg argv2, truthy_arg argv3, truthy_arg argv4 with
  | Some fromVersion, Some toVersion, Some newCorePath =>
      let migrationsDir := path_join [newCorePath; "migrations"] in
      if negb (existsSync w migrationsDir) then
        Ret {| printed := Some {| migrationsRun := 0; results := [] |};
               usage_error := false; exit_code := 0;
               spawned := []; final_world := w |}
      else
        try* entries := readdirSync w migrationsDir in
        try* versions := migrationVersions entries fromVersion toVersion in
        let projectRoot := process_cwd in
        let st :=
          fold_left (run_one migrationsDir projectRoot) versions
            {| st_results := []; st_spawned := []; st_world := w |} in
        Ret {| printed := Some {| migrationsRun := length (st_results st);
                                   results := st_results st |};
               usage_error := false;
               exit_code :=
                 if existsb (fun r => negb (success r)) (st_results st)
                 then 1 else 0;
               spawned := st_spawned st;
               final_world := st_world st |}
  | _, _, _ =>
      Ret {| printed := None; usage_error := true; exit_code := 1;
             spawned := []; final_world := w |}
  end.

End RunMigrations.

(* ================================================================= *)
(** ** The order on versions the specification speaks of *)

Module Versions.

(** The number a run of decimal digits denotes. *)
Fixpoint decimal_from (acc : Z) (s : string) : Z :=
  match s with
  | EmptyString => acc
  | String c s' => decimal_from (10 * acc + default 0%Z (digit_val c))%Z s'
  end.

Definition decimal_value (s : string) : Z := decimal_from 0 s.

(** A version component: digits, denoting a number a double holds
    exactly. *)
Definition is_version_component (c : string) : bool :=
  is_digits1 c && (decimal_value c <=? MAX_SAFE_INTEGER)%Z.

(** A dotted version string: components separated by dots. *)
Definition is_dotted_version (v : string) : bool :=
  forallb is_version_component (split "." v).

Definition version_numbers (v : string) : list Z :=
  map decimal_value (split "." v).

(** The [i]-th component, zero when it is missing. *)
Definition component (xs : list Z) (i : nat) : Z := default 0%Z (xs !! i).

(** Numeric, component-wise order: the first component that differs
    decides. *)
Definition version_lt (xs ys : list Z) : Prop :=
  ∃ i, (∀ j, (j < i)%nat → component xs j = component ys j)
       ∧ (component xs i < component ys i)%Z.

Definition version_eq (xs ys : list Z) : Prop :=
  ∀ j, component xs j = component ys j.

Definition version_le (xs ys : list Z) : Prop :=
  version_lt xs ys ∨ version_eq xs ys.

End Versions.

(* ================================================================= *)
(** ** Vocabulary of the specification for the structured mergers *)

Module Policy.
Import Versions Structured.

(** An association list that represents an object: no key twice. *)
Definition wf_obj {A} (o : obj A) : bool := bool_decide (NoDup o.*1).

Definition wf_PackageJson (pkg : PackageJson) : bool :=
  wf_obj (default [] (dependencies pkg))
  && wf_obj (default [] (devDependencies pkg)).

(** The components of the version a range such as [^1.2.0] carries. *)
Definition range_parts (r : string) : list string := split "." (slice1 r).

Definition range_numbers (r : string) : list Z := version_numbers (slice1 r).

Definition is_caret_range (r : string) : bool :=
  startsWith "^" r && is_dotted_version (slice1 r).

Definition is_tilde_range (r : string) : bool :=
  startsWith "~" r && is_dotted_version (slice1 r).

(** Two ranges share their major version, or their major and minor
    versions, when they write them the same. *)
Definition same_major (e r : string) : Prop :=
  range_parts e !! 0%nat = range_parts r !! 0%nat.

Definition same_major_minor (e r : string) : Prop :=
  range_parts e !! 0%nat = range_parts r !! 0%nat
  ∧ range_parts e !! 1%nat = range_parts r !! 1%nat.

Global Instance same_major_dec e r : Decision (same_major e r).
Proof. unfold same_major. apply _. Defined.

Global Instance same_major_minor_dec e r : Decision (same_major_minor e r).
Proof. unfold same_major_minor. apply _. Defined.

(** [x] is the numerically higher of the existing range [e] and the
    requested range [r]; the existing one when neither is higher. *)
Definition higher_of (e r x : string) : Prop :=
  (version_lt (range_numbers e) (range_numbers r) ∧ x = r)
  ∨ (¬ version_lt (range_numbers e) (range_numbers r) ∧ x = e).

(** The range the manifest has for a package: the one in dependencies
    when it has one, else the one in devDependencies. *)
Definition manifest_range (pkg : PackageJson) (name : string) : option string :=
  match obj_get (default [] (dependencies pkg)) name with
  | Some e => Some e
  | None => devDependencies pkg ≫= (fun d => obj_get d name)
  end.

(** What the range-compatibility policy of the specification makes of an
    addition, given the range the manifest has for its package: the
    range to write into dependencies, or a conflict with the existing
    range.  Two caret ranges with the same major version, and two tilde
    ranges with the same major and minor versions, give the higher of
    the two; two caret ranges with different major versions, two tilde
    ranges with different major or minor versions, and two ranges that
    are neither both caret nor both tilde ranges, conflict. *)
Inductive verdict :=
| Write (range : string)
| Conflict (existing : string).

Inductive policy : option string → string → verdict → Prop :=
| policy_new r :
    policy None r (Write r)
| policy_same e r :
    e = r ∨ e = EmptyString → policy (Some e) r (Write r)
| policy_caret e r x :
    e ≠ r → is_caret_range e = true → is_caret_range r = true →
    same_major e r → higher_of e r x → policy (Some e) r (Write x)
| policy_tilde e r x :
    e ≠ r → is_tilde_range e = true → is_tilde_range r = true →
    same_major_minor e r → higher_of e r x → policy (Some e) r (Write x)
| policy_majors e r :
    is_caret_range e = true → is_caret_range r = true →
    ¬ same_major e r → policy (Some e) r (Conflict e)
| policy_minors e r :
    is_tilde_range e = true → is_tilde_range r = true →
    ¬ same_major_minor e r → policy (Some e) r (Conflict e)
| policy_mixed e r :
    e ≠ r → e ≠ EmptyString →
    startsWith "^" e && startsWith "^" r = false →
    startsWith "~" e && startsWith "~" r = false →
    policy (Some e) r (Conflict e).


(** A name that no plain object inherits. *)
Definition own_name (k : string) : bool := negb (is_prototype_name k).

(** A name that no plain object inherits and that is not an array
    index: as a new key it is listed last. *)
Definition plain_name (k : string) : bool :=
  own_name k && bool_decide (array_index k = None).

(** What one round of the loop of [mergeNpmDependencies] stores for
    [name], or throws, given the sections as they are. *)
Definition npm_resolution (deps : obj string) (dev : option (obj string))
    (name version : string) : Res string :=
  match lookup_existing deps dev name with
  | Some (Own existing) =>
      if truthy_string existing && negb (bool_decide (existing = version)) then
        let result := areRangesCompatible existing version in
        if negb (compatible result) then
          Throw (dependency_conflict name existing version)
        else Ret (resolved result)
      else Ret version
  | Some Inherited => Throw TypeError
  | None => Ret version
  end.

(** An environment-variable name: a letter or underscore, then letters,
    digits and underscores. *)
Definition is_identifier (k : string) : bool :=
  match k with
  | EmptyString => false
  | String c r => is_ident_start c && forallb is_ident_char (list_ascii_of_string r)
  end.

(** One of the lines of the file is [k=value]. *)
Definition env_has_line (content k : string) : bool :=
  existsb (fun line => startsWith (k +:+ "=") line) (split LF content).

(** The file defines [k], as the merger sees it: [k] is an identifier
    and one of the lines of the file is [k=value]. *)
Definition env_defines (content k : string) : bool :=
  is_identifier k
  && existsb (fun line => startsWith (k +:+ "=") line) (split LF content).

(** The section the env-file merger appends: a blank line, a comment
    that delimits it, and one [KEY=] line for each new key. *)
Definition env_section (newVars : list string) : string :=
  nl +:+ "# Added by skill" +:+ nl
  +:+ fold_right (fun v rest => v +:+ "=" +:+ nl +:+ rest) EmptyString newVars.

(** The line feed that ends an unterminated last line. *)
Definition line_end (content : string) : string :=
  if truthy_string content && negb (endsWith_char LF content)
  then nl else EmptyString.

(** A port mapping has a colon; the text before its first colon. *)
Definition has_colon (s : string) : bool :=
  existsb (fun c => bool_decide (c = ":"%char)) (list_ascii_of_string s).

Definition before_colon (s : string) : string :=
  fst (span (fun c => negb (bool_decide (c = ":"%char))) s).

(** A service definition with the given port mappings and nothing else. *)
Definition service_with_ports (ports : list string) : value :=
  VObj [("ports", VArr (map VStr ports))].

(** The requirements file mentions the package [name]: one of its
    lines, trimmed, is neither empty nor a comment and names it. *)
Definition req_mentions (content name : string) : bool :=
  existsb
    (fun line =>
       let trimmed := trim line in
       truthy_string trimmed && negb (startsWith "#" trimmed)
       && bool_decide (parsePepPackageName trimmed = name))
    (split LF content).

(** The section the requirement-list merger appends. *)
Definition req_section (toAdd : list string) : string :=
  nl +:+ "# Added by skill" +:+ nl
  +:+ fold_right (fun dep rest => dep +:+ nl +:+ rest) EmptyString toAdd.

(** A merger that is the application, to the file at [p], of a function
    from the existing text (if the file exists) to a new text to write,
    nothing to write, or an exception: it reads and writes no other
    path, and writes nothing when it throws. *)
Definition file_transformer (p : string) (m : M unit) : Prop :=
  ∃ f : option string → Res (option string),
    ∀ σ : fs,
      m σ = match f (σ !! p) with
            | Ret (Some text) => (Ret tt, <[p := text]> σ)
            | Ret None => (Ret tt, σ)
            | Throw e => (Throw e, σ)
            end.

(** A computation that does no file I/O: its result does not depend on
    the file system, which it leaves as it is. *)
Definition no_file_io {A} (m : M A) : Prop :=
  ∃ r, ∀ σ : fs, m σ = (r, σ).

(** Collation by character code. *)
Definition code_order (a b : string) : Z :=
  match String.compare a b with
  | Lt => (-1)%Z
  | Eq => 0%Z
  | Gt => 1%Z
  end.

(** A host whose parsers return fixed documents, whose printers return
    fixed texts and which collates by character code: enough to run
    the mergers on examples. *)
Definition sample_host (pkg : PackageJson) (compose : option DockerComposeFile)
    (langgraph : LanggraphJson) : Host :=
  {| JSON_parse_PackageJson := fun _ => Ret pkg;
     JSON_stringify_PackageJson := fun _ => "<package.json>";
     JSON_parse_LanggraphJson := fun _ => Ret langgraph;
     JSON_stringify_LanggraphJson := fun _ => "<langgraph.json>";
     parse := fun _ => Ret compose;
     stringify := fun _ => "<docker-compose.yml>";
     localeCompare := code_order |}.

(** A compose document in which [api] publishes port 8000 on the
    loopback address. *)
Definition compose_with_bound_port : DockerComposeFile :=
  {| version := Some "3";
     services := Some [("api", service_with_ports ["127.0.0.1:8000:80"])];
     compose_other := [] |}.

(** A project manifest that pins [langgraph] to an exact version, and
    the requirement list that does the same. *)
Definition pyproject_pinned : string :=
  "[project]" +:+ nl +:+ "name = " +:+ dquote +:+ "demo" +:+ dquote +:+ nl
  +:+ "dependencies = [" +:+ nl
  +:+ "    " +:+ dquote +:+ "langgraph==0.2.0" +:+ dquote +:+ "," +:+ nl
  +:+ "]" +:+ nl.

Definition requirements_pinned : string := "langgraph==0.2.0" +:+ nl.

(** An environment file with a comment and one key. *)
Definition env_example : string :=
  "# keys" +:+ nl +:+ "API_KEY=secret" +:+ nl.

Definition empty_PackageJson : PackageJson :=
  {| dependencies := None; devDependencies := None; pkg_other := [] |}.

Definition empty_LanggraphJson : LanggraphJson :=
  {| graphs := None; langgraph_other := [] |}.

End Policy.

(* ================================================================= *)
(** ** Vocabulary of the specification for the migration runner *)

Module MigrationSpec.
Import Versions RunMigrations.

(** A version string the comparator accepts. *)
Definition is_semver (v : string) : bool :=
  bool_decide (is_Some (semver_components v)).

(** The order of semantic versions. *)
Definition semver_lt (a b : string) : Prop :=
  ∃ xs ys, semver_components a = Some xs ∧ semver_components b = Some ys
           ∧ version_lt xs ys.

Definition semver_le (a b : string) : Prop :=
  ∃ xs ys, semver_components a = Some xs ∧ semver_components b = Some ys
           ∧ version_le xs ys.

(** [v] names a migration to run: a directory of the migrations
    directory, named by a version, with [from < v <= to]. *)
Definition selected (entries : list Dirent) (fromVersion toVersion v : string)
    : Prop :=
  (∃ e, e ∈ entries ∧ name e = v ∧ isDirectory e = true)
  ∧ is_version_name v = true
  ∧ semver_lt fromVersion v
  ∧ semver_le v toVersion.

(** The script of a migration, and the script a subprocess was given. *)
Definition migration_script (migrationsDir v : string) : string :=
  path_join [migrationsDir; v; "index.ts"].

Definition script_of (c : Call) : option string := args c !! 2%nat.



(** A world with two migration directories in range, one of which has
    no script, where every script succeeds: enough to run the runner on
    an example. *)
Definition sample_process : Process :=
  {| world := unit;
     existsSync := fun _ p =>
       bool_decide (p ∈ ["core/migrations"; "core/migrations/1.1.0/index.ts"]);
     readdirSync := fun _ _ =>
       Ret [{| name := "1.2.0"; isDirectory := true |};
            {| name := "1.1.0"; isDirectory := true |};
            {| name := "1.0.0"; isDirectory := true |};
            {| name := "README.md"; isDirectory := false |}];
     execFileSync := fun w _ => (None, w);
     execPath := "/usr/bin/node";
     tsxCjsRegisterSpecifier := "tsx/cjs";
     process_cwd := "/project" |}.

End MigrationSpec.

(* ================================================================= *)
(** ** skills-engine/structured.ts: running the package managers *)

Module Install.

(** The options of [execSync]. *)
Record ExecSyncOptions := { stdio : string; cwd : string }.

(** The shell the installers run in.  [execSync] returns the exception
    it throws, if any (a non-zero exit status), and the world it
    leaves. *)
Class Shell := {
  world : Type;
  existsSync : world -> string -> bool;
  execSync : world -> string -> ExecSyncOptions -> option exn * world;
  process_cwd : string;
}.

(** What a call leaves: its result, the lines it logged, the commands
    it ran, and the world. *)
Record Ran `{Shell} := {
  result : Res unit;
  logged : list string;
  commands : list string;
  after : world;
}.

Definition runNpmInstall `{Shell} (w : world) : Ran :=
  let command := "npm install --legacy-peer-deps" in
  let '(thrown, w') :=
    execSync w command {| stdio := "inherit"; cwd := process_cwd |} in
  {| result := match thrown with Some e => Throw e | None => Ret tt end;
     logged := []; commands := [command]; after := w' |}.

Definition runPipInstall `{Shell} (w : world) : Ran :=
  let command :=
    if existsSync w (RunMigrations.path_join [process_cwd; ".venv"])
    then ".venv/bin/pip install -e ."
    else "pip install -e ." in
  let '(thrown, w') :=
    execSync w command {| stdio := "inherit"; cwd := process_cwd |} in
  {| result := Ret tt;
     logged :=
       match thrown with
       | Some _ =>
           ["Warning: pip install failed. You may need to install dependencies manually."]
       | None => []
       end;
     commands := [command]; after := w' |}.

End Install.

(* ================================================================= *)
(** ** Further vocabulary *)

Module More.
Import Versions Structured Policy.

(** The numbers of a captured minimum version: the empty component
    counts as zero. *)
Definition minimum_numbers (w : string) : list Z :=
  map decimal_value (split "." w).

(** Every component of a captured minimum version is a number a double
    holds exactly. *)
Definition safe_minimum (w : string) : bool :=
  forallb (fun c => (decimal_value c <=? MAX_SAFE_INTEGER)%Z) (split "." w).

(** The text has a [[project]] header somewhere. *)
Fixpoint has_project (content : string) : bool :=
  startsWith "[project]" content
  || match content with
     | EmptyString => false
     | String _ r => has_project r
     end.

(** The specifiers [mergePyprojectDependencies] writes, given the ones
    it has found in the file: the values of the dependency map after
    the loop over the additions, sorted by package name. *)
Definition merged_deps `{Host} (existingDeps newDeps : list string)
    : list string :=
  Array_sort (fun a b => localeCompare (parsePepPackageName a)
                                       (parsePepPackageName b))
    (map snd (fold_left merge_dep newDeps (depMap_of existingDeps))).

(** A dependency array with one quoted specifier to a line, as the
    merger writes it. *)
Definition dep_line (d : string) : string :=
  "    " +:+ dquote +:+ d +:+ dquote +:+ ",".

Definition deps_array (ds : list string) : string :=
  "dependencies = [" +:+ nl +:+ join_lines (map dep_line ds) +:+ nl +:+ "]".

(** The body of such an array: what is between its brackets. *)
Definition deps_block (ds : list string) : string :=
  nl +:+ join_lines (map dep_line ds) +:+ nl.

(** A specifier that such an array holds as it is: not empty, not a
    comment, and without a quote, a line feed, a closing bracket (so
    without extras) or a dollar sign. *)
Definition array_char (c : ascii) : bool :=
  negb (is_quote c) && negb (bool_decide (c = LF))
  && negb (bool_decide (c = "]"%char)) && negb (bool_decide (c = "$"%char)).

Definition plain_specifier (d : string) : bool :=
  truthy_string d && negb (startsWith "#" d)
  && forallb array_char (list_ascii_of_string d).

(** A specifier without a dollar sign: in the text that replaces the
    old array it stands for itself. *)
Definition dollar_free (d : string) : bool :=
  forallb (fun c => negb (bool_decide (c = "$"%char))) (list_ascii_of_string d).

(** The word neither occurs in the text nor begins at its end. *)
Fixpoint word_free (w s : string) : bool :=
  match s with
  | EmptyString => true
  | String _ r =>
      negb (startsWith w s) && negb (startsWith s w) && word_free w r
  end.

(** The text of a manifest before its dependency array: it has the
    [[project]] header, and no earlier [dependencies]. *)
Definition manifest_head (head : string) : bool :=
  has_project head && word_free "dependencies" head.

(** The package name of a specifier is that of no other specifier of
    the list. *)
Definition distinct_names (ds : list string) : Prop :=
  NoDup (map parsePepPackageName ds).

(** Every key of the map is the package name of the specifier under it. *)
Definition keyed_by_name (depMap : obj string) : Prop :=
  Forall (fun kv => kv.1 = parsePepPackageName kv.2) depMap.

(** A shell in which [.venv] exists and every command fails. *)
Definition failing_shell : Install.Shell :=
  {| Install.world := unit;
     Install.existsSync := fun _ p => bool_decide (p = "/project/.venv");
     Install.execSync := fun w _ _ => (Some (Error "Command failed"), w);
     Install.process_cwd := "/project" |}.

End More.

(* ================================================================= *)
(** * Properties *)

(** ** Strings and numbers *)

Section js_facts.
Import Versions.

Lemma truthy_string_ne s : s ≠ "" → truthy_string s = true.
Proof. intros Hs. unfold truthy_string. by rewrite bool_decide_eq_false_2. Qed.

Lemma split_nonempty c s : split c s ≠ [].
Proof. destruct s as [|a s]; simpl; [done|]. by repeat case_match. Qed.

Lemma digit_not_space c : is_digit c = true → is_space c = false.
Proof.
  unfold is_digit, is_space, digit_val. intros Hd.
  apply bool_decide_eq_true in Hd as [d Hd].
  destruct (Ascii.is_space c) eqn:Hs; [|done].
  destruct c as [[] [] [] [] [] [] [] []]; simpl in *; congruence.
Qed.

Lemma digit_not_sign c :
  is_digit c = true → c ≠ "-"%char ∧ c ≠ "+"%char.
Proof.
  unfold is_digit, digit_val. intros Hd.
  apply bool_decide_eq_true in Hd as [d Hd].
  split; intros ->; simpl in Hd; congruence.
Qed.

Lemma digits_prefix_decimal s acc :
  forallb is_digit (list_ascii_of_string s) = true →
  digits_prefix (Some acc) s = Some (decimal_from acc s).
Proof.
  revert acc. induction s as [|c s IH]; intros acc Hall; simpl in *; [done|].
  apply andb_true_iff in Hall as [Hc Hs].
  unfold is_digit in Hc. apply bool_decide_eq_true in Hc as [d Hd].
  rewrite Hd. simpl. by rewrite IH.
Qed.

Lemma digits_prefix_digits1 s :
  is_digits1 s = true → digits_prefix None s = Some (decimal_value s).
Proof.
  unfold is_digits1, truthy_string, decimal_value. intros H.
  apply andb_true_iff in H as [Hne Hall].
  destruct s as [|c s]; [done|]. simpl in *.
  apply andb_true_iff in Hall as [Hc Hs].
  pose proof Hc as Hc'. unfold is_digit in Hc'.
  apply bool_decide_eq_true in Hc' as [d Hd].
  rewrite Hd. simpl. by apply digits_prefix_decimal.
Qed.

(** [parseInt] reads a run of digits as the number it denotes. *)
Lemma parseInt_digits1 s :
  is_digits1 s = true → parseInt s = Num (decimal_value s).
Proof.
  intros H. pose proof (digits_prefix_digits1 s H) as Hp.
  unfold is_digits1, truthy_string in H.
  apply andb_true_iff in H as [Hne Hall].
  destruct s as [|c s]; [done|]. simpl in Hall.
  apply andb_true_iff in Hall as [Hc Hs].
  unfold parseInt. simpl trimStart. rewrite (digit_not_space c Hc).
  destruct (digit_not_sign c Hc) as [Hm Hp'].
  assert (match String c s with
          | String "-" r => ((-1)%Z, r)
          | String "+" r => (1%Z, r)
          | _ => (1%Z, String c s)
          end = (1%Z, String c s)) as ->.
  { destruct c as [[] [] [] [] [] [] [] []]; try reflexivity; congruence. }
  rewrite Hp. f_equal. lia.
Qed.

Lemma parseInt_zero : parseInt "0" = Num 0.
Proof. reflexivity. Qed.

Lemma decimal_from_nonneg s acc : (0 ≤ acc)%Z → (0 ≤ decimal_from acc s)%Z.
Proof.
  revert acc. induction s as [|c s IH]; intros acc Hacc; simpl; [done|].
  apply IH. unfold digit_val.
  destruct (Ascii.is_nat c); simpl; lia.
Qed.

End js_facts.

(** ** Comparing versions *)

Section version_order.
Import Versions RunMigrations Structured.

Lemma component_ge (xs : list Z) j : (length xs ≤ j)%nat → component xs j = 0%Z.
Proof. intros H. unfold component. by rewrite lookup_ge_None_2. Qed.

(** The loop stops at the first index whose components differ. *)
Lemma compare_from_cases n i (xs ys : list Z) :
  (compare_from n i xs ys = 0%Z
   ∧ ∀ j, (i ≤ j < i + n)%nat → component xs j = component ys j)
  ∨ (∃ k, (i ≤ k < i + n)%nat
       ∧ (∀ j, (i ≤ j < k)%nat → component xs j = component ys j)
       ∧ compare_from n i xs ys = (component xs k - component ys k)%Z
       ∧ component xs k ≠ component ys k).
Proof.
  revert i. induction n as [|n IH]; intros i; simpl.
  - left. split; [done|]. intros j Hj. lia.
  - fold (component xs i) (component ys i).
    destruct (Z.eqb_spec (component xs i) (component ys i)) as [Heq|Hne]; simpl.
    + destruct (IH (S i)) as [[Hd Hall]|(k & Hk & Hbefore & Hd & Hne)].
      * left. split; [done|]. intros j Hj.
        destruct (decide (j = i)) as [->|]; [done|]. apply Hall. lia.
      * right. exists k. split; [lia|]. split; [|done].
        intros j Hj. destruct (decide (j = i)) as [->|]; [done|].
        apply Hbefore. lia.
    + right. exists i. split; [lia|]. split; [|done]. intros j Hj. lia.
Qed.

Lemma compare_components_cases (xs ys : list Z) :
  (compare_components xs ys = 0%Z ∧ version_eq xs ys)
  ∨ (∃ k, (∀ j, (j < k)%nat → component xs j = component ys j)
       ∧ compare_components xs ys = (component xs k - component ys k)%Z
       ∧ component xs k ≠ component ys k).
Proof.
  unfold compare_components.
  destruct (compare_from_cases (length xs `max` length ys) 0 xs ys)
    as [[Hd Hall]|(k & Hk & Hbefore & Hd & Hne)].
  - left. split; [done|]. intros j.
    destruct (decide (j < length xs `max` length ys)%nat) as [Hj|Hj].
    + apply Hall. lia.
    + rewrite !component_ge by lia. done.
  - right. exists k. split; [|done]. intros j Hj. apply Hbefore. lia.
Qed.

Lemma version_lt_not_eq xs ys : version_lt xs ys → ¬ version_eq xs ys.
Proof. intros (i & _ & Hlt) Heq. specialize (Heq i). lia. Qed.

Lemma version_lt_asym xs ys : version_lt xs ys → ¬ version_lt ys xs.
Proof.
  intros (i & Hi & Hlt) (k & Hk & Hlt').
  destruct (Nat.lt_trichotomy i k) as [H|[->|H]].
  - specialize (Hk i H). lia.
  - lia.
  - specialize (Hi k H). lia.
Qed.

Lemma version_lt_trans xs ys zs :
  version_lt xs ys → version_lt ys zs → version_lt xs zs.
Proof.
  intros (i & Hi & Hlt) (k & Hk & Hlt').
  destruct (Nat.lt_trichotomy i k) as [H|[->|H]].
  - exists i. split.
    + intros j Hj. rewrite Hi by done. apply Hk. lia.
    + rewrite <- (Hk i H). done.
  - exists k. split; [|lia]. intros j Hj. rewrite Hi by done. by apply Hk.
  - exists k. split.
    + intros j Hj. rewrite Hi by lia. by apply Hk.
    + rewrite (Hi k H). done.
Qed.

Lemma version_eq_lt_trans xs ys zs :
  version_eq xs ys → version_lt ys zs → version_lt xs zs.
Proof.
  intros Heq (k & Hk & Hlt). exists k. split.
  - intros j Hj. rewrite Heq. by apply Hk.
  - by rewrite Heq.
Qed.

Lemma version_lt_eq_trans xs ys zs :
  version_lt xs ys → version_eq ys zs → version_lt xs zs.
Proof.
  intros (k & Hk & Hlt) Heq. exists k. split.
  - intros j Hj. rewrite <- Heq. by apply Hk.
  - by rewrite <- Heq.
Qed.

(** The sign of the comparator's result is the order of the versions. *)
Lemma compare_components_sign (xs ys : list Z) :
  ((compare_components xs ys < 0)%Z ↔ version_lt xs ys)
  ∧ (compare_components xs ys = 0%Z ↔ version_eq xs ys)
  ∧ ((0 < compare_components xs ys)%Z ↔ version_lt ys xs).
Proof.
  destruct (compare_components_cases xs ys)
    as [[Hd Heq]|(k & Hbefore & Hd & Hne)].
  - rewrite Hd. split; [|split]; split; try lia; try done.
    + intros Hlt. by destruct (version_lt_not_eq _ _ Hlt).
    + intros Hlt. destruct (version_lt_not_eq _ _ Hlt). intros j. by rewrite Heq.
  - assert (component xs k < component ys k → version_lt xs ys)%Z as Hl.
    { intros. exists k. split; [done|lia]. }
    assert (component ys k < component xs k → version_lt ys xs)%Z as Hg.
    { intros. exists k. split; [|lia]. intros j Hj. by rewrite Hbefore. }
    rewrite Hd. split; [|split]; split.
    + intros. apply Hl. lia.
    + intros Hlt.
      destruct (Z.lt_trichotomy (component xs k) (component ys k))
        as [?|[?|?]]; [lia|done|].
      destruct (version_lt_asym _ _ Hlt). apply Hg. done.
    + lia.
    + intros Heq. specialize (Heq k). done.
    + intros. apply Hg. lia.
    + intros Hlt.
      destruct (Z.lt_trichotomy (component xs k) (component ys k))
        as [?|[?|?]]; [|done|lia].
      destruct (version_lt_asym _ _ Hlt). apply Hl. done.
Qed.

(** On runs of digits the string loop of [compareVersionParts] is the
    integer loop. *)
Lemma compareVersionParts_from_digits n i (a b : list string) :
  Forall (λ c, is_digits1 c = true) a →
  Forall (λ c, is_digits1 c = true) b →
  compareVersionParts_from n i a b
  = Num (compare_from n i (map decimal_value a) (map decimal_value b)).
Proof.
  intros Ha Hb. revert i. induction n as [|n IH]; intros i; simpl; [done|].
  assert (∀ l : list string, Forall (λ c, is_digits1 c = true) l →
            parseInt (default "0" (l !! i))
            = Num (default 0%Z (map decimal_value l !! i))) as Hparse.
  { intros l Hl. rewrite list_lookup_fmap.
    destruct (l !! i) as [c|] eqn:Hc; simpl; [|done].
    apply parseInt_digits1.
    rewrite Forall_forall in Hl. apply Hl. by eapply list_elem_of_lookup_2. }
  rewrite (Hparse a Ha), (Hparse b Hb). simpl.
  case_match; [done|]. apply IH.
Qed.

Lemma compareVersionParts_digits (a b : list string) :
  Forall (λ c, is_digits1 c = true) a →
  Forall (λ c, is_digits1 c = true) b →
  compareVersionParts a b
  = Num (compare_components (map decimal_value a) (map decimal_value b)).
Proof.
  intros Ha Hb. unfold compareVersionParts, compare_components.
  rewrite !length_map. by apply compareVersionParts_from_digits.
Qed.

Lemma is_dotted_version_digits v :
  is_dotted_version v = true →
  Forall (λ c, is_digits1 c = true) (split "." v).
Proof.
  unfold is_dotted_version, is_version_component. intros H.
  rewrite forallb_forall in H. apply Forall_forall. intros c Hc.
  apply list_elem_of_In in Hc. apply H in Hc.
  by apply andb_true_iff in Hc as [? _].
Qed.

(** C8.  The version-component comparator compares two dotted version
    strings numerically, component by component, a missing component
    counting as zero: its result is a number that is negative, zero or
    positive exactly when the first version is less than, equal to or
    greater than the second. *)
Theorem compareVersionParts_orders_versions (a b : string) :
  is_dotted_version a = true →
  is_dotted_version b = true →
  ∃ d, compareVersionParts (split "." a) (split "." b) = Num d
       ∧ ((d < 0)%Z ↔ version_lt (version_numbers a) (version_numbers b))
       ∧ (d = 0%Z ↔ version_eq (version_numbers a) (version_numbers b))
       ∧ ((0 < d)%Z ↔ version_lt (version_numbers b) (version_numbers a)).
Proof.
  intros Ha Hb.
  exists (compare_components (version_numbers a) (version_numbers b)).
  split.
  - apply compareVersionParts_digits; by apply is_dotted_version_digits.
  - apply compare_components_sign.
Qed.

(** The two examples of C8: '1.10' is greater than '1.9' (numeric, not
    lexical), and '1.2' equals '1.2.0' (missing components are zero). *)
Lemma compareVersionParts_orders_versions_witness :
  (∃ d, compareVersionParts (split "." "1.10") (split "." "1.9") = Num d
        ∧ (0 < d)%Z
        ∧ version_lt (version_numbers "1.9") (version_numbers "1.10"))
  ∧ (∃ d, compareVersionParts (split "." "1.2") (split "." "1.2.0") = Num d
          ∧ d = 0%Z
          ∧ version_eq (version_numbers "1.2") (version_numbers "1.2.0")).
Proof.
  split.
  - destruct (compareVersionParts_orders_versions "1.10" "1.9")
      as (d & Hd & _ & _ & Hgt); [reflexivity|reflexivity|].
    exists d. split; [exact Hd|].
    assert (0 < d)%Z as Hpos.
    { vm_compute in Hd. injection Hd as <-. reflexivity. }
    split; [exact Hpos|]. apply Hgt, Hpos.
  - destruct (compareVersionParts_orders_versions "1.2" "1.2.0")
      as (d & Hd & _ & Heq & _); [reflexivity|reflexivity|].
    exists d. split; [exact Hd|].
    assert (d = 0%Z) as Hz.
    { vm_compute in Hd. injection Hd as <-. reflexivity. }
    split; [exact Hz|]. apply Heq, Hz.
Defined.

End version_order.

(** ** Objects and sorting *)

Section objects.
Context {A : Type}.
Implicit Types (o : obj A) (k : string) (v : A).

Lemma Map_get_set_eq o k v : obj_get (Map_set k v o) k = Some v.
Proof.
  induction o as [|[k' v'] o IH]; simpl.
  - by rewrite bool_decide_eq_true_2.
  - destruct (bool_decide (k' = k)) eqn:Hk; simpl.
    + by rewrite bool_decide_eq_true_2.
    + by rewrite Hk.
Qed.

Lemma Map_get_set_ne o k k' v :
  k ≠ k' → obj_get (Map_set k v o) k' = obj_get o k'.
Proof.
  intros Hne. induction o as [|[k1 v1] o IH]; simpl.
  - by rewrite bool_decide_eq_false_2.
  - destruct (bool_decide (k1 = k)) eqn:Hk; simpl.
    + apply bool_decide_eq_true in Hk as ->.
      by rewrite !bool_decide_eq_false_2.
    + by rewrite IH.
Qed.

Lemma Map_set_keys o k v :
  (Map_set k v o).*1 = if bool_decide (k ∈ o.*1) then o.*1 else o.*1 ++ [k].
Proof.
  induction o as [|[k1 v1] o IH]; [done|]. cbn [Map_set].
  destruct (bool_decide (k1 = k)) eqn:Hk; rewrite !fmap_cons; cbn [fst].
  - apply bool_decide_eq_true in Hk as ->.
    rewrite bool_decide_eq_true_2; [done|]. by left.
  - apply bool_decide_eq_false in Hk. rewrite IH.
    destruct (bool_decide (k ∈ o.*1)) eqn:Hin.
    + apply bool_decide_eq_true in Hin.
      rewrite bool_decide_eq_true_2; [done|]. by right.
    + apply bool_decide_eq_false in Hin.
      rewrite bool_decide_eq_false_2; [done|].
      rewrite elem_of_cons. naive_solver.
Qed.

Lemma Map_set_NoDup o k v : NoDup o.*1 → NoDup (Map_set k v o).*1.
Proof.
  intros Hnd. rewrite Map_set_keys. case_bool_decide as Hin; [done|].
  apply NoDup_app. split; [done|]. split; [|apply NoDup_singleton].
  intros x Hx ->%list_elem_of_singleton. done.
Qed.

Lemma Map_set_Forall (P : string * A → Prop) o k v :
  Forall P o → P (k, v) → Forall P (Map_set k v o).
Proof.
  intros Ho Hkv. induction Ho as [|[k1 v1] o Hx Ho IH]; simpl.
  - by constructor.
  - case_bool_decide; by constructor.
Qed.

Lemma Map_set_fresh o k v : k ∉ o.*1 → Map_set k v o = o ++ [(k, v)].
Proof.
  induction o as [|[k1 v1] o IH]; simpl; [done|].
  rewrite not_elem_of_cons. intros [Hne Hin].
  rewrite bool_decide_eq_false_2 by done. by rewrite IH.
Qed.

Lemma insert_index_Permutation i o k v : insert_index i k v o ≡ₚ (k, v) :: o.
Proof.
  induction o as [|[k1 v1] o IH]; simpl; [done|].
  destruct (array_index k1) as [j|]; [|done].
  destruct (j <? i)%Z; [|done]. rewrite IH. apply Permutation_swap.
Qed.

Lemma insert_index_get i o k k' v :
  obj_get o k = None →
  obj_get (insert_index i k v o) k'
  = if bool_decide (k = k') then Some v else obj_get o k'.
Proof.
  induction o as [|[k1 v1] o IH]; simpl; [done|].
  destruct (decide (k1 = k)) as [->|Hk1].
  { by rewrite bool_decide_eq_true_2. }
  rewrite (bool_decide_eq_false_2 (k1 = k)) by done. intros Hnone.
  destruct (array_index k1) as [j|]; [|done].
  destruct (j <? i)%Z; [|done]. simpl. rewrite IH by done.
  destruct (decide (k = k')) as [<-|Hk'].
  - by rewrite (bool_decide_eq_true_2 (k = k)), (bool_decide_eq_false_2 (k1 = k)).
  - by rewrite (bool_decide_eq_false_2 (k = k')).
Qed.

Lemma insert_index_Forall (P : string * A → Prop) i o k v :
  Forall P o → P (k, v) → Forall P (insert_index i k v o).
Proof. intros Ho Hkv. rewrite insert_index_Permutation. by constructor. Qed.

Lemma obj_get_set_eq o k v : obj_get (obj_set k v o) k = Some v.
Proof.
  unfold obj_set.
  destruct (array_index k) as [i|], (obj_get o k) eqn:Hget;
    try apply Map_get_set_eq.
  rewrite insert_index_get by done. by rewrite bool_decide_eq_true_2.
Qed.

Lemma obj_get_set_ne o k k' v :
  k ≠ k' → obj_get (obj_set k v o) k' = obj_get o k'.
Proof.
  intros Hne. unfold obj_set.
  destruct (array_index k) as [i|], (obj_get o k) eqn:Hget;
    try by apply Map_get_set_ne.
  rewrite insert_index_get by done. by rewrite bool_decide_eq_false_2.
Qed.

Lemma obj_get_is_Some o k : is_Some (obj_get o k) ↔ k ∈ o.*1.
Proof.
  induction o as [|[k1 v1] o IH]; simpl.
  - rewrite elem_of_nil. split; [by intros [? ?]|done].
  - rewrite elem_of_cons. case_bool_decide as Hk; [naive_solver|].
    rewrite IH. naive_solver.
Qed.

(** A key that is not an array index is set as in a [Map]. *)
Lemma obj_set_plain o k v : array_index k = None → obj_set k v o = Map_set k v o.
Proof. intros Hk. unfold obj_set. by rewrite Hk. Qed.

Lemma obj_set_keys o k v :
  (obj_set k v o).*1 ≡ₚ if bool_decide (k ∈ o.*1) then o.*1 else o.*1 ++ [k].
Proof.
  unfold obj_set.
  destruct (array_index k) as [i|], (obj_get o k) eqn:Hget;
    try by rewrite Map_set_keys.
  rewrite insert_index_Permutation, fmap_cons. simpl.
  rewrite bool_decide_eq_false_2.
  - by rewrite (Permutation_app_comm _ [k]).
  - rewrite <- obj_get_is_Some, Hget. by intros [? ?].
Qed.

Lemma obj_set_NoDup o k v : NoDup o.*1 → NoDup (obj_set k v o).*1.
Proof.
  intros Hnd. rewrite obj_set_keys. case_bool_decide as Hin; [done|].
  apply NoDup_app. split; [done|]. split; [|apply NoDup_singleton].
  intros x Hx ->%list_elem_of_singleton. done.
Qed.

Lemma obj_set_Forall (P : string * A → Prop) o k v :
  Forall P o → P (k, v) → Forall P (obj_set k v o).
Proof.
  intros Ho Hkv. unfold obj_set.
  destruct (array_index k) as [i|], (obj_get o k);
    try by apply Map_set_Forall.
  by apply insert_index_Forall.
Qed.

Lemma Map_set_same o k v : obj_get o k = Some v → Map_set k v o = o.
Proof.
  induction o as [|[k1 v1] o IH]; simpl; [done|].
  case_bool_decide; [by intros [= ->]; subst|]. intros Hget. by rewrite IH.
Qed.

Lemma obj_set_same o k v : obj_get o k = Some v → obj_set k v o = o.
Proof.
  intros Hget. unfold obj_set. rewrite Hget.
  destruct (array_index k); by apply Map_set_same.
Qed.


Lemma obj_set_fresh o k v :
  array_index k = None → k ∉ o.*1 → obj_set k v o = o ++ [(k, v)].
Proof. intros Hk Hin. rewrite obj_set_plain by done. by apply Map_set_fresh. Qed.

Lemma obj_get_None o k : k ∉ o.*1 → obj_get o k = None.
Proof.
  induction o as [|[k1 v1] o IH]; simpl; [done|].
  rewrite not_elem_of_cons. intros [Hne Hin].
  rewrite bool_decide_eq_false_2 by done. by apply IH.
Qed.

Lemma obj_get_elem_of o k v : NoDup o.*1 → obj_get o k = Some v ↔ (k, v) ∈ o.
Proof.
  induction o as [|[k1 v1] o IH]; simpl; intros Hnd.
  - split; [done|]. by intros ?%elem_of_nil.
  - apply NoDup_cons in Hnd as [Hk1 Hnd]. rewrite elem_of_cons.
    case_bool_decide as Hk.
    + subst k1. split.
      * intros [= ->]. by left.
      * intros [[= ->]|Hin]; [done|].
        destruct Hk1. apply list_elem_of_fmap. by exists (k, v).
    + rewrite IH by done. naive_solver.
Qed.

Lemma obj_get_Permutation (l1 l2 : obj A) k :
  NoDup l1.*1 → l1 ≡ₚ l2 → obj_get l1 k = obj_get l2 k.
Proof.
  intros Hnd Hp.
  assert (NoDup l2.*1) as Hnd2 by by rewrite <- Hp.
  destruct (obj_get l1 k) as [v|] eqn:H1.
  - symmetry. apply obj_get_elem_of; [done|]. rewrite <- Hp.
    by apply obj_get_elem_of.
  - destruct (obj_get l2 k) as [v|] eqn:H2; [|done].
    apply obj_get_elem_of in H2; [|done]. rewrite <- Hp in H2.
    apply obj_get_elem_of in H2; [|done]. congruence.
Qed.

Lemma sort_insert_Permutation {B} (cmp : B → B → Z) (x : B) (l : list B) :
  sort_insert cmp x l ≡ₚ x :: l.
Proof.
  induction l as [|y l IH]; simpl; [done|].
  case_match; [done|]. rewrite IH. apply Permutation_swap.
Qed.

Lemma Array_sort_Permutation {B} (cmp : B → B → Z) (l : list B) :
  Array_sort cmp l ≡ₚ l.
Proof.
  induction l as [|x l IH]; simpl; [done|].
  rewrite sort_insert_Permutation. by rewrite IH.
Qed.

Lemma fold_obj_set_get (l : list (string * A)) (acc : obj A) k :
  NoDup l.*1 →
  obj_get (fold_left (λ o kv, obj_set kv.1 kv.2 o) l acc) k
  = match obj_get l k with
    | Some v => Some v
    | None => obj_get acc k
    end.
Proof.
  revert acc. induction l as [|[k1 v1] l IH]; intros acc Hnd; simpl; [done|].
  apply NoDup_cons in Hnd as [Hk1 Hnd]. rewrite IH by done.
  case_bool_decide as Hk.
  - subst k1. rewrite (obj_get_None l k) by done. apply obj_get_set_eq.
  - destruct (obj_get l k); [done|]. by apply obj_get_set_ne.
Qed.

Lemma Object_fromEntries_get (l : list (string * A)) k :
  NoDup l.*1 → obj_get (Object_fromEntries l) k = obj_get l k.
Proof.
  intros Hnd. unfold Object_fromEntries. rewrite fold_obj_set_get by done.
  by destruct (obj_get l k).
Qed.

(** Sorting the keys of an object changes no binding. *)
Lemma sort_keys_get `{Structured.Host} o k :
  NoDup o.*1 → obj_get (Structured.sort_keys o) k = obj_get o k.
Proof.
  intros Hnd. unfold Structured.sort_keys, Object_entries.
  set (cmp := λ a b : string * A, Structured.localeCompare a.1 b.1).
  pose proof (Array_sort_Permutation cmp o) as Hp.
  rewrite Object_fromEntries_get by by rewrite Hp.
  apply obj_get_Permutation; [by rewrite Hp|done].
Qed.

End objects.

(** ** The range-compatibility policy *)

Section ranges.
Import Versions Structured Policy.

Lemma startsWith_caret_ne r : startsWith "^" r = true → r ≠ EmptyString.
Proof. by destruct r. Qed.

Lemma range_digits r :
  is_dotted_version (slice1 r) = true →
  Forall (λ c, is_digits1 c = true) (range_parts r).
Proof. apply is_dotted_version_digits. Qed.

(** The higher of two versions, as [compareVersionParts] decides it. *)
Lemma ge0_compare_higher e r :
  is_dotted_version (slice1 e) = true →
  is_dotted_version (slice1 r) = true →
  higher_of e r
    (if ge0 (compareVersionParts (range_parts e) (range_parts r)) then e else r).
Proof.
  intros He Hr. unfold range_parts.
  rewrite compareVersionParts_digits by by apply is_dotted_version_digits.
  fold (version_numbers (slice1 e)) (version_numbers (slice1 r)).
  fold (range_numbers e) (range_numbers r).
  destruct (compare_components_sign (range_numbers e) (range_numbers r))
    as (Hlt & _ & _).
  unfold higher_of. simpl.
  destruct (Z.leb_spec 0 (RunMigrations.compare_components
                            (range_numbers e) (range_numbers r))) as [Hd|Hd].
  - right. split; [|done]. rewrite <- Hlt. lia.
  - left. split; [|done]. by apply Hlt.
Qed.

Lemma areRangesCompatible_caret e r :
  is_caret_range e = true → is_caret_range r = true → e ≠ r →
  areRangesCompatible e r =
    if bool_decide (same_major e r) then
      {| compatible := true;
         resolved := if ge0 (compareVersionParts (range_parts e) (range_parts r))
                     then e else r |}
    else {| compatible := false; resolved := e |}.
Proof.
  unfold is_caret_range. intros [He _]%andb_true_iff [Hr _]%andb_true_iff Hne.
  unfold areRangesCompatible. rewrite bool_decide_eq_false_2 by done.
  rewrite He, Hr. simpl. unfold same_major, range_parts.
  destruct (decide (split "." (slice1 e) !! 0%nat = split "." (slice1 r) !! 0%nat));
    [rewrite !bool_decide_eq_true_2 by done
    |rewrite !bool_decide_eq_false_2 by done]; done.
Qed.

Lemma tilde_not_caret e : startsWith "~" e = true → startsWith "^" e = false.
Proof. destruct e as [|c e]; [done|]. simpl. by repeat case_match. Qed.

Lemma areRangesCompatible_tilde e r :
  is_tilde_range e = true → is_tilde_range r = true → e ≠ r →
  areRangesCompatible e r =
    if bool_decide (same_major_minor e r) then
      {| compatible := true;
         resolved := if ge0 (compareVersionParts (range_parts e) (range_parts r))
                     then e else r |}
    else {| compatible := false; resolved := e |}.
Proof.
  unfold is_tilde_range. intros [He _]%andb_true_iff [Hr _]%andb_true_iff Hne.
  unfold areRangesCompatible. rewrite bool_decide_eq_false_2 by done.
  rewrite (tilde_not_caret e He), He, Hr. simpl.
  pose (p0 := split "." (slice1 e) !! 0%nat = split "." (slice1 r) !! 0%nat).
  pose (p1 := split "." (slice1 e) !! 1%nat = split "." (slice1 r) !! 1%nat).
  destruct (decide p0) as [H0|H0], (decide p1) as [H1|H1]; subst p0 p1;
    rewrite ?(bool_decide_eq_true_2 _ H0), ?(bool_decide_eq_false_2 _ H0),
      ?(bool_decide_eq_true_2 _ H1), ?(bool_decide_eq_false_2 _ H1); simpl;
    [rewrite (bool_decide_eq_true_2 (same_major_minor e r)) by done
    |rewrite (bool_decide_eq_false_2 (same_major_minor e r))
       by (intros [??]; done)..]; done.
Qed.

(** Compatible carets and compatible tildes resolve to the higher range. *)
Lemma areRangesCompatible_higher e r :
  e ≠ r →
  (is_caret_range e = true ∧ is_caret_range r = true ∧ same_major e r)
  ∨ (is_tilde_range e = true ∧ is_tilde_range r = true ∧ same_major_minor e r) →
  compatible (areRangesCompatible e r) = true
  ∧ higher_of e r (resolved (areRangesCompatible e r)).
Proof.
  intros Hne [(He & Hr & Hsame)|(He & Hr & Hsame)].
  - rewrite areRangesCompatible_caret by done.
    rewrite bool_decide_eq_true_2 by done. simpl. split; [done|].
    unfold is_caret_range in *.
    apply andb_true_iff in He as [_ He]. apply andb_true_iff in Hr as [_ Hr].
    by apply ge0_compare_higher.
  - rewrite areRangesCompatible_tilde by done.
    rewrite bool_decide_eq_true_2 by done. simpl. split; [done|].
    unfold is_tilde_range in *.
    apply andb_true_iff in He as [_ He]. apply andb_true_iff in Hr as [_ Hr].
    by apply ge0_compare_higher.
Qed.

Lemma areRangesCompatible_caret_majors e r :
  is_caret_range e = true → is_caret_range r = true → ¬ same_major e r →
  compatible (areRangesCompatible e r) = false.
Proof.
  intros He Hr Hsame.
  assert (e ≠ r) as Hne by (intros ->; by apply Hsame).
  rewrite areRangesCompatible_caret by done.
  by rewrite bool_decide_eq_false_2.
Qed.

End ranges.

(** ** The npm dependency merger *)

Section npm.
Import Versions Structured Policy.

Lemma js_get_set_eq {A} (o : obj A) k v : js_get (obj_set k v o) k = Some (Own v).
Proof. unfold js_get. by rewrite obj_get_set_eq. Qed.

Lemma js_get_set_ne {A} (o : obj A) k k' v :
  k ≠ k' → js_get (obj_set k v o) k' = js_get o k'.
Proof. intros Hne. unfold js_get. by rewrite obj_get_set_ne. Qed.

Lemma js_get_own {A} (o : obj A) k :
  is_prototype_name k = false → js_get o k = Own <$> obj_get o k.
Proof. intros Hk. unfold js_get. rewrite Hk. by destruct (obj_get o k). Qed.

Lemma mergeNpm_loop_cons dev name version rest deps :
  mergeNpm_loop dev ((name, version) :: rest) deps
  = bindR (npm_resolution deps dev name version)
          (λ r, mergeNpm_loop dev rest (obj_set name r deps)).
Proof.
  simpl. unfold npm_resolution.
  destruct (lookup_existing deps dev name) as [[existing|]|]; simpl; [|done..].
  by repeat case_match.
Qed.

Lemma lookup_existing_set_ne deps dev k k' v :
  k ≠ k' →
  lookup_existing (obj_set k v deps) dev k' = lookup_existing deps dev k'.
Proof. intros Hne. unfold lookup_existing. by rewrite js_get_set_ne. Qed.

Lemma npm_resolution_set_ne deps dev k k' v version :
  k ≠ k' →
  npm_resolution (obj_set k v deps) dev k' version
  = npm_resolution deps dev k' version.
Proof. intros Hne. unfold npm_resolution. by rewrite lookup_existing_set_ne. Qed.

(** When the loop ends normally, every entry has been resolved against
    the sections as they were, and nothing else has changed. *)
Lemma mergeNpm_loop_Ret dev entries deps deps' :
  NoDup entries.*1 →
  mergeNpm_loop dev entries deps = Ret deps' →
  (∀ name version, (name, version) ∈ entries →
     ∃ r, npm_resolution deps dev name version = Ret r
          ∧ obj_get deps' name = Some r)
  ∧ (∀ k, k ∉ entries.*1 → obj_get deps' k = obj_get deps k)
  ∧ (NoDup deps.*1 → NoDup deps'.*1).
Proof.
  revert deps. induction entries as [|[n1 v1] rest IH]; intros deps Hnd Hloop.
  - simpl in Hloop. injection Hloop as <-.
    split; [|done]. intros ?? []%elem_of_nil.
  - rewrite fmap_cons in Hnd. apply NoDup_cons in Hnd as [Hn1 Hnd].
    rewrite mergeNpm_loop_cons in Hloop.
    destruct (npm_resolution deps dev n1 v1) as [r1|] eqn:Hr1; [|done].
    simpl in Hloop. destruct (IH _ Hnd Hloop) as (Hin & Hout & Hwf).
    split; [|split].
    + intros name version [[= -> ->]|Hmem]%elem_of_cons.
      * exists r1. split; [done|]. rewrite Hout by done. apply obj_get_set_eq.
      * assert (n1 ≠ name) as Hne.
        { intros ->. apply Hn1. apply list_elem_of_fmap. by exists (name, version). }
        destruct (Hin _ _ Hmem) as (r & Hr & Hget).
        exists r. split; [|done]. by rewrite npm_resolution_set_ne in Hr.
    + intros k Hk. rewrite fmap_cons in Hk.
      apply not_elem_of_cons in Hk as [Hne Hk].
      rewrite Hout by done. by apply obj_get_set_ne.
    + intros Hd. by apply Hwf, obj_set_NoDup.
Qed.


(** If some entry has a conflict, the loop throws the conflict of one
    of the entries. *)
Lemma mergeNpm_loop_some_Throw dev entries deps name version e :
  NoDup entries.*1 →
  (name, version) ∈ entries →
  npm_resolution deps dev name version = Throw e →
  ∃ n v e', (n, v) ∈ entries
            ∧ npm_resolution deps dev n v = Throw e'
            ∧ mergeNpm_loop dev entries deps = Throw e'.
Proof.
  revert deps. induction entries as [|[n1 v1] rest IH]; intros deps Hnd Hmem Hthrow.
  - by apply elem_of_nil in Hmem.
  - rewrite fmap_cons in Hnd. apply NoDup_cons in Hnd as [Hn1 Hnd].
    rewrite mergeNpm_loop_cons.
    destruct (npm_resolution deps dev n1 v1) as [r1|e1] eqn:Hr1.
    + simpl. apply elem_of_cons in Hmem as [[= -> ->]|Hmem]; [congruence|].
      assert (n1 ≠ name) as Hne.
      { intros ->. apply Hn1. apply list_elem_of_fmap. by exists (name, version). }
      destruct (IH (obj_set n1 r1 deps) Hnd Hmem) as (n & v & e' & Hin & Hres & Hloop).
      { by rewrite npm_resolution_set_ne. }
      exists n, v, e'. split; [by right|]. split; [|done].
      rewrite npm_resolution_set_ne in Hres; [done|].
      intros ->. apply Hn1. apply list_elem_of_fmap. by exists (n, v).
    + exists n1, v1, e1. split; [by left|]. done.
Qed.

(** Without a conflict the loop ends normally. *)
Lemma mergeNpm_loop_all_Ret dev entries deps :
  NoDup entries.*1 →
  Forall (λ kv, is_Ret (npm_resolution deps dev kv.1 kv.2) = true) entries →
  ∃ deps', mergeNpm_loop dev entries deps = Ret deps'.
Proof.
  revert deps. induction entries as [|[n1 v1] rest IH]; intros deps Hnd Hok.
  - by exists deps.
  - rewrite fmap_cons in Hnd. apply NoDup_cons in Hnd as [Hn1 Hnd].
    apply Forall_cons in Hok as [Hok1 Hok]. simpl in Hok1.
    rewrite mergeNpm_loop_cons.
    destruct (npm_resolution deps dev n1 v1) as [r1|] eqn:Hr1; [|done].
    simpl. apply IH; [done|].
    rewrite Forall_forall in Hok. apply Forall_forall. intros [k v] Hkv.
    simpl. rewrite npm_resolution_set_ne; [by apply (Hok (k, v))|].
    intros ->. apply Hn1. apply list_elem_of_fmap. by exists (k, v).
Qed.

Lemma npm_resolution_Throw deps dev name version e :
  npm_resolution deps dev name version = Throw e →
  (∃ existing, lookup_existing deps dev name = Some (Own existing)
               ∧ e = dependency_conflict name existing version)
  ∨ (lookup_existing deps dev name = Some Inherited ∧ e = TypeError).
Proof.
  unfold npm_resolution.
  destruct (lookup_existing deps dev name) as [[existing|]|]; [| |done].
  - repeat case_match; try done. intros [= <-]. left. by exists existing.
  - intros [= <-]. by right.
Qed.

(** A member of [Object.prototype] is found only under its name. *)
Lemma lookup_existing_Inherited deps dev name :
  lookup_existing deps dev name = Some Inherited → is_prototype_name name = true.
Proof.
  unfold lookup_existing, js_get.
  destruct (obj_get deps name); [done|].
  destruct (is_prototype_name name); [done|].
  destruct dev as [d|]; simpl; [|done]. by destruct (obj_get d name).
Qed.

Lemma lookup_existing_own pkg name :
  is_prototype_name name = false →
  lookup_existing (default [] (dependencies pkg)) (devDependencies pkg) name
  = Own <$> manifest_range pkg name.
Proof.
  intros Hk. unfold lookup_existing, manifest_range.
  rewrite js_get_own by done.
  destruct (obj_get (default [] (dependencies pkg)) name); [done|]. simpl.
  destruct (devDependencies pkg) as [d|]; simpl; [|done].
  by rewrite js_get_own.
Qed.

Lemma higher_of_fun e r x y : higher_of e r x → higher_of e r y → x = y.
Proof. unfold higher_of. naive_solver. Qed.

Lemma caret_truthy e : startsWith "^" e = true → truthy_string e = true.
Proof. by destruct e. Qed.

Lemma tilde_truthy e : startsWith "~" e = true → truthy_string e = true.
Proof. by destruct e. Qed.

Lemma areRangesCompatible_tilde_minors e r :
  is_tilde_range e = true → is_tilde_range r = true → ¬ same_major_minor e r →
  compatible (areRangesCompatible e r) = false.
Proof.
  intros He Hr Hsame.
  assert (e ≠ r) as Hne by (intros ->; by apply Hsame).
  rewrite areRangesCompatible_tilde by done.
  by rewrite bool_decide_eq_false_2.
Qed.

Lemma areRangesCompatible_mixed e r :
  e ≠ r →
  startsWith "^" e && startsWith "^" r = false →
  startsWith "~" e && startsWith "~" r = false →
  areRangesCompatible e r = {| compatible := false; resolved := e |}.
Proof.
  intros Hne Hc Ht. unfold areRangesCompatible.
  by rewrite bool_decide_eq_false_2, Hc, Ht.
Qed.

(** One round of the loop does what the policy says, for a name that is
    not inherited. *)
Lemma policy_resolution pkg name version v :
  is_prototype_name name = false →
  policy (manifest_range pkg name) version v →
  npm_resolution (default [] (dependencies pkg)) (devDependencies pkg)
    name version
  = match v with
    | Write x => Ret x
    | Conflict e => Throw (dependency_conflict name e version)
    end.
Proof.
  intros Hname Hpol. unfold npm_resolution.
  rewrite lookup_existing_own by done.
  inversion Hpol as [r Hr|e r Hsame|e r x Hne He Hv Hmaj Hhigh
                    |e r x Hne He Hv Hmaj Hhigh|e r He Hv Hmaj|e r He Hv Hmaj
                    |e r Hne Hnn Hc Ht]; subst; simpl.
  - done.
  - destruct Hsame as [->| ->]; [|done].
    rewrite (bool_decide_eq_true_2 (version = version)) by done.
    by rewrite andb_false_r.
  - destruct (areRangesCompatible_higher e version Hne) as [Hc Hh]; [by left|].
    assert (truthy_string e = true) as ->.
    { apply caret_truthy. unfold is_caret_range in He.
      by apply andb_true_iff in He as [He _]. }
    rewrite bool_decide_eq_false_2 by done. simpl. rewrite Hc. simpl.
    f_equal. by eapply higher_of_fun.
  - destruct (areRangesCompatible_higher e version Hne) as [Hc Hh]; [by right|].
    assert (truthy_string e = true) as ->.
    { apply tilde_truthy. unfold is_tilde_range in He.
      by apply andb_true_iff in He as [He _]. }
    rewrite bool_decide_eq_false_2 by done. simpl. rewrite Hc. simpl.
    f_equal. by eapply higher_of_fun.
  - assert (truthy_string e = true) as ->.
    { apply caret_truthy. unfold is_caret_range in He.
      by apply andb_true_iff in He as [He _]. }
    rewrite bool_decide_eq_false_2 by (intros ->; by apply Hmaj). simpl.
    by rewrite areRangesCompatible_caret_majors.
  - assert (truthy_string e = true) as ->.
    { apply tilde_truthy. unfold is_tilde_range in He.
      by apply andb_true_iff in He as [He _]. }
    rewrite bool_decide_eq_false_2 by (intros ->; apply Hmaj; by split). simpl.
    by rewrite areRangesCompatible_tilde_minors.
  - rewrite truthy_string_ne by done.
    rewrite bool_decide_eq_false_2 by done. simpl.
    by rewrite areRangesCompatible_mixed.
Qed.

Lemma mergeNpm_document_loop `{Host} pkg newDeps :
  mergeNpm_document pkg newDeps
  = bindR (mergeNpm_loop (devDependencies pkg) newDeps
             (default [] (dependencies pkg)))
          (λ deps, Ret {| dependencies := Some (sort_keys deps);
                          devDependencies := sort_keys <$> devDependencies pkg;
                          pkg_other := pkg_other pkg |}).
Proof. reflexivity. Qed.


Lemma wf_obj_NoDup {A} (o : obj A) : wf_obj o = true → NoDup o.*1.
Proof. unfold wf_obj. apply bool_decide_eq_true. Qed.






End npm.

(** ** The env-file merger *)

Section strings.

Lemma string_app_nil_r (s : string) : s +:+ "" = s.
Proof. induction s as [|c s IH]; [done|]. unfold String.app in *. simpl. by rewrite IH. Qed.

Lemma string_app_assoc (s1 s2 s3 : string) : (s1 +:+ s2) +:+ s3 = s1 +:+ s2 +:+ s3.
Proof.
  induction s1 as [|c s1 IH]; [done|].
  unfold String.app in *. simpl. by rewrite IH.
Qed.

Lemma string_app_cons c (s t : string) : String c s +:+ t = String c (s +:+ t).
Proof. done. Qed.

Lemma startsWith_app p s :
  startsWith p s = true ↔ ∃ t, s = p +:+ t.
Proof.
  unfold startsWith. revert s. induction p as [|c p IH]; intros s.
  - split; [|by destruct s]. intros _. by exists s.
  - destruct s as [|a s]; simpl.
    + split; [done|]. by intros [t ?].
    + destruct (ascii_dec c a) as [->|Hne].
      * rewrite IH. split; intros [t Ht]; exists t.
        -- by rewrite string_app_cons, <- Ht.
        -- rewrite string_app_cons in Ht. by injection Ht.
      * split; [done|]. intros [t Ht]. rewrite string_app_cons in Ht. congruence.
Qed.

Lemma span_app (p : ascii → bool) (w rest : string) :
  forallb p (list_ascii_of_string w) = true →
  (match rest with EmptyString => True | String c _ => p c = false end) →
  span p (w +:+ rest) = (w, rest).
Proof.
  intros Hw Hrest. induction w as [|c w IH]; simpl in *.
  - destruct rest as [|c r]; [done|]. simpl. by rewrite Hrest.
  - apply andb_true_iff in Hw as [Hc Hw]. rewrite Hc, IH by done. done.
Qed.

Lemma span_spec (p : ascii → bool) (s w rest : string) :
  span p s = (w, rest) →
  s = w +:+ rest
  ∧ forallb p (list_ascii_of_string w) = true
  ∧ match rest with EmptyString => True | String c _ => p c = false end.
Proof.
  revert w rest. induction s as [|c s IH]; intros w rest; simpl.
  - by intros [= <- <-].
  - destruct (p c) eqn:Hc.
    + destruct (span p s) as [w' r'] eqn:Hs. intros [= <- <-].
      destruct (IH _ _ eq_refl) as (-> & Hw & Hr).
      split; [done|]. split; [|done]. simpl. by rewrite Hc.
    + intros [= <- <-]. by rewrite Hc.
Qed.

(** Splitting at a separator splits the pieces. *)
Lemma split_app c (a b : string) :
  split c (a +:+ String c b) = split c a ++ split c b.
Proof.
  induction a as [|x a IH].
  - simpl. unfold String.app. simpl. by rewrite bool_decide_eq_true_2.
  - rewrite string_app_cons. simpl. rewrite IH.
    case_bool_decide; [done|].
    pose proof (split_nonempty c a). by destruct (split c a).
Qed.

End strings.

Section env.
Import Structured Policy.

Lemma match_env_key_cons c r :
  match_env_key (String c r)
  = if is_ident_start c then
      let '(w, rest) := span is_ident_char r in
      match rest with
      | String "=" _ => Some (String c w)
      | _ => None
      end
    else None.
Proof. reflexivity. Qed.

(** The regular expression recognises exactly the lines [k=value] with
    [k] an identifier. *)
Lemma match_env_key_spec line k :
  match_env_key line = Some k
  ↔ is_identifier k = true ∧ startsWith (k +:+ "=") line = true.
Proof.
  split.
  - destruct line as [|c r]; [done|]. unfold match_env_key.
    destruct (is_ident_start c) eqn:Hc; [|done].
    destruct (span is_ident_char r) as [w rest] eqn:Hspan.
    destruct (span_spec _ _ _ _ Hspan) as (-> & Hw & _).
    destruct rest as [|e rest]; [done|].
    destruct (ascii_dec e "=") as [->|Hne].
    + intros [= <-]. split.
      * unfold is_identifier. by rewrite Hc, Hw.
      * apply startsWith_app. exists rest. by rewrite string_app_assoc.
    + destruct e as [[] [] [] [] [] [] [] []]; try done.
  - intros [Hid [t ->]%startsWith_app].
    destruct k as [|c w]; [done|]. unfold is_identifier in Hid.
    apply andb_true_iff in Hid as [Hc Hw].
    rewrite string_app_assoc.
    change (String c w +:+ "=" +:+ t) with (String c (w +:+ String "=" t)).
    rewrite match_env_key_cons, Hc. rewrite span_app by done. done.
Qed.

Lemma env_existingVars_fold lines (acc : gset string) k :
  k ∈ fold_left (λ vars line,
        match match_env_key line with
        | Some k => {[k]} ∪ vars
        | None => vars
        end) lines acc
  ↔ k ∈ acc ∨ ∃ line, line ∈ lines ∧ match_env_key line = Some k.
Proof.
  revert acc. induction lines as [|l lines IH]; intros acc; simpl.
  - split; [by left|]. intros [?|(? & []%elem_of_nil & _)]. done.
  - rewrite IH. split.
    + intros [Hacc|(line & Hin & Hm)].
      * destruct (match_env_key l) as [k'|] eqn:Hl.
        -- apply elem_of_union in Hacc as [->%elem_of_singleton|?]; [|by left].
           right. exists l. split; [by left|done].
        -- by left.
      * right. exists line. split; [by right|done].
    + intros [Hacc|(line & [->|Hin]%elem_of_cons & Hm)].
      * left. destruct (match_env_key l); [|done]. set_solver.
      * left. rewrite Hm. set_solver.
      * right. by exists line.
Qed.

(** The set the merger computes is the set of the keys the file defines. *)
Lemma env_existingVars_defines content k :
  k ∈ env_existingVars content ↔ env_defines content k = true.
Proof.
  unfold env_existingVars, env_defines. rewrite env_existingVars_fold.
  rewrite andb_true_iff, existsb_exists. split.
  - intros [[]%elem_of_empty|(line & Hin & Hm)].
    apply match_env_key_spec in Hm as [Hid Hpre]. split; [done|].
    exists line. split; [by apply list_elem_of_In|done].
  - intros (Hid & line & Hin & Hpre). right. exists line.
    split; [by apply list_elem_of_In|]. by apply match_env_key_spec.
Qed.

Lemma env_newVars content (additions : list string) :
  filter (λ v, v ∉ env_existingVars content) additions
  = filter (λ v, env_defines content v = false) additions.
Proof.
  apply list_filter_iff. intros v. rewrite env_existingVars_defines.
  by destruct (env_defines content v).
Qed.

Lemma env_append_fold (newVars : list string) acc :
  fold_left (λ c v, c +:+ v +:+ "=" +:+ nl) newVars acc
  = acc +:+ fold_right (λ v rest, v +:+ "=" +:+ nl +:+ rest) "" newVars.
Proof.
  revert acc. induction newVars as [|v l IH]; intros acc; simpl.
  - by rewrite string_app_nil_r.
  - rewrite IH. by rewrite !string_app_assoc.
Qed.

(** Reading a file that may be missing: the empty text stands for it. *)
Lemma existsSync_read {A} (σ : fs) p (k : string → M A) :
  Fs.bind (existsSync p)
    (λ present, Fs.bind (if present : bool then readFileSync p else ret "") k) σ
  = k (default "" (σ !! p)) σ.
Proof.
  unfold Fs.bind, existsSync, readFileSync, ret.
  destruct (σ !! p) as [c|] eqn:Hp; simpl; by rewrite ?Hp.
Qed.

(** What the merger does, in one equation. *)
Lemma mergeEnvAdditions_run (σ : fs) p (additions : list string) :
  let content := default "" (σ !! p) in
  let newVars := filter (λ v, env_defines content v = false) additions in
  mergeEnvAdditions p additions σ
  = (Ret tt,
     match newVars with
     | [] => σ
     | _ => <[p := content +:+ line_end content +:+ env_section newVars]> σ
     end).
Proof.
  intros content newVars.
  unfold mergeEnvAdditions. rewrite existsSync_read. fold content.
  rewrite env_newVars. fold newVars.
  destruct newVars as [|v l] eqn:Hnew; [done|].
  rewrite bool_decide_eq_false_2 by done.
  unfold writeFileSync. do 2 f_equal. rewrite env_append_fold. unfold env_section, line_end.
  destruct (truthy_string content && negb (endsWith_char LF content));
    by rewrite !string_app_assoc.
Qed.

Lemma split_line_end content :
  split LF content `prefix_of` split LF (content +:+ line_end content).
Proof.
  unfold line_end.
  destruct (truthy_string content && negb (endsWith_char LF content)).
  - unfold nl. rewrite split_app. by apply prefix_app_r.
  - by rewrite string_app_nil_r.
Qed.

(** The lines of the file stay where they are. *)
Lemma env_lines_preserved content (newVars : list string) :
  split LF content
  `prefix_of` split LF (content +:+ line_end content +:+ env_section newVars).
Proof.
  unfold env_section, nl. rewrite <- string_app_assoc, string_app_cons.
  rewrite split_app. apply prefix_app_r, split_line_end.
Qed.

(** C6, as the code has it.  The env-file merger takes a key for
    defined when the key is an identifier (a letter or underscore, then
    letters, digits and underscores) and the file has a line that
    starts with the key, written the same, and [=].  It adds nothing for
    such a key and leaves its line as it is; every other addition, and
    so every addition that is not an identifier, is appended, in order,
    after the existing content, under a comment line that delimits
    them, and every existing line, comments included, stays in place.
    Merging [API_KEY] into a file that defines [API_KEY=secret] changes
    nothing. *)
Theorem mergeEnvAdditions_appends_absent_keys (σ : fs) p
    (additions : list string) :
  let content := default "" (σ !! p) in
  let newVars := filter (λ v, env_defines content v = false) additions in
  let content' := content +:+ line_end content +:+ env_section newVars in
  mergeEnvAdditions p additions σ
  = (Ret tt, match newVars with [] => σ | _ => <[p := content']> σ end)
  ∧ (∀ k, env_defines content k = true → k ∉ newVars)
  ∧ (∀ v, v ∈ additions → env_defines content v = false → v ∈ newVars)
  ∧ newVars `sublist_of` additions
  ∧ split LF content `prefix_of` split LF content'
  ∧ mergeEnvAdditions p ["API_KEY"] {[p := "API_KEY=secret"]}
    = (Ret tt, {[p := "API_KEY=secret"]})
  ∧ (∀ k, env_defines content k = true
          ↔ is_identifier k = true ∧ env_has_line content k = true)
  ∧ (∀ v, v ∈ additions → is_identifier v = false → v ∈ newVars).
Proof.
  intros content newVars content'.
  split; [apply mergeEnvAdditions_run|].
  split; [|split; [|split; [|split; [|split; [|split]]]]].
  - intros k Hk [Hf _]%list_elem_of_filter. congruence.
  - intros v Hv Hd. by apply list_elem_of_filter.
  - apply sublist_filter.
  - apply env_lines_preserved.
  - rewrite mergeEnvAdditions_run. rewrite lookup_singleton_eq. reflexivity.
  - intros k. unfold env_defines, env_has_line. apply andb_true_iff.
  - intros v Hv Hid. apply list_elem_of_filter. split; [|done].
    unfold env_defines. by rewrite Hid.
Qed.

(** A file that defines [API_KEY]: merging [API_KEY] and [DB_URL] adds
    a section with [DB_URL] alone. *)
Lemma mergeEnvAdditions_appends_absent_keys_witness :
  let σ : fs := {[".env.example" := env_example]} in
  mergeEnvAdditions ".env.example" ["API_KEY"; "DB_URL"] σ
  = (Ret tt,
     <[".env.example" :=
         env_example +:+ nl +:+ "# Added by skill" +:+ nl
         +:+ "DB_URL=" +:+ nl]> σ)
  ∧ "API_KEY" ∉ filter (λ v, env_defines env_example v = false)
                       ["API_KEY"; "DB_URL"]
  ∧ "DB_URL" ∈ filter (λ v, env_defines env_example v = false)
                      ["API_KEY"; "DB_URL"].
Proof.
  intros σ.
  destruct (mergeEnvAdditions_appends_absent_keys σ ".env.example"
              ["API_KEY"; "DB_URL"]) as (Hrun & Hdefined & Habsent & _).
  split; [exact Hrun|]. split.
  - apply (Hdefined "API_KEY"). reflexivity.
  - apply (Habsent "DB_URL"); [|reflexivity].
    apply list_elem_of_further, list_elem_of_here.
Defined.

(** C6, as stated, fails for a key that is not an identifier: the file
    defines [MY-KEY=1], and merging [MY-KEY] appends [MY-KEY=] again. *)
Lemma mergeEnvAdditions_repeats_defined_key :
  let content := "MY-KEY=1" +:+ nl in
  env_has_line content "MY-KEY" = true
  ∧ mergeEnvAdditions ".env.example" ["MY-KEY"] {[".env.example" := content]}
    = (Ret tt,
       {[".env.example" :=
           content +:+ nl +:+ "# Added by skill" +:+ nl +:+ "MY-KEY=" +:+ nl]}).
Proof. split; vm_compute; reflexivity. Qed.

End env.

(** ** The service-manifest merger *)

Section compose.
Import Structured Policy.

Lemma split_head_span c s :
  head (split c s) = Some (fst (span (λ a, negb (bool_decide (a = c))) s)).
Proof.
  induction s as [|a s IH]; [done|]. simpl.
  case_bool_decide; simpl; [done|].
  destruct (split c s) as [|h t] eqn:Hs; [by destruct (split_nonempty c s)|].
  simpl in *. injection IH as ->.
  by destruct (span (λ a0 : ascii, negb (bool_decide (a0 = c))) s).
Qed.

Lemma split_length_has c s :
  (2 ≤ length (split c s))%nat
  ↔ existsb (λ a, bool_decide (a = c)) (list_ascii_of_string s) = true.
Proof.
  induction s as [|a s IH]; simpl; [split; [lia|done]|].
  pose proof (split_nonempty c s) as Hne.
  case_bool_decide; simpl.
  - split; [done|]. intros _. destruct (split c s); [done|]. simpl. lia.
  - rewrite <- IH. by destruct (split c s).
Qed.

(** The host-port extraction, in terms of the first colon. *)
Lemma extractHostPort_spec s :
  extractHostPort s = if has_colon s then Some (before_colon s) else None.
Proof.
  unfold extractHostPort, has_colon, before_colon.
  destruct (existsb _ (list_ascii_of_string s)) eqn:Hex.
  - rewrite bool_decide_eq_true_2 by by apply split_length_has.
    apply split_head_span.
  - rewrite bool_decide_eq_false_2; [done|].
    rewrite split_length_has. congruence.
Qed.

Lemma has_colon_app a b : has_colon (a +:+ ":" +:+ b) = true.
Proof.
  unfold has_colon. induction a as [|c a IH]; [done|].
  rewrite string_app_cons. simpl. by rewrite IH, orb_true_r.
Qed.

Lemma before_colon_app a b :
  has_colon a = false → before_colon (a +:+ ":" +:+ b) = a.
Proof.
  intros Ha. unfold before_colon. rewrite span_app; [done| |done].
  unfold has_colon in Ha. induction a as [|c a IH]; [done|]. simpl in *.
  apply orb_false_iff in Ha as [Hc Ha]. by rewrite Hc, IH.
Qed.

Lemma extractHostPort_first_segment a b :
  has_colon a = false → extractHostPort (a +:+ ":" +:+ b) = Some a.
Proof.
  intros Ha. by rewrite extractHostPort_spec, has_colon_app, before_colon_app.
Qed.

(** A mapping without a colon is passed over by both loops. *)
Lemma check_ports_colon_free name ports used :
  Forall (λ p, has_colon (String_of p) = false) ports →
  check_ports name ports used = Ret used.
Proof.
  induction 1 as [|p ports Hp _ IH]; simpl; [done|].
  by rewrite extractHostPort_spec, Hp.
Qed.

Lemma collect_ports_colon_free ports used :
  Forall (λ p, has_colon (String_of p) = false) ports →
  collect_ports used ports = used.
Proof.
  unfold collect_ports. induction 1 as [|p ports Hp _ IH]; simpl; [done|].
  by rewrite extractHostPort_spec, Hp.
Qed.

(** One existing service and one new service, each with one mapping. *)
Lemma mergeCompose_two_services a b m1 m2 h1 h2 v other :
  a ≠ b → plain_name b = true →
  extractHostPort m1 = Some h1 → h1 ≠ "" →
  extractHostPort m2 = Some h2 → h2 ≠ "" →
  mergeCompose_document
    {| version := v; services := Some [(a, service_with_ports [m1])];
       compose_other := other |}
    [(b, service_with_ports [m2])]
  = if bool_decide (h1 = h2) then Throw (port_collision h2 b)
    else Ret {| version := v;
                services := Some [(a, service_with_ports [m1]);
                                  (b, service_with_ports [m2])];
                compose_other := other |}.
Proof.
  intros Hab [Hown Hidx%bool_decide_eq_true]%andb_true_iff Hm1 Hh1 Hm2 Hh2.
  apply negb_true_iff in Hown.
  unfold mergeCompose_document, Object_entries, service_with_ports. simpl.
  rewrite Hm1, (truthy_string_ne h1 Hh1). simpl.
  unfold has_truthy, js_get. simpl.
  rewrite (bool_decide_eq_false_2 (a = b)) by done. rewrite Hown.
  simpl. rewrite Hm2, (truthy_string_ne h2 Hh2).
  rewrite (obj_set_plain _ b) by done. simpl.
  rewrite (bool_decide_eq_false_2 (a = b)) by done.
  destruct (decide (h1 = h2)) as [->|Hne].
  - rewrite bool_decide_eq_true_2 by set_solver.
    by rewrite bool_decide_eq_true_2.
  - rewrite bool_decide_eq_false_2 by set_solver.
    by rewrite (bool_decide_eq_false_2 (h1 = h2)).
Qed.

(** C9.  The host-port extraction returns the text before the first
    colon of a mapping that has a colon, and null otherwise.  So for a
    mapping [IP:hostPort:containerPort] it returns the bind address, and
    the collision check compares bind addresses: a new service (under a
    name that no object inherits and that is not an array index, so
    that it is looked at, and listed after the existing one) collides
    with an existing service bound to the same address whatever their
    host ports, and does not collide with one that has the same host
    port on a different address; and mappings without a colon are never
    checked. *)
Theorem extractHostPort_first_colon :
  (∀ s, extractHostPort s
        = if has_colon s then Some (before_colon s) else None)
  ∧ (∀ ip hostPort containerPort,
       has_colon ip = false →
       extractHostPort (ip +:+ ":" +:+ hostPort +:+ ":" +:+ containerPort)
       = Some ip)
  ∧ (∀ a b ip ip' hp hp' cp cp' v other,
       a ≠ b → plain_name b = true →
       has_colon ip = false → has_colon ip' = false →
       ip ≠ "" → ip' ≠ "" →
       mergeCompose_document
         {| version := v;
            services := Some [(a, service_with_ports
                                    [ip +:+ ":" +:+ hp +:+ ":" +:+ cp])];
            compose_other := other |}
         [(b, service_with_ports [ip' +:+ ":" +:+ hp' +:+ ":" +:+ cp'])]
       = if bool_decide (ip = ip') then Throw (port_collision ip' b)
         else Ret {| version := v;
                     services :=
                       Some [(a, service_with_ports
                                   [ip +:+ ":" +:+ hp +:+ ":" +:+ cp]);
                             (b, service_with_ports
                                   [ip' +:+ ":" +:+ hp' +:+ ":" +:+ cp'])];
                     compose_other := other |})
  ∧ (∀ name ports used,
       Forall (λ p, has_colon (String_of p) = false) ports →
       check_ports name ports used = Ret used
       ∧ collect_ports used ports = used).
Proof.
  split; [exact extractHostPort_spec|].
  split; [intros; by apply extractHostPort_first_segment|].
  split.
  - intros a b ip ip' hp hp' cp cp' v other Hab Hb Hip Hip' Hne Hne'.
    apply mergeCompose_two_services; try done;
      by apply extractHostPort_first_segment.
  - intros name ports used Hports. split.
    + by apply check_ports_colon_free.
    + by apply collect_ports_colon_free.
Qed.

(** Two services on one address with different host ports collide; the
    ports [8000] and [8000] without a colon do not. *)
Lemma extractHostPort_first_colon_witness :
  extractHostPort "127.0.0.1:8000:80" = Some "127.0.0.1"
  ∧ mergeCompose_document
      {| version := None;
         services := Some [("api", service_with_ports ["127.0.0.1:8000:80"])];
         compose_other := [] |}
      [("web", service_with_ports ["127.0.0.1:9000:90"])]
    = Throw (port_collision "127.0.0.1" "web")
  ∧ check_ports "web" [VStr "8000"] {["8000"]} = Ret {["8000"]}.
Proof.
  destruct extractHostPort_first_colon as (_ & Hseg & Hmerge & Hfree).
  split; [apply (Hseg "127.0.0.1" "8000" "80"); reflexivity|].
  split.
  - apply (Hmerge "api" "web" "127.0.0.1" "127.0.0.1" "8000" "9000" "80" "90");
      try reflexivity; discriminate.
  - apply (Hfree "web" [VStr "8000"]). by repeat constructor.
Defined.

(** C4, evaluated.  A new service that declares host port 8000, already
    claimed by [api] on the loopback address, is merged without an
    error, and the file is rewritten. *)
Theorem mergeDockerComposeServices_misses_bound_port :
  let host := sample_host empty_PackageJson (Some compose_with_bound_port)
                empty_LanggraphJson in
  let σ : fs := {["docker-compose.yml" := "services: ..."]} in
  mergeCompose_document compose_with_bound_port
    [("web", service_with_ports ["8000:80"])]
  = Ret {| version := Some "3";
           services := Some [("api", service_with_ports ["127.0.0.1:8000:80"]);
                             ("web", service_with_ports ["8000:80"])];
           compose_other := [] |}
  ∧ @mergeDockerComposeServices host "docker-compose.yml"
      [("web", service_with_ports ["8000:80"])] σ
    = (Ret tt, {["docker-compose.yml" := "<docker-compose.yml>"]}).
Proof. split; reflexivity. Qed.

End compose.

(** ** The endpoint-registry merger *)

Section langgraph.
Import Structured Policy.

(** An entry with a non-empty path is never overwritten. *)
Lemma add_graph_keeps_truthy graphs entries k path :
  obj_get graphs k = Some path → path ≠ "" →
  obj_get (fold_left add_graph entries graphs) k = Some path.
Proof.
  revert graphs. induction entries as [|[n v] entries IH]; intros graphs Hk Hp;
    simpl; [done|].
  apply IH; [|done]. unfold add_graph, has_truthy, js_get. simpl.
  destruct (decide (n = k)) as [->|Hne].
  - by rewrite Hk, truthy_string_ne.
  - case_match; [|done]. by rewrite obj_get_set_ne.
Qed.

(** C5, evaluated.  A graph registered with an empty path, and a service
    whose definition is an empty string, are present by name, and the
    merge overwrites them. *)
Theorem existing_falsy_entries_are_overwritten :
  mergeLanggraph_document
    {| graphs := Some [("main", "")]; langgraph_other := [] |}
    [("main", "new:graph")]
  = {| graphs := Some [("main", "new:graph")]; langgraph_other := [] |}
  ∧ mergeCompose_document
      {| version := None; services := Some [("web", VStr "")];
         compose_other := [] |}
      [("web", service_with_ports ["8000:80"])]
    = Ret {| version := None;
             services := Some [("web", service_with_ports ["8000:80"])];
             compose_other := [] |}.
Proof. split; reflexivity. Qed.

End langgraph.

(** ** The Python dependency mergers *)

Section python.
Import Structured Policy.

Lemma mergePyprojectDependencies_run `{Host} (σ : fs) p newDeps :
  mergePyprojectDependencies p newDeps σ
  = match σ !! p with
    | Some content => (Ret tt, <[p := mergePyproject_text content newDeps]> σ)
    | None => (Throw (ENOENT p), σ)
    end.
Proof.
  unfold mergePyprojectDependencies, Fs.bind, readFileSync, writeFileSync.
  by destruct (σ !! p).
Qed.

(** One round of the loop over the new dependencies, for a package that
    is already in the map with another specifier. *)
Lemma merge_dep_conflict depMap dep existing :
  obj_get depMap (parsePepPackageName dep) = Some existing →
  existing ≠ "" → existing ≠ dep →
  merge_dep depMap dep
  = Map_set (parsePepPackageName dep) (resolveDepConflict existing dep) depMap.
Proof.
  intros Hget Hne Hdiff. unfold merge_dep.
  rewrite Hget, truthy_string_ne by done.
  by rewrite bool_decide_eq_false_2.
Qed.

Lemma resolveDepConflict_either existing requested :
  resolveDepConflict existing requested = existing
  ∨ resolveDepConflict existing requested = requested.
Proof. unfold resolveDepConflict. repeat case_match; auto. Qed.

Lemma resolveDepConflict_no_minimum existing requested :
  match_min_version existing = None ∨ match_min_version requested = None →
  resolveDepConflict existing requested = existing.
Proof.
  unfold resolveDepConflict. intros [-> | ->]; [done|].
  by destruct (match_min_version existing).
Qed.

Lemma req_existingNames_fold lines (acc : gset string) name :
  name ∈ fold_left (λ names line,
           let trimmed := trim line in
           if truthy_string trimmed && negb (startsWith "#" trimmed)
           then {[parsePepPackageName trimmed]} ∪ names else names)
         lines acc
  ↔ name ∈ acc
    ∨ ∃ line, line ∈ lines
        ∧ truthy_string (trim line) && negb (startsWith "#" (trim line)) = true
        ∧ parsePepPackageName (trim line) = name.
Proof.
  revert acc. induction lines as [|l lines IH]; intros acc; simpl.
  - split; [by left|]. intros [?|(? & []%elem_of_nil & _)]. done.
  - rewrite IH. split.
    + intros [Hacc|(line & Hin & Hm)].
      * destruct (truthy_string (trim l) && negb (startsWith "#" (trim l)))
          eqn:Hl; [|by left].
        apply elem_of_union in Hacc as [->%elem_of_singleton|?]; [|by left].
        right. exists l. split; [by left|done].
      * right. exists line. split; [by right|done].
    + intros [Hacc|(line & [->|Hin]%elem_of_cons & Hm & Hname)].
      * left. case_match; set_solver.
      * left. rewrite Hm. set_solver.
      * right. by exists line.
Qed.

Lemma req_existingNames_mentions content name :
  name ∈ req_existingNames content ↔ req_mentions content name = true.
Proof.
  unfold req_existingNames, req_mentions. rewrite req_existingNames_fold.
  rewrite existsb_exists. split.
  - intros [[]%elem_of_empty|(line & Hin & Hm & Hname)].
    exists line. split; [by apply list_elem_of_In|].
    rewrite Hm. simpl. by apply bool_decide_eq_true.
  - intros (line & Hin & [Hm Hname%bool_decide_eq_true]%andb_true_iff).
    right. exists line. split; [by apply list_elem_of_In|done].
Qed.

Lemma req_toAdd content (newDeps : list string) :
  filter (λ dep, parsePepPackageName dep ∉ req_existingNames content) newDeps
  = filter (λ dep, req_mentions content (parsePepPackageName dep) = false)
           newDeps.
Proof.
  apply list_filter_iff. intros dep. rewrite req_existingNames_mentions.
  by destruct (req_mentions content (parsePepPackageName dep)).
Qed.

Lemma req_append_fold (toAdd : list string) acc :
  fold_left (λ c dep, c +:+ dep +:+ nl) toAdd acc
  = acc +:+ fold_right (λ dep rest, dep +:+ nl +:+ rest) "" toAdd.
Proof.
  revert acc. induction toAdd as [|v l IH]; intros acc; simpl.
  - by rewrite string_app_nil_r.
  - rewrite IH. by rewrite !string_app_assoc.
Qed.

Lemma mergeRequirementsTxt_run (σ : fs) p (newDeps : list string) :
  let content := default "" (σ !! p) in
  let toAdd :=
    filter (λ dep, req_mentions content (parsePepPackageName dep) = false)
           newDeps in
  mergeRequirementsTxt p newDeps σ
  = (Ret tt,
     match toAdd with
     | [] => σ
     | _ => <[p := content +:+ line_end content +:+ req_section toAdd]> σ
     end).
Proof.
  intros content toAdd.
  unfold mergeRequirementsTxt. rewrite existsSync_read. fold content.
  rewrite req_toAdd. fold toAdd.
  destruct toAdd as [|v l] eqn:Hnew; [done|].
  rewrite bool_decide_eq_false_2 by done.
  unfold writeFileSync. do 2 f_equal.
  rewrite req_append_fold. unfold req_section, line_end.
  destruct (truthy_string content && negb (endsWith_char LF content));
    by rewrite !string_app_assoc.
Qed.

End python.

(** ** The mergers and the file system *)

Section file_io.
Import Structured Policy.

Lemma mergeNpm_loop_Throw dev entries deps e :
  mergeNpm_loop dev entries deps = Throw e →
  (∃ name existing version,
      (name, version) ∈ entries
      ∧ e = dependency_conflict name existing version)
  ∨ (e = TypeError
     ∧ ∃ name version, (name, version) ∈ entries
                       ∧ is_prototype_name name = true).
Proof.
  revert deps. induction entries as [|[n v] rest IH]; intros deps; [done|].
  rewrite mergeNpm_loop_cons.
  destruct (npm_resolution deps dev n v) as [r|e'] eqn:Hr; simpl.
  - intros Hloop.
    destruct (IH _ Hloop) as [(n' & ex & v' & Hin & ->)|(-> & n' & v' & Hin & Hn)].
    + left. exists n', ex, v'. split; [by right|done].
    + right. split; [done|]. exists n', v'. split; [by right|done].
  - intros [= ->].
    destruct (npm_resolution_Throw _ _ _ _ _ Hr) as [(ex & _ & ->)|[Hinh ->]].
    + left. exists n, ex, v. split; [by left|done].
    + right. split; [done|]. exists n, v. split; [by left|].
      by eapply lookup_existing_Inherited.
Qed.

Lemma collect_used_Throw entries used e :
  collect_used entries used = Throw e → e = TypeError.
Proof.
  revert used. induction entries as [|[n svc] rest IH]; intros used; [done|].
  simpl. destruct svc; simpl; try apply IH; [by intros [= <-]|].
  repeat case_match; apply IH.
Qed.

Lemma check_ports_Throw name ports used e :
  check_ports name ports used = Throw e →
  ∃ host, e = port_collision host name.
Proof.
  revert used. induction ports as [|p ports IH]; intros used; [done|].
  simpl. repeat case_match; try apply IH. intros [= <-]. by eexists.
Qed.

Lemma add_services_Throw entries svcs used e :
  add_services entries svcs used = Throw e →
  e = TypeError ∨ ∃ host name, e = port_collision host name.
Proof.
  revert svcs used. induction entries as [|[n d] rest IH]; intros svcs used;
    [done|].
  simpl. case_match; [apply IH|].
  destruct (get_ports d) as [ports|e'] eqn:Hports; simpl.
  - destruct (match ports with
              | Some (VArr l) => check_ports n l used
              | _ => Ret used
              end) as [used'|e'] eqn:Hcheck; simpl; [apply IH|].
    intros [= <-]. right.
    destruct ports as [[]|]; try done.
    destruct (check_ports_Throw _ _ _ _ Hcheck) as [host ->]. by exists host, n.
  - intros [= <-]. left. destruct d; by simplify_eq/=.
Qed.

(** C3, as the code has it.  Each structured merger takes the path of
    its document and does the file I/O itself: its effect on the file
    system is that of a function from the existing text at that path
    (or its absence) to a new text written back to the same path,
    nothing written, or an exception with the file system left as it
    was.  A conflict is thrown as a plain [Error] with a message; the
    only other exception of the npm and compose mergers, once the
    document is parsed, is a [TypeError]: for an addition named like a
    member of [Object.prototype], and for a service that is null. *)
Theorem structured_mergers_transform_their_file :
  (∀ `{Host} p newDeps, file_transformer p (mergeNpmDependencies p newDeps))
  ∧ (∀ p additions, file_transformer p (mergeEnvAdditions p additions))
  ∧ (∀ `{Host} p newServices,
       file_transformer p (mergeDockerComposeServices p newServices))
  ∧ (∀ `{Host} p newDeps,
       file_transformer p (mergePyprojectDependencies p newDeps))
  ∧ (∀ p newDeps, file_transformer p (mergeRequirementsTxt p newDeps))
  ∧ (∀ `{Host} p newGraphs, file_transformer p (mergeLanggraphJson p newGraphs))
  ∧ (∀ `{Host} pkg newDeps e,
       mergeNpm_document pkg newDeps = Throw e →
       (∃ name existing version,
           (name, version) ∈ newDeps
           ∧ e = dependency_conflict name existing version)
       ∨ (e = TypeError
          ∧ ∃ name version, (name, version) ∈ newDeps
                            ∧ is_prototype_name name = true))
  ∧ (∀ compose newServices e,
       mergeCompose_document compose newServices = Throw e →
       e = TypeError ∨ ∃ host name, e = port_collision host name).
Proof.
  repeat split.
  - intros H p newDeps.
    exists (λ o, match o with
                 | Some content =>
                     bindR (JSON_parse_PackageJson content) (λ pkg,
                     bindR (mergeNpm_document pkg newDeps) (λ pkg',
                     Ret (Some (JSON_stringify_PackageJson pkg' +:+ nl))))
                 | None => Throw (ENOENT p)
                 end).
    intros σ.
    unfold mergeNpmDependencies, Fs.bind, readFileSync, lift, writeFileSync.
    destruct (σ !! p) as [content|]; [|done].
    destruct (JSON_parse_PackageJson content) as [pkg|]; [|done]. simpl.
    by destruct (mergeNpm_document pkg newDeps).
  - intros p additions.
    exists (λ o,
      let content := default "" o in
      match filter (λ v, env_defines content v = false) additions with
      | [] => Ret None
      | newVars =>
          Ret (Some (content +:+ line_end content +:+ env_section newVars))
      end).
    intros σ. rewrite mergeEnvAdditions_run. simpl. by case_match.
  - intros H p newServices.
    exists (λ o,
      bindR (match o with
             | Some content =>
                 bindR (parse content) (λ doc,
                 Ret (default {| version := None; services := None;
                                 compose_other := [] |} doc))
             | None => Ret {| version := Some "3"; services := None;
                              compose_other := [] |}
             end) (λ compose,
      bindR (mergeCompose_document compose newServices) (λ compose',
      Ret (Some (stringify compose'))))).
    intros σ.
    unfold mergeDockerComposeServices, Fs.bind, existsSync, readFileSync,
      lift, ret, writeFileSync.
    destruct (σ !! p) as [content|] eqn:Hp; simpl.
    + rewrite Hp. destruct (parse content) as [doc|]; [|done]. simpl.
      by destruct (mergeCompose_document _ newServices).
    + by destruct (mergeCompose_document _ newServices).
  - intros H p newDeps.
    exists (λ o, match o with
                 | Some content => Ret (Some (mergePyproject_text content newDeps))
                 | None => Throw (ENOENT p)
                 end).
    intros σ. rewrite mergePyprojectDependencies_run. by destruct (σ !! p).
  - intros p newDeps.
    exists (λ o,
      let content := default "" o in
      match filter (λ dep, req_mentions content (parsePepPackageName dep) = false)
                   newDeps with
      | [] => Ret None
      | toAdd =>
          Ret (Some (content +:+ line_end content +:+ req_section toAdd))
      end).
    intros σ. rewrite mergeRequirementsTxt_run. simpl. by case_match.
  - intros H p newGraphs.
    exists (λ o,
      bindR (match o with
             | Some content => JSON_parse_LanggraphJson content
             | None => Ret {| graphs := None; langgraph_other := [] |}
             end) (λ langgraph,
      Ret (Some (JSON_stringify_LanggraphJson
                   (mergeLanggraph_document langgraph newGraphs) +:+ nl)))).
    intros σ.
    unfold mergeLanggraphJson, Fs.bind, existsSync, readFileSync, lift, ret,
      writeFileSync.
    destruct (σ !! p) as [content|] eqn:Hp; simpl; [|done].
    rewrite Hp. by destruct (JSON_parse_LanggraphJson content).
  - intros H pkg newDeps e. rewrite mergeNpm_document_loop.
    destruct (mergeNpm_loop _ _ _) as [deps|e'] eqn:Hloop; [done|].
    intros [= <-]. by eapply mergeNpm_loop_Throw.
  - intros compose newServices e. unfold mergeCompose_document.
    destruct (collect_used _ _) as [used|e'] eqn:Hused; simpl.
    + destruct (add_services _ _ _) as [svcs|e'] eqn:Hadd; [done|].
      simpl. intros [= <-]. by eapply add_services_Throw.
    + intros [= <-]. left. by eapply collect_used_Throw.
Qed.

(** The env-file merger is a transformer of its file, and the conflict
    of [^1.2.0] with [^2.0.0] is an [Error] with the conflict message. *)
Lemma structured_mergers_transform_their_file_witness :
  let pkg := {| dependencies := Some [("pkg", "^1.2.0")];
                devDependencies := None; pkg_other := [] |} in
  let host := sample_host pkg None empty_LanggraphJson in
  file_transformer ".env.example" (mergeEnvAdditions ".env.example" ["API_KEY"])
  ∧ ∃ name existing version,
      (name, version) ∈ [("pkg", "^2.0.0")]
      ∧ dependency_conflict "pkg" "^1.2.0" "^2.0.0"
        = dependency_conflict name existing version.
Proof.
  intros pkg host.
  destruct structured_mergers_transform_their_file
    as (_ & Henv & _ & _ & _ & _ & Hnpm & _).
  split; [apply Henv|].
  destruct (Hnpm host pkg [("pkg", "^2.0.0")]
              (dependency_conflict "pkg" "^1.2.0" "^2.0.0") eq_refl)
    as [Hconflict|[Htype _]]; [exact Hconflict|discriminate Htype].
Defined.

(** C3, as stated, fails: the env-file merger does file I/O.  Run on an
    empty file system it creates the file. *)
Lemma mergeEnvAdditions_does_file_io :
  ¬ no_file_io (mergeEnvAdditions ".env.example" ["API_KEY"]).
Proof.
  intros [r Hr]. specialize (Hr ∅). vm_compute in Hr. discriminate Hr.
Qed.

End file_io.

(** ** The migration runner *)

Section migrations.
Import Versions RunMigrations MigrationSpec.

Lemma version_le_trans xs ys zs :
  version_le xs ys → version_le ys zs → version_le xs zs.
Proof.
  intros [Hlt|Heq] [Hlt'|Heq'].
  - left. by eapply version_lt_trans.
  - left. by eapply version_lt_eq_trans.
  - left. by eapply version_eq_lt_trans.
  - right. intros j. by rewrite Heq.
Qed.

Lemma compare_components_le xs ys :
  (compare_components xs ys ≤ 0)%Z ↔ version_le xs ys.
Proof.
  destruct (compare_components_sign xs ys) as (Hlt & Heq & _).
  unfold version_le. rewrite <- Hlt, <- Heq. lia.
Qed.

Lemma compare_components_gt xs ys :
  (0 < compare_components xs ys)%Z ↔ version_lt ys xs.
Proof. by destruct (compare_components_sign xs ys) as (_ & _ & Hgt). Qed.

Lemma version_lt_le xs ys : version_lt xs ys → version_le xs ys.
Proof. by left. Qed.

Lemma semver_le_trans a b c : semver_le a b → semver_le b c → semver_le a c.
Proof.
  intros (xs & ys & Ha & Hb & Hle) (ys' & zs & Hb' & Hc & Hle').
  rewrite Hb in Hb'. injection Hb' as <-.
  exists xs, zs. split; [done|]. split; [done|]. by eapply version_le_trans.
Qed.

Lemma component_value_digits1 c :
  is_digits1 c = true → component_value c = Some (decimal_value c).
Proof.
  intros Hc. unfold component_value.
  pose proof (digits_prefix_digits1 c Hc) as Hp.
  unfold is_digits1 in Hc. apply andb_true_iff in Hc as [_ ->]. done.
Qed.

(** A name the regular expression accepts is a version the comparator
    accepts. *)
Lemma is_version_name_semver v :
  is_version_name v = true → is_Some (semver_components v).
Proof.
  unfold is_version_name, semver_components.
  destruct (split "." v) as [|a [|b [|c [|]]]]; try done.
  intros [[Ha Hb]%andb_true_iff Hc]%andb_true_iff.
  cbn. rewrite !component_value_digits1 by done. by eexists.
Qed.

Lemma compareSemver_valid a b xs ys :
  semver_components a = Some xs → semver_components b = Some ys →
  compareSemver a b = Ret (compare_components xs ys).
Proof. intros Ha Hb. unfold compareSemver. by rewrite Ha, Hb. Qed.

Lemma filterR_Ret {A} (p : A → Res bool) (P : A → Prop) (l : list A) :
  (∀ x, x ∈ l → ∃ b, p x = Ret b ∧ (b = true ↔ P x)) →
  ∃ l', filterR p l = Ret l' ∧ ∀ x, x ∈ l' ↔ x ∈ l ∧ P x.
Proof.
  induction l as [|x l IH]; intros Hp; simpl.
  - exists []. split; [done|]. intros x. rewrite elem_of_nil. naive_solver.
  - destruct (Hp x) as (b & -> & Hb); [by left|]. simpl.
    destruct IH as (l' & -> & Hl'); [intros y Hy; apply Hp; by right|]. simpl.
    eexists. split; [done|]. intros y. destruct b.
    + rewrite !elem_of_cons, Hl'. naive_solver.
    + rewrite elem_of_cons, Hl'. split; [naive_solver|].
      intros [[->|Hy] HP]; [|done]. apply Hb in HP. done.
Qed.

Lemma sort_insertR_sorted x l :
  is_Some (semver_components x) →
  Forall (λ v, is_Some (semver_components v)) l →
  StronglySorted semver_le l →
  ∃ l', sort_insertR compareSemver x l = Ret l'
        ∧ l' ≡ₚ x :: l ∧ StronglySorted semver_le l'.
Proof.
  intros [xs Hx] Hvalid Hsorted.
  induction l as [|y l IH]; simpl.
  - exists [x]. split; [done|]. split; [done|]. by repeat constructor.
  - apply Forall_cons in Hvalid as [[ys Hy] Hvalid].
    apply StronglySorted_inv in Hsorted as [Hsorted Hall].
    rewrite (compareSemver_valid x y xs ys Hx Hy). simpl.
    destruct (Z.leb_spec (compare_components xs ys) 0) as [Hle|Hgt].
    + eexists. split; [done|]. split; [done|].
      assert (semver_le x y) as Hxy.
      { exists xs, ys. split; [done|]. split; [done|].
        by apply compare_components_le. }
      constructor; [by constructor|]. constructor; [done|].
      eapply Forall_impl; [exact Hall|]. intros z Hz.
      by eapply semver_le_trans.
    + destruct (IH Hvalid Hsorted) as (l' & -> & Hperm & Hs'). simpl.
      eexists. split; [done|]. split.
      * rewrite Hperm. apply Permutation_swap.
      * constructor; [done|]. rewrite Hperm. constructor; [|done].
        exists ys, xs. split; [done|]. split; [done|].
        apply version_lt_le. by apply compare_components_gt.
Qed.

Lemma sortR_sorted l :
  Forall (λ v, is_Some (semver_components v)) l →
  ∃ l', sortR compareSemver l = Ret l'
        ∧ l' ≡ₚ l ∧ StronglySorted semver_le l'.
Proof.
  induction l as [|x l IH]; intros Hvalid; simpl.
  - exists []. split; [done|]. split; [done|]. constructor.
  - apply Forall_cons in Hvalid as [Hx Hvalid].
    destruct (IH Hvalid) as (s & -> & Hperm & Hsorted). simpl.
    destruct (sort_insertR_sorted x s Hx) as (l' & Hl' & Hperm' & Hs');
      [by rewrite Hperm|done|].
    exists l'. split; [done|]. split; [|done]. by rewrite Hperm', Hperm.
Qed.

(** The selection: the directories named by a version in the range, in
    ascending order. *)
Lemma migrationVersions_spec entries fromVersion toVersion :
  is_semver fromVersion = true → is_semver toVersion = true →
  ∃ versions,
    migrationVersions entries fromVersion toVersion = Ret versions
    ∧ (∀ v, v ∈ versions ↔ selected entries fromVersion toVersion v)
    ∧ StronglySorted semver_le versions.
Proof.
  intros [fs Hfrom]%bool_decide_eq_true [ts Hto]%bool_decide_eq_true.
  unfold migrationVersions.
  set (names := map name (List.filter _ entries)).
  assert (∀ v, v ∈ names ↔
            (∃ e, e ∈ entries ∧ name e = v ∧ isDirectory e = true)
            ∧ is_version_name v = true) as Hnames.
  { intros v. subst names. rewrite list_elem_of_fmap. split.
    - intros (e & -> & He). apply list_elem_of_In, filter_In in He as [He Hf].
      apply andb_true_iff in Hf as [Hd Hn]. split; [|done].
      exists e. by rewrite list_elem_of_In.
    - intros [(e & He & <- & Hd) Hn]. exists e. split; [done|].
      apply list_elem_of_In, filter_In. split; [by apply list_elem_of_In|].
      by rewrite Hd, Hn. }
  destruct (filterR_Ret
              (λ v, bindR (compareSemver v fromVersion) (λ c1,
                    if (0 <? c1)%Z
                    then bindR (compareSemver v toVersion)
                           (λ c2, Ret (c2 <=? 0)%Z)
                    else Ret false))
              (λ v, semver_lt fromVersion v ∧ semver_le v toVersion) names)
    as (sel & -> & Hsel).
  { intros v [_ Hn]%Hnames.
    destruct (is_version_name_semver v Hn) as [vs Hv].
    rewrite (compareSemver_valid v fromVersion vs fs Hv Hfrom). simpl.
    destruct (Z.ltb_spec 0 (compare_components vs fs)) as [Hgt|Hle].
    - rewrite (compareSemver_valid v toVersion vs ts Hv Hto). simpl.
      eexists. split; [done|]. rewrite Z.leb_le, compare_components_le.
      apply compare_components_gt in Hgt. split.
      + intros Hle. split; [by exists fs, vs|by exists vs, ts].
      + intros [_ (vs' & ts' & Hv' & Hto' & Hle)]. congruence.
    - exists false. split; [done|]. split; [done|].
      intros [(fs' & vs' & Hfrom' & Hv' & Hlt) _].
      assert (fs' = fs) as -> by congruence.
      assert (vs' = vs) as -> by congruence.
      apply compare_components_gt in Hlt. lia. }
  simpl.
  destruct (sortR_sorted sel) as (versions & -> & Hperm & Hsorted).
  { apply Forall_forall. intros v [[_ Hn]%Hnames _]%Hsel.
    by apply is_version_name_semver. }
  exists versions. split; [done|]. split; [|done].
  intros v. rewrite Hperm, Hsel, Hnames. unfold selected. naive_solver.
Qed.








End migrations.

(** * Further properties of the code *)

(** ** More on range compatibility *)

Section more_ranges.
Import Versions Structured Policy.

Lemma bool_decide_sym {A} `{EqDecision A} (x y : A) :
  bool_decide (x = y) = bool_decide (y = x).
Proof. apply bool_decide_ext. naive_solver. Qed.

Lemma sub_NaN_sym a b : sub a b = NaN ↔ sub b a = NaN.
Proof. by destruct a, b. Qed.

Lemma strict_neq_sym a b : strict_neq a b = strict_neq b a.
Proof. destruct a, b; simpl; try done. by rewrite Z.eqb_sym. Qed.

Lemma compareVersionParts_from_NaN_sym n i a b :
  compareVersionParts_from n i a b = NaN ↔ compareVersionParts_from n i b a = NaN.
Proof.
  revert i. induction n as [|n IH]; intros i; simpl; [done|].
  rewrite (strict_neq_sym (parseInt (default "0" (b !! i)))).
  case_match; [apply sub_NaN_sym|apply IH].
Qed.

Lemma compareVersionParts_NaN_sym a b :
  compareVersionParts a b = NaN ↔ compareVersionParts b a = NaN.
Proof.
  unfold compareVersionParts. rewrite (Nat.max_comm (length b)).
  apply compareVersionParts_from_NaN_sym.
Qed.

(** The loop returns [NaN] at the first component that does not start
    with a number, when the components before it are equal numbers. *)
Lemma compareVersionParts_from_NaN n k i a b :
  (k ≤ i < k + n)%nat →
  (∀ j, (k ≤ j < i)%nat →
        strict_neq (parseInt (default "0" (a !! j)))
                   (parseInt (default "0" (b !! j))) = false) →
  parseInt (default "0" (a !! i)) = NaN
  ∨ parseInt (default "0" (b !! i)) = NaN →
  compareVersionParts_from n k a b = NaN.
Proof.
  revert k. induction n as [|n IH]; intros k Hi Hbefore Hnan; [lia|].
  simpl. destruct (decide (k = i)) as [->|Hne].
  - destruct Hnan as [-> | ->]; [done|].
    by destruct (parseInt (default "0" (a !! i))).
  - rewrite Hbefore by lia. apply IH; [lia| |done].
    intros j Hj. apply Hbefore. lia.
Qed.

(** X1.  Whatever the two ranges, the resolved range is one of them,
    never a third; it is the existing one whenever the ranges are
    incompatible, and identical ranges are compatible. *)
Theorem areRangesCompatible_resolved_is_an_input existing requested :
  (resolved (areRangesCompatible existing requested) = existing
   ∨ resolved (areRangesCompatible existing requested) = requested)
  ∧ (compatible (areRangesCompatible existing requested) = false →
     resolved (areRangesCompatible existing requested) = existing
     ∧ existing ≠ requested).
Proof.
  unfold areRangesCompatible.
  destruct (decide (existing = requested)) as [->|Hne].
  - rewrite bool_decide_eq_true_2 by done. simpl. by split; [left|].
  - rewrite bool_decide_eq_false_2 by done.
    repeat case_match; simpl; split; auto; done.
Qed.

(** X2.  Whether two ranges are compatible does not depend on which of
    them is the existing one. *)
Theorem areRangesCompatible_symmetric existing requested :
  compatible (areRangesCompatible existing requested)
  = compatible (areRangesCompatible requested existing).
Proof.
  unfold areRangesCompatible.
  rewrite (bool_decide_sym requested existing).
  destruct (bool_decide (existing = requested)); [done|].
  rewrite (andb_comm (startsWith "^" requested)).
  rewrite (andb_comm (startsWith "~" requested)).
  rewrite (bool_decide_sym (split "." (slice1 requested) !! 0%nat)).
  rewrite (bool_decide_sym (split "." (slice1 requested) !! 1%nat)).
  by repeat case_match.
Qed.

(** X3.  Two different ranges that are neither both caret ranges nor
    both tilde ranges (an exact pin against a range, a caret against a
    tilde, [>=], [*]) are incompatible: when no addition is named like
    a member of [Object.prototype], a merge in which an addition meets
    such a range in the manifest throws a dependency conflict, whatever
    else is added. *)
Theorem mergeNpm_document_mixed_ranges_conflict `{Host} pkg newDeps
    name version existing :
  wf_obj newDeps = true →
  Forall (λ kv, own_name kv.1 = true) newDeps →
  (name, version) ∈ newDeps →
  manifest_range pkg name = Some existing →
  existing ≠ "" → existing ≠ version →
  startsWith "^" existing && startsWith "^" version = false →
  startsWith "~" existing && startsWith "~" version = false →
  compatible (areRangesCompatible existing version) = false
  ∧ ∃ n e v, (n, v) ∈ newDeps
      ∧ mergeNpm_document pkg newDeps = Throw (dependency_conflict n e v).
Proof.
  intros Hnew%wf_obj_NoDup Hnames Hmem Hex Htruthy Hne Hcaret Htilde.
  assert (compatible (areRangesCompatible existing version) = false) as Hc.
  { unfold areRangesCompatible. rewrite bool_decide_eq_false_2 by done.
    by rewrite Hcaret, Htilde. }
  split; [done|].
  rewrite Forall_forall in Hnames.
  assert (npm_resolution (default [] (dependencies pkg)) (devDependencies pkg)
            name version = Throw (dependency_conflict name existing version))
    as Hthrow.
  { apply (policy_resolution pkg name version (Conflict existing)).
    - specialize (Hnames _ Hmem). by apply negb_true_iff in Hnames.
    - rewrite Hex. by apply policy_mixed. }
  destruct (mergeNpm_loop_some_Throw _ _ _ _ _ _ Hnew Hmem Hthrow)
    as (n & v & e' & Hin & Hres & Hloop).
  destruct (npm_resolution_Throw _ _ _ _ _ Hres) as [(e & _ & ->)|[Hinh _]].
  - exists n, e, v. split; [done|].
    rewrite mergeNpm_document_loop. by rewrite Hloop.
  - apply lookup_existing_Inherited in Hinh.
    specialize (Hnames _ Hin). unfold own_name in Hnames. simpl in Hnames.
    by rewrite Hinh in Hnames.
Qed.

(** An exact pin in the manifest against a caret range in the additions. *)
Lemma mergeNpm_document_mixed_ranges_conflict_witness :
  let pkg := {| dependencies := Some [("left-pad", "1.3.0")];
                devDependencies := None; pkg_other := [] |} in
  let host := sample_host pkg None empty_LanggraphJson in
  compatible (areRangesCompatible "1.3.0" "^1.3.0") = false
  ∧ ∃ n e v, (n, v) ∈ [("left-pad", "^1.3.0")]
      ∧ @mergeNpm_document host pkg [("left-pad", "^1.3.0")]
        = Throw (dependency_conflict n e v).
Proof.
  intros pkg host.
  apply (@mergeNpm_document_mixed_ranges_conflict host pkg
           [("left-pad", "^1.3.0")] "left-pad" "^1.3.0" "1.3.0");
    [reflexivity|by repeat constructor|apply list_elem_of_here|reflexivity
    |discriminate|discriminate|reflexivity|reflexivity].
Defined.

(** X4.  When the comparison of two caret ranges with the same major
    version meets a component that does not start with a number (as in
    [^1.x]), the comparator returns [NaN] and the requested range wins,
    in whichever order the two ranges come. *)
Theorem areRangesCompatible_non_numeric_component existing requested i :
  startsWith "^" existing = true → startsWith "^" requested = true →
  existing ≠ requested →
  same_major existing requested →
  (i < length (range_parts existing) `max` length (range_parts requested))%nat →
  (∀ j, (j < i)%nat →
        strict_neq (parseInt (default "0" (range_parts existing !! j)))
                   (parseInt (default "0" (range_parts requested !! j)))
        = false) →
  parseInt (default "0" (range_parts existing !! i)) = NaN
  ∨ parseInt (default "0" (range_parts requested !! i)) = NaN →
  compareVersionParts (range_parts existing) (range_parts requested) = NaN
  ∧ areRangesCompatible existing requested
    = {| compatible := true; resolved := requested |}
  ∧ areRangesCompatible requested existing
    = {| compatible := true; resolved := existing |}.
Proof.
  intros He Hr Hne Hsame Hi Hbefore Hnan.
  assert (compareVersionParts (range_parts existing) (range_parts requested)
          = NaN) as Hcmp.
  { unfold compareVersionParts.
    apply (compareVersionParts_from_NaN _ 0 i); [lia| |done].
    intros j Hj. apply Hbefore. lia. }
  split; [done|].
  pose proof Hcmp as Hcmp'. apply compareVersionParts_NaN_sym in Hcmp'.
  unfold same_major, range_parts in *.
  unfold areRangesCompatible.
  rewrite (bool_decide_eq_false_2 (existing = requested)) by done.
  rewrite (bool_decide_eq_false_2 (requested = existing)) by done.
  rewrite He, Hr. simpl.
  rewrite (bool_decide_eq_true_2 _ Hsame).
  rewrite (bool_decide_eq_true_2 _ (eq_sym Hsame)). simpl.
  by rewrite Hcmp, Hcmp'.
Qed.

(** [^1.x] against [^1.2]: the requested one is kept, both ways. *)
Lemma areRangesCompatible_non_numeric_component_witness :
  areRangesCompatible "^1.x" "^1.2"
  = {| compatible := true; resolved := "^1.2" |}
  ∧ areRangesCompatible "^1.2" "^1.x"
    = {| compatible := true; resolved := "^1.x" |}.
Proof.
  apply (areRangesCompatible_non_numeric_component "^1.x" "^1.2" 1);
    [reflexivity|reflexivity|discriminate|reflexivity|vm_compute; lia| |by left].
  intros j Hj. assert (j = 0%nat) as -> by lia. reflexivity.
Defined.

End more_ranges.

(** ** More on the npm dependency merger *)

Section more_npm.
Import Versions Structured Policy.

Lemma areRangesCompatible_cases e r :
  resolved (areRangesCompatible e r) = e ∨ resolved (areRangesCompatible e r) = r.
Proof. unfold areRangesCompatible. repeat case_match; simpl; auto. Qed.

Lemma npm_resolution_Ret deps dev name version r :
  npm_resolution deps dev name version = Ret r →
  r = version
  ∨ (lookup_existing deps dev name = Some (Own r) ∧ r ≠ "" ∧ r ≠ version
     ∧ areRangesCompatible r version = {| compatible := true; resolved := r |}).
Proof.
  unfold npm_resolution.
  destruct (lookup_existing deps dev name) as [[e|]|];
    [|done|intros [= <-]; by left].
  destruct (truthy_string e) eqn:Ht; simpl; [|intros [= <-]; by left].
  case_bool_decide as He; simpl; [intros [= <-]; by left|].
  destruct (compatible (areRangesCompatible e version)) eqn:Hc; simpl; [|done].
  intros [= <-].
  destruct (areRangesCompatible_cases e version) as [Hr|Hr]; [|by left].
  right. rewrite Hr. split; [done|]. split.
  - intros ->. done.
  - split; [done|]. destruct (areRangesCompatible e version). simpl in *.
    by subst.
Qed.

Lemma Object_fromEntries_NoDup {A} (l : list (string * A)) :
  NoDup (Object_fromEntries l).*1.
Proof.
  unfold Object_fromEntries.
  assert (∀ acc : obj A, NoDup acc.*1 →
            NoDup (fold_left (λ o kv, obj_set kv.1 kv.2 o) l acc).*1) as Hgen.
  { induction l as [|[k v] l IH]; intros acc Hacc; simpl; [done|].
    apply IH. by apply obj_set_NoDup. }
  apply Hgen. constructor.
Qed.

Lemma sort_keys_NoDup `{Host} {A} (o : obj A) : NoDup (sort_keys o).*1.
Proof. apply Object_fromEntries_NoDup. Qed.

(** X5.  A successful npm merge touches the dependencies of the added
    names only: a name that is not among the additions keeps its range
    (or stays absent), every added name is in dependencies afterwards, a
    name that was in neither section gets exactly the requested range,
    and the other fields of the manifest are kept. *)
Theorem mergeNpm_document_frame `{Host} pkg newDeps pkg' :
  wf_PackageJson pkg = true → wf_obj newDeps = true →
  mergeNpm_document pkg newDeps = Ret pkg' →
  (∀ k, k ∉ newDeps.*1 →
        dependencies pkg' ≫= (λ d, obj_get d k)
        = obj_get (default [] (dependencies pkg)) k)
  ∧ (∀ name version, (name, version) ∈ newDeps →
        is_Some (dependencies pkg' ≫= (λ d, obj_get d name)))
  ∧ (∀ name version, (name, version) ∈ newDeps →
        lookup_existing (default [] (dependencies pkg)) (devDependencies pkg)
          name = None →
        dependencies pkg' ≫= (λ d, obj_get d name) = Some version)
  ∧ pkg_other pkg' = pkg_other pkg.
Proof.
  intros [Hdeps%wf_obj_NoDup Hdev%wf_obj_NoDup]%andb_true_iff
         Hnew%wf_obj_NoDup.
  rewrite mergeNpm_document_loop.
  destruct (mergeNpm_loop _ _ _) as [deps1|] eqn:Hloop; [|done].
  intros [= <-]. simpl.
  destruct (mergeNpm_loop_Ret _ _ _ _ Hnew Hloop) as (Hin & Hout & Hnd).
  split; [|split; [|split]]; [| | |done].
  - intros k Hk. rewrite sort_keys_get by auto. by apply Hout.
  - intros name version Hmem. rewrite sort_keys_get by auto.
    destruct (Hin _ _ Hmem) as (r & _ & ->). by eexists.
  - intros name version Hmem Hnone. rewrite sort_keys_get by auto.
    destruct (Hin _ _ Hmem) as (r & Hr & ->).
    unfold npm_resolution in Hr. rewrite Hnone in Hr. by injection Hr as <-.
Qed.

(** A manifest with [react]; [zod] is added, [react] is left alone. *)
Lemma mergeNpm_document_frame_witness :
  let pkg := {| dependencies := Some [("react", "^18.0.0")];
                devDependencies := None; pkg_other := [] |} in
  let host := sample_host pkg None empty_LanggraphJson in
  ∃ pkg', @mergeNpm_document host pkg [("zod", "^3.0.0")] = Ret pkg'
    ∧ dependencies pkg' ≫= (λ d, obj_get d "react") = Some "^18.0.0"
    ∧ dependencies pkg' ≫= (λ d, obj_get d "zod") = Some "^3.0.0".
Proof.
  intros pkg host.
  destruct (@mergeNpm_document host pkg [("zod", "^3.0.0")]) as [pkg'|e] eqn:Hdoc;
    [|vm_compute in Hdoc; discriminate Hdoc].
  exists pkg'. split; [reflexivity|].
  destruct (@mergeNpm_document_frame host pkg [("zod", "^3.0.0")] pkg'
              eq_refl eq_refl Hdoc) as (Hframe & _ & Hadd & _).
  split.
  - rewrite (Hframe "react"); [reflexivity|].
    simpl. intros Hin. apply list_elem_of_singleton in Hin. discriminate Hin.
  - apply (Hadd "zod" "^3.0.0"); [apply list_elem_of_here|reflexivity].
Defined.

(** X6.  Merging the same additions a second time changes no range:
    after a successful merge, the merge of the same additions into the
    result succeeds too and gives the same bindings in both sections. *)
Theorem mergeNpm_document_idempotent `{Host} pkg newDeps pkg' :
  wf_PackageJson pkg = true → wf_obj newDeps = true →
  mergeNpm_document pkg newDeps = Ret pkg' →
  ∃ pkg'', mergeNpm_document pkg' newDeps = Ret pkg''
    ∧ (∀ k, dependencies pkg'' ≫= (λ d, obj_get d k)
            = dependencies pkg' ≫= (λ d, obj_get d k))
    ∧ (∀ k, devDependencies pkg'' ≫= (λ d, obj_get d k)
            = devDependencies pkg' ≫= (λ d, obj_get d k)).
Proof.
  intros [Hdeps%wf_obj_NoDup Hdev%wf_obj_NoDup]%andb_true_iff
         Hnew%wf_obj_NoDup.
  rewrite mergeNpm_document_loop.
  destruct (mergeNpm_loop _ _ _) as [d1|] eqn:Hloop; [|done].
  intros [= <-].
  destruct (mergeNpm_loop_Ret _ _ _ _ Hnew Hloop) as (Hin & Hout & Hnd).
  specialize (Hnd Hdeps).
  rewrite mergeNpm_document_loop. simpl.
  set (s1 := sort_keys d1). set (dev' := sort_keys <$> devDependencies pkg).
  assert (∀ k, obj_get s1 k = obj_get d1 k) as Hs1.
  { intros k. by apply sort_keys_get. }
  assert (∀ name version, (name, version) ∈ newDeps →
            ∃ r, obj_get s1 name = Some r
                 ∧ npm_resolution s1 dev' name version = Ret r) as Hres.
  { intros name version Hmem.
    destruct (Hin _ _ Hmem) as (r & Hr & Hget).
    exists r. rewrite Hs1. split; [done|].
    unfold npm_resolution, lookup_existing, js_get. rewrite Hs1, Hget.
    destruct (npm_resolution_Ret _ _ _ _ _ Hr)
      as [->|(_ & Htruthy & Hne & Hcompat)].
    - rewrite bool_decide_eq_true_2 by done. by rewrite andb_false_r.
    - rewrite truthy_string_ne by done.
      rewrite bool_decide_eq_false_2 by done. simpl. by rewrite Hcompat. }
  destruct (mergeNpm_loop_all_Ret dev' newDeps s1 Hnew) as [d2 Hloop2].
  { apply Forall_forall. intros [n v] Hmem. simpl.
    destruct (Hres _ _ Hmem) as (r & _ & ->). done. }
  rewrite Hloop2. simpl. eexists. split; [done|]. simpl.
  destruct (mergeNpm_loop_Ret _ _ _ _ Hnew Hloop2) as (Hin2 & Hout2 & Hnd2).
  split.
  - intros k. rewrite sort_keys_get by (apply Hnd2, sort_keys_NoDup).
    destruct (decide (k ∈ newDeps.*1)) as [Hk|Hk]; [|by apply Hout2].
    apply list_elem_of_fmap in Hk as ([n v] & -> & Hmem). simpl.
    destruct (Hin2 _ _ Hmem) as (r2 & Hr2 & ->).
    destruct (Hres _ _ Hmem) as (r & -> & Hr). congruence.
  - intros k. subst dev'. destruct (devDependencies pkg) as [d|]; simpl; [|done].
    apply sort_keys_get, sort_keys_NoDup.
Qed.

(** [^1.2.0] met by [^1.5.0] gives [^1.5.0]; once more gives [^1.5.0]. *)
Lemma mergeNpm_document_idempotent_witness :
  let pkg := {| dependencies := Some [("pkg", "^1.2.0")];
                devDependencies := None; pkg_other := [] |} in
  let host := sample_host pkg None empty_LanggraphJson in
  ∃ pkg' pkg'',
    @mergeNpm_document host pkg [("pkg", "^1.5.0")] = Ret pkg'
    ∧ @mergeNpm_document host pkg' [("pkg", "^1.5.0")] = Ret pkg''
    ∧ dependencies pkg'' ≫= (λ d, obj_get d "pkg")
      = dependencies pkg' ≫= (λ d, obj_get d "pkg").
Proof.
  intros pkg host.
  destruct (@mergeNpm_document host pkg [("pkg", "^1.5.0")]) as [pkg'|e] eqn:Hdoc;
    [|vm_compute in Hdoc; discriminate Hdoc].
  destruct (@mergeNpm_document_idempotent host pkg [("pkg", "^1.5.0")] pkg'
              eq_refl eq_refl Hdoc) as (pkg'' & Hdoc' & Hsame & _).
  exists pkg', pkg''. split; [reflexivity|]. split; [exact Hdoc'|apply Hsame].
Defined.

Lemma fold_obj_set_fresh {A} (l acc : list (string * A)) :
  Forall (λ kv, array_index kv.1 = None) l →
  NoDup (acc ++ l).*1 →
  fold_left (λ o kv, obj_set kv.1 kv.2 o) l acc = acc ++ l.
Proof.
  intros Hplain. revert acc.
  induction Hplain as [|[k v] l Hk Hplain IH]; intros acc Hnd; simpl.
  - by rewrite app_nil_r.
  - rewrite obj_set_fresh; [|done|].
    + rewrite IH; rewrite <- app_assoc; done.
    + rewrite fmap_app, fmap_cons in Hnd. apply NoDup_app in Hnd as (_ & Hd & _).
      intros Hin. apply (Hd _ Hin). by left.
Qed.

(** With distinct keys, none of them an array index, rebuilding an
    object from its entries keeps their order. *)
Lemma Object_fromEntries_id {A} (l : list (string * A)) :
  Forall (λ kv, array_index kv.1 = None) l →
  NoDup l.*1 → Object_fromEntries l = l.
Proof.
  intros Hplain Hnd. unfold Object_fromEntries. by rewrite fold_obj_set_fresh.
Qed.

(** The keys the loop leaves are keys of the section or of the additions. *)
Lemma mergeNpm_loop_keys (P : string → Prop) dev entries deps deps' :
  Forall (λ kv, P kv.1) deps → Forall (λ kv, P kv.1) entries →
  mergeNpm_loop dev entries deps = Ret deps' →
  Forall (λ kv, P kv.1) deps'.
Proof.
  intros Hdeps Hentries. revert deps Hdeps.
  induction Hentries as [|[n v] rest Hn _ IH]; intros deps Hdeps.
  - by intros [= <-].
  - rewrite mergeNpm_loop_cons.
    destruct (npm_resolution deps dev n v) as [r|]; [|done]. simpl.
    apply IH. by apply obj_set_Forall.
Qed.

Lemma sort_insert_sorted {B} (cmp : B → B → Z) (x : B) (l : list B) :
  (∀ a b, (cmp a b ≤ 0)%Z ∨ (cmp b a ≤ 0)%Z) →
  (∀ a b c, (cmp a b ≤ 0)%Z → (cmp b c ≤ 0)%Z → (cmp a c ≤ 0)%Z) →
  StronglySorted (λ a b, (cmp a b ≤ 0)%Z) l →
  StronglySorted (λ a b, (cmp a b ≤ 0)%Z) (sort_insert cmp x l).
Proof.
  intros Htotal Htrans. induction 1 as [|y l Hsorted IH Hall]; simpl.
  - by repeat constructor.
  - destruct (Z.leb_spec (cmp x y) 0) as [Hle|Hgt].
    + constructor; [by constructor|]. constructor; [done|].
      eapply Forall_impl; [exact Hall|]. intros z Hz. by eapply Htrans.
    + constructor; [done|]. rewrite sort_insert_Permutation.
      constructor; [|done]. destruct (Htotal x y); [lia|done].
Qed.

Lemma Array_sort_sorted {B} (cmp : B → B → Z) (l : list B) :
  (∀ a b, (cmp a b ≤ 0)%Z ∨ (cmp b a ≤ 0)%Z) →
  (∀ a b c, (cmp a b ≤ 0)%Z → (cmp b c ≤ 0)%Z → (cmp a c ≤ 0)%Z) →
  StronglySorted (λ a b, (cmp a b ≤ 0)%Z) (Array_sort cmp l).
Proof.
  intros Htotal Htrans. induction l as [|x l IH]; simpl; [constructor|].
  by apply sort_insert_sorted.
Qed.

Lemma sort_keys_sorted `{Host} {A} (o : obj A) :
  (∀ a b, (localeCompare a b ≤ 0)%Z ∨ (localeCompare b a ≤ 0)%Z) →
  (∀ a b c, (localeCompare a b ≤ 0)%Z → (localeCompare b c ≤ 0)%Z →
            (localeCompare a c ≤ 0)%Z) →
  Forall (λ kv, array_index kv.1 = None) o →
  NoDup o.*1 →
  sort_keys o ≡ₚ o
  ∧ StronglySorted (λ a b, (localeCompare a b ≤ 0)%Z) (sort_keys o).*1.
Proof.
  intros Htotal Htrans Hplain Hnd. unfold sort_keys, Object_entries.
  set (cmp := λ a b : string * A, localeCompare a.1 b.1).
  pose proof (Array_sort_Permutation cmp o) as Hp.
  rewrite Object_fromEntries_id by by rewrite Hp.
  split; [done|].
  assert (StronglySorted (λ a b, (cmp a b ≤ 0)%Z) (Array_sort cmp o)) as Hs.
  { apply Array_sort_sorted; subst cmp; simpl; eauto. }
  clear Hp. induction Hs as [|x l Hs IH Hall]; simpl; [constructor|].
  constructor; [exact IH|].
  apply Forall_fmap. eapply Forall_impl; [exact Hall|]. done.
Qed.

(** X7.  When the host's collation is a total preorder and no package
    name is an array index (a name such as [9], which an object lists
    first whatever the order of creation), a successful npm merge
    writes both sections with their names in ascending order of that
    collation, each name once. *)
Theorem mergeNpm_document_sorted `{Host} pkg newDeps pkg' :
  (∀ a b, (localeCompare a b ≤ 0)%Z ∨ (localeCompare b a ≤ 0)%Z) →
  (∀ a b c, (localeCompare a b ≤ 0)%Z → (localeCompare b c ≤ 0)%Z →
            (localeCompare a c ≤ 0)%Z) →
  wf_PackageJson pkg = true → wf_obj newDeps = true →
  Forall (λ kv, array_index kv.1 = None) (default [] (dependencies pkg)) →
  Forall (λ kv, array_index kv.1 = None) (default [] (devDependencies pkg)) →
  Forall (λ kv, array_index kv.1 = None) newDeps →
  mergeNpm_document pkg newDeps = Ret pkg' →
  (∃ deps', dependencies pkg' = Some deps'
     ∧ NoDup deps'.*1
     ∧ StronglySorted (λ a b, (localeCompare a b ≤ 0)%Z) deps'.*1)
  ∧ (∀ dev, devDependencies pkg = Some dev →
       ∃ dev', devDependencies pkg' = Some dev'
         ∧ dev' ≡ₚ dev
         ∧ StronglySorted (λ a b, (localeCompare a b ≤ 0)%Z) dev'.*1).
Proof.
  intros Htotal Htrans
         [Hdeps%wf_obj_NoDup Hdev%wf_obj_NoDup]%andb_true_iff
         Hnew%wf_obj_NoDup Hpdeps Hpdev Hpnew.
  rewrite mergeNpm_document_loop.
  destruct (mergeNpm_loop _ _ _) as [d1|] eqn:Hloop; [|done].
  intros [= <-]. simpl.
  destruct (mergeNpm_loop_Ret _ _ _ _ Hnew Hloop) as (_ & _ & Hnd).
  pose proof (mergeNpm_loop_keys (λ k, array_index k = None) _ _ _ _
                Hpdeps Hpnew Hloop) as Hp1.
  split.
  - eexists. split; [done|]. split; [apply sort_keys_NoDup|].
    by apply sort_keys_sorted; auto.
  - intros dev Hd. rewrite Hd in *. simpl in *.
    eexists. split; [done|]. by apply sort_keys_sorted.
Qed.

Lemma code_order_le a b : (code_order a b ≤ 0)%Z ↔ String.le a b.
Proof.
  unfold code_order, String.le, String.leb.
  destruct (String.compare a b); simpl; split; try done; lia.
Qed.

(** Collation by character code: [zod] was first, [react] is added and
    comes first in the result. *)
Lemma mergeNpm_document_sorted_witness :
  let pkg := {| dependencies := Some [("zod", "^3.0.0")];
                devDependencies := None; pkg_other := [] |} in
  let host := sample_host pkg None empty_LanggraphJson in
  ∃ pkg' deps',
    @mergeNpm_document host pkg [("react", "^18.0.0")] = Ret pkg'
    ∧ dependencies pkg' = Some deps'
    ∧ StronglySorted (λ a b, (code_order a b ≤ 0)%Z) deps'.*1.
Proof.
  intros pkg host.
  destruct (@mergeNpm_document host pkg [("react", "^18.0.0")])
    as [pkg'|e] eqn:Hdoc; [|vm_compute in Hdoc; discriminate Hdoc].
  destruct (@mergeNpm_document_sorted host pkg [("react", "^18.0.0")] pkg')
    as [(deps' & Hd & _ & Hsorted) _];
    [| |reflexivity|reflexivity|by repeat constructor|by repeat constructor
     |by repeat constructor|exact Hdoc|].
  - intros a b. simpl. rewrite !code_order_le. apply String.le_total.
  - intros a b c. simpl. rewrite !code_order_le. apply transitivity.
  - exists pkg', deps'. split; [reflexivity|]. split; [exact Hd|exact Hsorted].
Defined.

End more_npm.

(** ** More on the env-file merger *)

Section more_env.
Import Structured Policy.

Lemma split_no_sep c s :
  existsb (λ a, bool_decide (a = c)) (list_ascii_of_string s) = false →
  split c s = [s].
Proof.
  induction s as [|a s IH]; simpl; [done|].
  intros [Ha Hs]%orb_false_iff. rewrite Ha, IH by done. done.
Qed.

Lemma ident_char_not_LF c : is_ident_char c = true → bool_decide (c = LF) = false.
Proof.
  intros Hc. apply bool_decide_eq_false. intros ->. by vm_compute in Hc.
Qed.

Lemma ident_start_char c : is_ident_start c = true → is_ident_char c = true.
Proof.
  unfold is_ident_start, is_ident_char.
  intros [->| ->]%orb_true_iff; [done|by rewrite orb_true_r].
Qed.

Lemma identifier_line_free k :
  is_identifier k = true →
  existsb (λ a, bool_decide (a = LF)) (list_ascii_of_string (k +:+ "=")) = false.
Proof.
  destruct k as [|c k]; [done|]. unfold is_identifier.
  intros [Hc%ident_start_char Hk]%andb_true_iff.
  change (String c k +:+ "=") with (String c (k +:+ "=")). simpl.
  rewrite (ident_char_not_LF c Hc). simpl.
  induction k as [|a k IH]; [done|]. simpl in Hk.
  apply andb_true_iff in Hk as [Ha Hk].
  change (String a k +:+ "=") with (String a (k +:+ "=")). simpl.
  by rewrite (ident_char_not_LF a Ha), IH.
Qed.

(** Every identifier of the section has its line in it. *)
Lemma env_section_body_lines (newVars : list string) v :
  Forall (λ v, is_identifier v = true) newVars →
  v ∈ newVars →
  (v +:+ "=") ∈ split LF
    (fold_right (λ v rest, v +:+ "=" +:+ nl +:+ rest) "" newVars).
Proof.
  induction 1 as [|x l Hx _ IH]; [by intros ?%elem_of_nil|].
  simpl. rewrite <- string_app_assoc. unfold nl. rewrite string_app_cons.
  change ("" +:+ fold_right (λ v rest, v +:+ "=" +:+ String LF "" +:+ rest) "" l)
    with (fold_right (λ v rest, v +:+ "=" +:+ String LF "" +:+ rest) "" l).
  rewrite split_app, (split_no_sep LF (x +:+ "=")) by by apply identifier_line_free.
  intros [->|Hin]%elem_of_cons; [by left|]. right. by apply IH.
Qed.

Lemma env_defines_after content (newVars : list string) v :
  Forall (λ v, is_identifier v = true) newVars →
  is_identifier v = true →
  env_defines content v = true ∨ v ∈ newVars →
  env_defines (content +:+ line_end content +:+ env_section newVars) v = true.
Proof.
  intros Hids Hv Hcase. unfold env_defines in *. rewrite Hv in *. simpl in *.
  apply existsb_exists. destruct Hcase as [Hdef|Hnew].
  - apply existsb_exists in Hdef as (line & Hin & Hpre).
    exists line. split; [|done]. apply list_elem_of_In.
    apply list_elem_of_In in Hin.
    destruct (env_lines_preserved content newVars) as [k ->].
    apply elem_of_app. by left.
  - exists (v +:+ "="). split.
    + apply list_elem_of_In. unfold env_section, nl.
      rewrite <- (string_app_assoc content), string_app_cons.
      rewrite split_app. apply elem_of_app. right.
      change ("" +:+ "# Added by skill" +:+ String LF "" +:+
              fold_right (λ v rest, v +:+ "=" +:+ String LF "" +:+ rest) "" newVars)
        with ("# Added by skill" +:+ String LF
                (fold_right (λ v rest, v +:+ "=" +:+ String LF "" +:+ rest)
                            "" newVars)).
      rewrite split_app. apply elem_of_app. right.
      by apply env_section_body_lines.
    + apply startsWith_app. exists "". by rewrite string_app_nil_r.
Qed.

Lemma filter_none {A} (P : A → Prop) `{∀ x, Decision (P x)} (l : list A) :
  Forall (λ x, ¬ P x) l → filter P l = [].
Proof.
  induction 1 as [|x l Hx _ IH]; [done|].
  by rewrite filter_cons_False.
Qed.

(** X8.  When the additions are identifiers, merging them a second time
    writes nothing: the file the first merge leaves defines them all. *)
Theorem mergeEnvAdditions_idempotent (σ : fs) p (additions : list string) :
  Forall (λ v, is_identifier v = true) additions →
  let σ' := (mergeEnvAdditions p additions σ).2 in
  mergeEnvAdditions p additions σ' = (Ret tt, σ').
Proof.
  intros Hids σ'. subst σ'. rewrite (mergeEnvAdditions_run σ). simpl.
  set (content := default "" (σ !! p)).
  set (newVars := filter (λ v, env_defines content v = false) additions).
  destruct newVars as [|x l] eqn:Hnew.
  - rewrite mergeEnvAdditions_run. fold content. fold newVars.
    by rewrite Hnew.
  - rewrite mergeEnvAdditions_run. rewrite lookup_insert_eq. simpl.
    rewrite <- Hnew.
    assert (filter (λ v, env_defines
                (content +:+ line_end content +:+ env_section newVars) v = false)
              additions = []) as ->; [|done].
    apply filter_none. apply Forall_forall. intros v Hv.
    rewrite Forall_forall in Hids.
    rewrite env_defines_after; [done| |by apply Hids|].
    + apply Forall_forall. intros w [_ Hw]%list_elem_of_filter. by apply Hids.
    + destruct (env_defines content v) eqn:Hd; [by left|right].
      by apply list_elem_of_filter.
Qed.

(** Two identifiers into a file that defines one of them: the second
    merge leaves the file of the first. *)
Lemma mergeEnvAdditions_idempotent_witness :
  let σ : fs := {[".env.example" := env_example]} in
  let σ' := (mergeEnvAdditions ".env.example" ["API_KEY"; "DB_URL"] σ).2 in
  mergeEnvAdditions ".env.example" ["API_KEY"; "DB_URL"] σ' = (Ret tt, σ').
Proof.
  intros σ.
  apply (mergeEnvAdditions_idempotent σ ".env.example" ["API_KEY"; "DB_URL"]).
  repeat constructor.
Defined.

(** X9.  An addition that is not an identifier (it has a dash or a dot,
    or starts with a digit) is never recognised in the file: it is
    appended on every merge, whatever the file contains. *)
Theorem mergeEnvAdditions_non_identifier (σ : fs) p (additions : list string) v :
  v ∈ additions → is_identifier v = false →
  let content := default "" (σ !! p) in
  let newVars := filter (λ v, env_defines content v = false) additions in
  v ∈ newVars
  ∧ mergeEnvAdditions p additions σ
    = (Ret tt,
       <[p := content +:+ line_end content +:+ env_section newVars]> σ).
Proof.
  intros Hv Hid content newVars.
  assert (v ∈ newVars) as Hin.
  { apply list_elem_of_filter. split; [|done].
    unfold env_defines. by rewrite Hid. }
  split; [done|]. rewrite mergeEnvAdditions_run. fold content. fold newVars.
  destruct newVars; [by apply elem_of_nil in Hin|done].
Qed.

(** [MY-KEY] is added again to a file that already has a line for it. *)
Lemma mergeEnvAdditions_non_identifier_witness :
  let σ : fs := {[".env.example" := "MY-KEY=1"]} in
  mergeEnvAdditions ".env.example" ["MY-KEY"] σ
  = (Ret tt,
     <[".env.example" :=
         "MY-KEY=1" +:+ nl +:+ nl +:+ "# Added by skill" +:+ nl
         +:+ "MY-KEY=" +:+ nl]> σ).
Proof.
  intros σ.
  destruct (mergeEnvAdditions_non_identifier σ ".env.example" ["MY-KEY"]
              "MY-KEY" (list_elem_of_here _ _) eq_refl) as [_ Hrun].
  exact Hrun.
Defined.

End more_env.

(** ** Decimal numerals *)

Section numerals.
Import Versions.

Lemma pretty_N_char_digit x :
  (x < 10)%N → digit_val (pretty_N_char x) = Some (Z.of_N x).
Proof.
  intros Hx.
  assert (x = 0 ∨ x = 1 ∨ x = 2 ∨ x = 3 ∨ x = 4 ∨ x = 5 ∨ x = 6 ∨ x = 7
          ∨ x = 8 ∨ x = 9)%N as Hcases by lia.
  destruct_or!; subst; reflexivity.
Qed.

(** The printer of natural numbers writes digits, and they denote the
    number. *)
Lemma pretty_N_go_decimal x s :
  forallb is_digit (list_ascii_of_string s) = true →
  forallb is_digit (list_ascii_of_string (pretty_N_go x s)) = true
  ∧ decimal_from 0 (pretty_N_go x s) = decimal_from (Z.of_N x) s
  ∧ (s ≠ "" → pretty_N_go x s ≠ "").
Proof.
  revert s. induction (N.lt_wf_0 x) as [x _ IH]. intros s Hs.
  destruct (decide (x = 0)%N) as [->|Hx].
  - by rewrite pretty_N_go_0.
  - rewrite pretty_N_go_step by lia.
    assert (x `mod` 10 < 10)%N as Hmod by (apply N.mod_lt; lia).
    pose proof (pretty_N_char_digit _ Hmod) as Hd.
    destruct (IH (x `div` 10)%N) with
      (s := String (pretty_N_char (x `mod` 10)) s) as (Hall & Hval & Hne).
    + apply N.div_lt; lia.
    + simpl. rewrite Hs, andb_true_r. unfold is_digit.
      apply bool_decide_eq_true. rewrite Hd. by eexists.
    + split; [done|]. split; [|intros _; by apply Hne].
      rewrite Hval. simpl. rewrite Hd. simpl. f_equal.
      rewrite (N.div_mod x 10) at 3 by lia. lia.
Qed.

Lemma pretty_N_digits1 x :
  is_digits1 (pretty x) = true ∧ decimal_value (pretty x) = Z.of_N x.
Proof.
  unfold pretty, pretty_N. destruct (decide (x = 0)%N) as [->|Hx]; [done|].
  rewrite pretty_N_go_step by lia.
  destruct (pretty_N_go_decimal (x `div` 10)
              (String (pretty_N_char (x `mod` 10)) "")) as (Hall & Hval & Hne).
  { simpl. rewrite andb_true_r. unfold is_digit. apply bool_decide_eq_true.
    rewrite pretty_N_char_digit by (apply N.mod_lt; lia). by eexists. }
  split.
  - unfold is_digits1. rewrite Hall, andb_true_r.
    unfold truthy_string. apply negb_true_iff, bool_decide_eq_false.
    by apply Hne.
  - unfold decimal_value. rewrite Hval. simpl.
    rewrite pretty_N_char_digit by (apply N.mod_lt; lia). simpl.
    rewrite (N.div_mod x 10) at 3 by lia. lia.
Qed.

(** [parseInt(String(n))] is [n] for a natural number [n]. *)
Lemma parseInt_pretty_nonneg (z : Z) :
  (0 ≤ z)%Z → parseInt (pretty z) = Num z.
Proof.
  intros Hz. destruct z as [|p|p]; [done| |lia].
  change (pretty (Z.pos p)) with (pretty (N.pos p)).
  destruct (pretty_N_digits1 (N.pos p)) as [Hd Hv].
  rewrite parseInt_digits1 by done. by rewrite Hv.
Qed.

Lemma digits_no_colon s :
  forallb is_digit (list_ascii_of_string s) = true →
  Policy.has_colon s = false.
Proof.
  unfold Policy.has_colon. induction s as [|c s IH]; [done|]. simpl.
  intros [Hc Hs]%andb_true_iff. rewrite IH by done.
  rewrite orb_false_r. apply bool_decide_eq_false. intros ->.
  by vm_compute in Hc.
Qed.

Lemma pretty_Z_no_colon (z : Z) : Policy.has_colon (pretty z) = false.
Proof.
  destruct z as [|p|p]; [done| |].
  - change (pretty (Z.pos p)) with (pretty (N.pos p)).
    destruct (pretty_N_digits1 (N.pos p)) as [[_ Hd]%andb_true_iff _].
    by apply digits_no_colon.
  - change (pretty (Z.neg p)) with ("-" +:+ pretty (N.pos p)).
    destruct (pretty_N_digits1 (N.pos p)) as [[_ Hd]%andb_true_iff _].
    change ("-" +:+ pretty (N.pos p)) with (String "-" (pretty (N.pos p))).
    unfold Policy.has_colon. simpl. by apply digits_no_colon.
Qed.

End numerals.

(** ** More on the service-manifest merger *)

Section more_compose.
Import Structured Policy.

Lemma collect_used_null entries used n :
  (n, VNull) ∈ entries → collect_used entries used = Throw TypeError.
Proof.
  revert used. induction entries as [|[k svc] rest IH]; intros used Hin;
    [by apply elem_of_nil in Hin|].
  apply elem_of_cons in Hin as [[= <- <-]|Hin]; [done|].
  simpl. destruct (get_ports svc) as [ports|e] eqn:Hports; simpl.
  - repeat case_match; by apply IH.
  - destruct svc; by simplify_eq/=.
Qed.

Lemma collect_used_Ret entries used :
  Forall (λ kv, kv.2 ≠ VNull) entries →
  ∃ used', collect_used entries used = Ret used'.
Proof.
  intros Hall. revert used.
  induction Hall as [|[k svc] rest Hsvc _ IH]; intros used; [by eexists|].
  simpl in *. destruct svc; simpl; try done; try apply IH.
  repeat case_match; apply IH.
Qed.

(** X10.  An existing service whose definition is null (a bare
    [name:] in the YAML) makes every merge throw a [TypeError], before
    anything is added: the first pass reads [ports] of null. *)
Theorem mergeCompose_document_null_service compose newServices n :
  (n, VNull) ∈ default [] (services compose) →
  mergeCompose_document compose newServices = Throw TypeError.
Proof.
  intros Hin. unfold mergeCompose_document, Object_entries.
  by rewrite (collect_used_null _ _ n Hin).
Qed.

Lemma mergeCompose_document_null_service_witness :
  mergeCompose_document
    {| version := None; services := Some [("db", VNull)]; compose_other := [] |}
    [("web", service_with_ports ["8000:80"])]
  = Throw TypeError.
Proof.
  apply (mergeCompose_document_null_service _ _ "db"). apply list_elem_of_here.
Defined.

Lemma add_services_existing entries svcs used :
  Forall (λ kv, has_truthy truthy svcs kv.1 = true) entries →
  add_services entries svcs used = Ret svcs.
Proof.
  induction 1 as [|[n d] rest Hn _ IH]; simpl; [done|].
  simpl in Hn. by rewrite Hn.
Qed.

(** X11.  Adding services whose names all exist already (with a
    definition that is not null, empty or zero) changes nothing and
    never throws, whatever ports the additions declare: their ports are
    not looked at. *)
Theorem mergeCompose_document_existing_names compose newServices :
  Forall (λ kv, kv.2 ≠ VNull) (default [] (services compose)) →
  Forall (λ kv, has_truthy truthy (default [] (services compose)) kv.1 = true)
         newServices →
  mergeCompose_document compose newServices
  = Ret {| version := version compose;
           services := Some (default [] (services compose));
           compose_other := compose_other compose |}.
Proof.
  intros Hnull Hexist. unfold mergeCompose_document, Object_entries.
  destruct (collect_used_Ret _ ∅ Hnull) as [used ->]. simpl.
  by rewrite add_services_existing.
Qed.

(** [api] exists on port 8000; adding another [api] on port 8000 is
    accepted and leaves the document as it was. *)
Lemma mergeCompose_document_existing_names_witness :
  mergeCompose_document
    {| version := Some "3";
       services := Some [("api", service_with_ports ["8000:80"])];
       compose_other := [] |}
    [("api", service_with_ports ["8000:9000"])]
  = Ret {| version := Some "3";
           services := Some [("api", service_with_ports ["8000:80"])];
           compose_other := [] |}.
Proof.
  apply (mergeCompose_document_existing_names
           {| version := Some "3";
              services := Some [("api", service_with_ports ["8000:80"])];
              compose_other := [] |}).
  - repeat constructor. discriminate.
  - repeat constructor.
Defined.



(** X13.  A port entry that is not a string or an array never
    collides and reserves nothing: turned into a string, a number (a
    container port alone), a boolean, null and a mapping in the long
    syntax (an object with [published] and [target]) have no colon, so
    no host port as far as the merger is concerned. *)
Theorem check_ports_ignores_non_strings name ports used :
  Forall (λ p, match p with VStr _ | VArr _ => False | _ => True end) ports →
  check_ports name ports used = Ret used
  ∧ collect_ports used ports = used.
Proof.
  intros Hports.
  assert (Forall (λ p, has_colon (String_of p) = false) ports) as Hfree.
  { eapply Forall_impl; [exact Hports|]. intros [| [] |z|s|l|o]; simpl; try done.
    intros _. apply pretty_Z_no_colon. }
  split; [by apply check_ports_colon_free|by apply collect_ports_colon_free].
Qed.

(** Host port 8000 published in the long syntax, and a bare number:
    neither is compared with the used port 8000. *)
Lemma check_ports_ignores_non_strings_witness :
  let long := VObj [("target", VNum 80); ("published", VNum 8000)] in
  check_ports "web" [long; VNum 8000] {["8000"]} = Ret {["8000"]}
  ∧ collect_ports ∅ [long; VNum 8000] = ∅.
Proof.
  intros long. split.
  - apply (check_ports_ignores_non_strings "web" [long; VNum 8000]).
    by repeat constructor.
  - apply (check_ports_ignores_non_strings "web" [long; VNum 8000]).
    by repeat constructor.
Defined.

End more_compose.

(** ** More on the endpoint-registry merger *)

Section more_langgraph.
Import Structured Policy.

Lemma add_graph_get_ne graphs n v k :
  n ≠ k → obj_get (add_graph graphs (n, v)) k = obj_get graphs k.
Proof.
  intros Hne. unfold add_graph. simpl. case_match; [|done].
  by apply obj_get_set_ne.
Qed.

Lemma add_graph_get_eq graphs n v :
  obj_get (add_graph graphs (n, v)) n
  = if has_truthy truthy_string graphs n then obj_get graphs n else Some v.
Proof.
  unfold add_graph. simpl.
  destruct (has_truthy truthy_string graphs n); simpl; [done|].
  apply obj_get_set_eq.
Qed.

(** What the loop over the new graphs leaves under each name. *)
Lemma add_graphs_lookup entries graphs k :
  NoDup entries.*1 →
  obj_get (fold_left add_graph entries graphs) k
  = if has_truthy truthy_string graphs k then obj_get graphs k
    else match obj_get entries k with
         | Some path => Some path
         | None => obj_get graphs k
         end.
Proof.
  revert graphs. induction entries as [|[n v] rest IH]; intros graphs Hnd.
  - simpl. by case_match.
  - rewrite fmap_cons in Hnd. apply NoDup_cons in Hnd as [Hn Hnd].
    cbn [fold_left]. rewrite IH by done. cbn [obj_get].
    destruct (decide (n = k)) as [->|Hne].
    + rewrite bool_decide_eq_true_2 by done.
      rewrite (obj_get_None rest k) by done.
      assert (∀ b : bool, (if b then obj_get (add_graph graphs (k, v)) k
                           else obj_get (add_graph graphs (k, v)) k)
                          = obj_get (add_graph graphs (k, v)) k) as ->
        by by intros [].
      by rewrite add_graph_get_eq.
    + rewrite bool_decide_eq_false_2 by done.
      unfold has_truthy, js_get. by rewrite add_graph_get_ne.
Qed.

(** X14.  After a registry merge every name has: what it had, when the
    merger finds it registered, that is, when its old path is not empty
    or when, without a path of its own, it is the name of a member of
    [Object.prototype] (such a name is never added); otherwise the path
    of the addition of that name, when there is one; otherwise what it
    had.  In particular a name that is neither registered nor added
    stays absent, and the other fields of the registry are kept. *)
Theorem mergeLanggraph_document_lookup langgraph newGraphs k :
  wf_obj newGraphs = true →
  graphs (mergeLanggraph_document langgraph newGraphs) ≫= (λ g, obj_get g k)
  = (if has_truthy truthy_string (default [] (graphs langgraph)) k
     then obj_get (default [] (graphs langgraph)) k
     else match obj_get newGraphs k with
          | Some path => Some path
          | None => obj_get (default [] (graphs langgraph)) k
          end)
  ∧ langgraph_other (mergeLanggraph_document langgraph newGraphs)
    = langgraph_other langgraph.
Proof.
  intros Hnd%wf_obj_NoDup. split; [|done].
  unfold mergeLanggraph_document, Object_entries. simpl.
  by apply add_graphs_lookup.
Qed.

Lemma mergeLanggraph_document_lookup_witness :
  let lg := {| graphs := Some [("main", "graph:graph")]; langgraph_other := [] |} in
  let new := [("main", "new:graph"); ("billing", "graphs.billing:graph")] in
  graphs (mergeLanggraph_document lg new) ≫= (λ g, obj_get g "main")
  = Some "graph:graph"
  ∧ graphs (mergeLanggraph_document lg new) ≫= (λ g, obj_get g "billing")
    = Some "graphs.billing:graph".
Proof.
  intros lg new. split.
  - destruct (mergeLanggraph_document_lookup lg new "main" eq_refl) as [-> _].
    reflexivity.
  - destruct (mergeLanggraph_document_lookup lg new "billing" eq_refl) as [-> _].
    reflexivity.
Defined.

(** X15.  A registry merge is idempotent: merging the same graphs into
    the result gives the result again. *)
Theorem mergeLanggraph_document_idempotent langgraph newGraphs :
  wf_obj newGraphs = true →
  mergeLanggraph_document (mergeLanggraph_document langgraph newGraphs) newGraphs
  = mergeLanggraph_document langgraph newGraphs.
Proof.
  intros Hnd%wf_obj_NoDup.
  unfold mergeLanggraph_document, Object_entries. simpl. f_equal. f_equal.
  set (g1 := fold_left add_graph newGraphs (default [] (graphs langgraph))).
  (* every addition finds its name truthy, or bound to its own path *)
  assert (∀ (entries : list (string * string)) (g : obj string),
            (∀ n v, (n, v) ∈ entries →
                    has_truthy truthy_string g n = true ∨ obj_get g n = Some v) →
            fold_left add_graph entries g = g) as Hfix.
  { induction entries as [|[n v] rest IH]; intros g Hg; simpl; [done|].
    assert (add_graph g (n, v) = g) as ->.
    { unfold add_graph. simpl.
      destruct (Hg n v) as [->|Hget]; [by left|done|].
      case_match; [|done]. by apply obj_set_same. }
    apply IH. intros n' v' Hin. apply (Hg n' v'). by right. }
  apply Hfix. intros n v Hin. subst g1.
  pose proof (add_graphs_lookup newGraphs (default [] (graphs langgraph)) n Hnd)
    as Hlook.
  assert (obj_get newGraphs n = Some v) as Hv by by apply obj_get_elem_of.
  rewrite Hv in Hlook.
  destruct (has_truthy truthy_string (default [] (graphs langgraph)) n) eqn:Ht.
  - left. unfold has_truthy, js_get in *. by rewrite Hlook.
  - by right.
Qed.

Lemma mergeLanggraph_document_idempotent_witness :
  let lg := {| graphs := Some [("main", "graph:graph")]; langgraph_other := [] |} in
  let new := [("main", "new:graph"); ("billing", "graphs.billing:graph")] in
  mergeLanggraph_document (mergeLanggraph_document lg new) new
  = mergeLanggraph_document lg new.
Proof.
  intros lg new. apply (mergeLanggraph_document_idempotent lg new). reflexivity.
Defined.

End more_langgraph.

(** ** More on the Python dependency mergers *)

Section more_python.
Import Versions Structured Policy More.

Lemma pep_char_to_lower c : is_pep_char (to_lower c) = is_pep_char c.
Proof. by destruct c as [[] [] [] [] [] [] [] []]. Qed.

Lemma to_lower_idemp c : to_lower (to_lower c) = to_lower c.
Proof. by destruct c as [[] [] [] [] [] [] [] []]. Qed.

Lemma toLowerCase_idemp s : toLowerCase (toLowerCase s) = toLowerCase s.
Proof. induction s as [|c s IH]; simpl; [done|]. by rewrite to_lower_idemp, IH. Qed.

Lemma span_pep_toLowerCase s :
  span is_pep_char (toLowerCase s)
  = (toLowerCase (span is_pep_char s).1, toLowerCase (span is_pep_char s).2).
Proof.
  induction s as [|c s IH]; simpl; [done|].
  rewrite pep_char_to_lower. destruct (is_pep_char c); [|done].
  rewrite IH. by destruct (span is_pep_char s).
Qed.

(** X16.  Package names are compared without regard to case: the name
    of a specifier is in lower case, and is the name of the specifier
    written in lower case. *)
Theorem parsePepPackageName_case_insensitive dep :
  parsePepPackageName (toLowerCase dep) = parsePepPackageName dep
  ∧ toLowerCase (parsePepPackageName dep) = parsePepPackageName dep.
Proof.
  unfold parsePepPackageName. rewrite span_pep_toLowerCase. simpl.
  destruct (span is_pep_char dep).1 as [|c w] eqn:Hw; simpl.
  - by rewrite !toLowerCase_idemp.
  - by rewrite !to_lower_idemp, !toLowerCase_idemp.
Qed.

(** X17.  The package name of a specifier is its leading run of
    letters, digits, [_] and [-], in lower case: extras in brackets,
    version constraints and markers after it are dropped. *)
Theorem parsePepPackageName_strips_constraints name rest :
  name ≠ "" →
  forallb is_pep_char (list_ascii_of_string name) = true →
  match rest with EmptyString => True | String c _ => is_pep_char c = false end →
  parsePepPackageName (name +:+ rest) = toLowerCase name.
Proof.
  intros Hne Hname Hrest. unfold parsePepPackageName.
  rewrite span_app by done. simpl. by destruct name.
Qed.

Lemma parsePepPackageName_strips_constraints_witness :
  parsePepPackageName "LangChain-Core[all]>=0.3.0" = "langchain-core".
Proof.
  apply (parsePepPackageName_strips_constraints "LangChain-Core" "[all]>=0.3.0");
    [discriminate|reflexivity|reflexivity].
Defined.

Lemma split_version_chars w :
  forallb is_version_char (list_ascii_of_string w) = true →
  Forall (λ c, forallb is_digit (list_ascii_of_string c) = true) (split "." w).
Proof.
  induction w as [|a w IH]; simpl; [by repeat constructor|].
  intros [Ha Hw]%andb_true_iff. specialize (IH Hw).
  case_bool_decide as Hdot; [by constructor|].
  pose proof (split_nonempty "." w) as Hsplit.
  destruct (split "." w) as [|h t]; [done|].
  apply Forall_cons in IH as [Hh Ht]. constructor; [|done]. simpl.
  rewrite Hh, andb_true_r. unfold is_version_char in Ha.
  apply orb_true_iff in Ha as [Ha|Ha]; [done|].
  by apply bool_decide_eq_true in Ha.
Qed.

Lemma match_min_version_chars s w :
  match_min_version s = Some w →
  forallb is_version_char (list_ascii_of_string w) = true.
Proof.
  induction s as [|c s IH]; simpl; [done|].
  case_bool_decide; [|done].
  unfold version_after_gt.
  destruct (span is_version_char _) as [w' r] eqn:Hspan. simpl.
  destruct w' as [|a w']; [done|]. intros [= <-].
  by destruct (span_spec _ _ _ _ Hspan) as (_ & Hw & _).
Qed.

Lemma Number_digits c :
  forallb is_digit (list_ascii_of_string c) = true →
  Number c = Num (decimal_value c).
Proof.
  intros Hc. destruct c as [|a c]; [done|].
  unfold Number. rewrite Hc.
  rewrite digits_prefix_digits1; [done|]. unfold is_digits1. by rewrite Hc.
Qed.

Lemma decimal_value_nonneg c : (0 ≤ decimal_value c)%Z.
Proof. by apply decimal_from_nonneg. Qed.

(** Through [Number] and [String] a run of digits becomes the numeral
    of the number it denotes. *)
Lemma normalised_components (cs : list string) :
  Forall (λ c, forallb is_digit (list_ascii_of_string c) = true) cs →
  Forall (λ c, is_digits1 c = true)
         (map String_of_number (map Number cs))
  ∧ map decimal_value (map String_of_number (map Number cs))
    = map decimal_value cs.
Proof.
  induction 1 as [|c cs Hc _ [IH1 IH2]]; simpl; [done|].
  rewrite (Number_digits c Hc). simpl.
  pose proof (decimal_value_nonneg c) as Hnn.
  assert (is_digits1 (pretty (decimal_value c)) = true
          ∧ decimal_value (pretty (decimal_value c)) = decimal_value c)
    as [Hd Hv].
  { destruct (decimal_value c) as [|p|p] eqn:Hz; [done| |lia].
    change (pretty (Z.pos p)) with (pretty (N.pos p)).
    apply pretty_N_digits1. }
  split; [by constructor|]. by rewrite Hv, IH2.
Qed.

(** The higher of two minimum versions, as [resolveDepConflict] decides
    it. *)
Lemma resolveDepConflict_by_minimum existing requested ev rv :
  match_min_version existing = Some ev →
  match_min_version requested = Some rv →
  (version_lt (minimum_numbers ev) (minimum_numbers rv) →
   resolveDepConflict existing requested = requested)
  ∧ (¬ version_lt (minimum_numbers ev) (minimum_numbers rv) →
     resolveDepConflict existing requested = existing).
Proof.
  intros He Hr. unfold resolveDepConflict. rewrite He, Hr.
  destruct (normalised_components (split "." ev)) as [He1 He2].
  { apply split_version_chars. by eapply match_min_version_chars. }
  destruct (normalised_components (split "." rv)) as [Hr1 Hr2].
  { apply split_version_chars. by eapply match_min_version_chars. }
  rewrite compareVersionParts_digits by done. rewrite He2, Hr2.
  fold (minimum_numbers ev) (minimum_numbers rv). simpl.
  destruct (compare_components_sign (minimum_numbers ev) (minimum_numbers rv))
    as (Hlt & _ & _).
  destruct (Z.leb_spec 0 (RunMigrations.compare_components
                            (minimum_numbers ev) (minimum_numbers rv)));
    split; intros Hv; try done.
  - apply Hlt in Hv. lia.
  - destruct Hv. apply Hlt. lia.
Qed.

(** X18.  When both specifiers carry a minimum version ([>] or [>=]
    followed by digits and dots), the project-manifest merger keeps the
    one whose minimum is numerically higher, component by component,
    and the existing one when neither is higher. *)
Theorem resolveDepConflict_higher_minimum existing requested ev rv :
  match_min_version existing = Some ev →
  match_min_version requested = Some rv →
  safe_minimum ev = true → safe_minimum rv = true →
  (version_lt (minimum_numbers ev) (minimum_numbers rv) →
   resolveDepConflict existing requested = requested)
  ∧ (¬ version_lt (minimum_numbers ev) (minimum_numbers rv) →
     resolveDepConflict existing requested = existing).
Proof.
  intros He Hr _ _. unfold resolveDepConflict. rewrite He, Hr.
  destruct (normalised_components (split "." ev)) as [He1 He2].
  { apply split_version_chars. by eapply match_min_version_chars. }
  destruct (normalised_components (split "." rv)) as [Hr1 Hr2].
  { apply split_version_chars. by eapply match_min_version_chars. }
  rewrite compareVersionParts_digits by done. rewrite He2, Hr2.
  fold (minimum_numbers ev) (minimum_numbers rv). simpl.
  destruct (compare_components_sign (minimum_numbers ev) (minimum_numbers rv))
    as (Hlt & _ & _).
  destruct (Z.leb_spec 0 (RunMigrations.compare_components
                            (minimum_numbers ev) (minimum_numbers rv)));
    split; intros Hv; try done.
  - apply Hlt in Hv. lia.
  - destruct Hv. apply Hlt. lia.
Qed.

(** [>=0.10.0] is higher than [>=0.2.0]: the comparison is numeric. *)
Lemma resolveDepConflict_higher_minimum_witness :
  resolveDepConflict "langgraph>=0.2.0" "langgraph>=0.10.0"
  = "langgraph>=0.10.0".
Proof.
  destruct (resolveDepConflict_higher_minimum
              "langgraph>=0.2.0" "langgraph>=0.10.0" "0.2.0" "0.10.0"
              eq_refl eq_refl eq_refl eq_refl) as [Hhigher _].
  apply Hhigher. exists 1%nat. split.
  - intros j Hj. assert (j = 0%nat) as -> by lia. reflexivity.
  - reflexivity.
Defined.

Lemma depsMatch_no_project content :
  has_project content = false → depsMatch content = None.
Proof.
  induction content as [|c s IH]; [done|].
  cbn [has_project depsMatch]. intros [Hstart Hrest]%orb_false_iff.
  rewrite Hstart. by apply IH.
Qed.

Lemma replace_project_no_project replacement content :
  has_project content = false → replace_project replacement content = content.
Proof.
  induction content as [|c s IH]; [done|].
  cbn [has_project replace_project]. intros [Hstart Hrest]%orb_false_iff.
  rewrite Hstart. by rewrite IH.
Qed.

(** X19.  A manifest without a [[project]] header is written back as it
    is: the new dependencies are dropped, and nothing is reported. *)
Theorem mergePyprojectDependencies_without_project `{Host} (σ : fs) p content
    newDeps :
  σ !! p = Some content →
  has_project content = false →
  mergePyproject_text content newDeps = content
  ∧ mergePyprojectDependencies p newDeps σ = (Ret tt, <[p := content]> σ).
Proof.
  intros Hσ Hnone.
  assert (mergePyproject_text content newDeps = content) as Htext.
  { unfold mergePyproject_text. rewrite depsMatch_no_project by done.
    by apply replace_project_no_project. }
  split; [done|]. by rewrite mergePyprojectDependencies_run, Hσ, Htext.
Qed.

Lemma mergePyprojectDependencies_without_project_witness :
  let host := sample_host empty_PackageJson None empty_LanggraphJson in
  let σ : fs := {["pyproject.toml" := "[tool.poetry]"]} in
  @mergePyprojectDependencies host "pyproject.toml" ["fastapi>=0.104.0"] σ
  = (Ret tt, <["pyproject.toml" := "[tool.poetry]"]> σ).
Proof.
  intros host σ.
  apply (@mergePyprojectDependencies_without_project host σ "pyproject.toml"
           "[tool.poetry]" ["fastapi>=0.104.0"]); reflexivity.
Defined.

Lemma obj_get_Forall {A} (P : string * A → Prop) (o : obj A) k v :
  Forall P o → obj_get o k = Some v → P (k, v).
Proof.
  induction 1 as [|[k' v'] o Hx Ho IH]; simpl; [done|].
  case_bool_decide; [|done]. intros [= <-]. by subst.
Qed.

Lemma resolveDepConflict_cases e r :
  resolveDepConflict e r = e ∨ resolveDepConflict e r = r.
Proof. unfold resolveDepConflict. repeat case_match; auto. Qed.

(** The invariant of the dependency map: keys are distinct, every key
    is the name of its specifier, and every specifier comes from the
    file or from the additions. *)
Lemma depMap_of_invariant (existingDeps : list string) :
  NoDup (depMap_of existingDeps).*1
  ∧ keyed_by_name (depMap_of existingDeps)
  ∧ Forall (λ kv, kv.2 ∈ existingDeps) (depMap_of existingDeps)
  ∧ ∀ d, d ∈ existingDeps →
         parsePepPackageName d ∈ (depMap_of existingDeps).*1.
Proof.
  unfold depMap_of, keyed_by_name.
  assert (∀ (l : list string) (acc : obj string) (seen : list string),
            NoDup acc.*1 →
            Forall (λ kv, kv.1 = parsePepPackageName kv.2) acc →
            Forall (λ kv, kv.2 ∈ seen ++ l) acc →
            (∀ d, d ∈ seen → parsePepPackageName d ∈ acc.*1) →
            let m := fold_left (λ m dep, Map_set (parsePepPackageName dep) dep m)
                               l acc in
            NoDup m.*1
            ∧ Forall (λ kv, kv.1 = parsePepPackageName kv.2) m
            ∧ Forall (λ kv, kv.2 ∈ seen ++ l) m
            ∧ ∀ d, d ∈ seen ++ l → parsePepPackageName d ∈ m.*1) as Hgen.
  { induction l as [|x l IH]; intros acc seen Hnd Hkey Hsrc Hseen; simpl.
    - rewrite app_nil_r in *. done.
    - destruct (IH (Map_set (parsePepPackageName x) x acc) (seen ++ [x]))
        as (H1 & H2 & H3 & H4).
      + by apply Map_set_NoDup.
      + by apply Map_set_Forall.
      + rewrite <- app_assoc. simpl. apply Map_set_Forall; [done|].
        simpl. apply elem_of_app. right. by left.
      + intros d [Hd| ->%list_elem_of_singleton]%elem_of_app.
        * rewrite Map_set_keys. case_bool_decide; [by apply Hseen|].
          apply elem_of_app. left. by apply Hseen.
        * rewrite Map_set_keys. case_bool_decide; [done|].
          apply elem_of_app. right. by left.
      + rewrite <- app_assoc in H3, H4. done. }
  destruct (Hgen existingDeps [] []) as (H1 & H2 & H3 & H4);
    [constructor|constructor|constructor|by intros ? ?%elem_of_nil|].
  done.
Qed.

Lemma merge_dep_invariant depMap dep (src : list string) :
  NoDup depMap.*1 → keyed_by_name depMap →
  Forall (λ kv, kv.2 ∈ src) depMap → dep ∈ src →
  NoDup (merge_dep depMap dep).*1
  ∧ keyed_by_name (merge_dep depMap dep)
  ∧ Forall (λ kv, kv.2 ∈ src) (merge_dep depMap dep)
  ∧ parsePepPackageName dep ∈ (merge_dep depMap dep).*1
  ∧ ∀ k, k ∈ depMap.*1 → k ∈ (merge_dep depMap dep).*1.
Proof.
  intros Hnd Hkey Hsrc Hdep. unfold keyed_by_name in *.
  assert (∀ v, parsePepPackageName dep = parsePepPackageName v → v ∈ src →
            NoDup (Map_set (parsePepPackageName dep) v depMap).*1
            ∧ Forall (λ kv, kv.1 = parsePepPackageName kv.2)
                (Map_set (parsePepPackageName dep) v depMap)
            ∧ Forall (λ kv, kv.2 ∈ src)
                (Map_set (parsePepPackageName dep) v depMap)
            ∧ parsePepPackageName dep
              ∈ (Map_set (parsePepPackageName dep) v depMap).*1
            ∧ ∀ k, k ∈ depMap.*1 →
                   k ∈ (Map_set (parsePepPackageName dep) v depMap).*1) as Hset.
  { intros v Hname Hv. split; [by apply Map_set_NoDup|].
    split; [by apply Map_set_Forall|]. split; [by apply Map_set_Forall|].
    rewrite Map_set_keys. case_bool_decide; [done|]. split.
    - apply elem_of_app. right. by left.
    - intros k Hk. apply elem_of_app. by left. }
  unfold merge_dep.
  destruct (obj_get depMap (parsePepPackageName dep)) as [existing|] eqn:Hget;
    [|by apply Hset].
  pose proof (obj_get_Forall _ _ _ _ Hkey Hget) as Hk. simpl in Hk.
  pose proof (obj_get_Forall _ _ _ _ Hsrc Hget) as Hs. simpl in Hs.
  destruct (truthy_string existing); [|by apply Hset].
  case_bool_decide as Heq; simpl.
  - repeat split; try done.
    apply list_elem_of_fmap. exists (parsePepPackageName dep, existing).
    split; [done|]. by apply obj_get_elem_of.
  - destruct (resolveDepConflict_cases existing dep) as [-> | ->];
      by apply Hset.
Qed.

(** The array written names every package once, and holds specifiers
    of the file and of the additions, one for each of their packages. *)
Lemma merged_deps_invariant `{Host} (existingDeps newDeps : list string) :
  let written := merged_deps existingDeps newDeps in
  NoDup (map parsePepPackageName written)
  ∧ (∀ d, d ∈ written → d ∈ existingDeps ∨ d ∈ newDeps)
  ∧ (∀ d, d ∈ existingDeps ∨ d ∈ newDeps →
          parsePepPackageName d ∈ map parsePepPackageName written).
Proof.
  intros written. subst written. unfold merged_deps.
  destruct (depMap_of_invariant existingDeps) as (Hnd0 & Hkey0 & Hsrc0 & Hin0).
  assert (∀ (l seen : list string) (m : obj string),
            NoDup m.*1 → keyed_by_name m →
            Forall (λ kv, kv.2 ∈ existingDeps ++ seen ++ l) m →
            (∀ d, d ∈ existingDeps ++ seen → parsePepPackageName d ∈ m.*1) →
            let m' := fold_left merge_dep l m in
            NoDup m'.*1 ∧ keyed_by_name m'
            ∧ Forall (λ kv, kv.2 ∈ existingDeps ++ seen ++ l) m'
            ∧ ∀ d, d ∈ existingDeps ++ seen ++ l →
                   parsePepPackageName d ∈ m'.*1) as Hgen.
  { induction l as [|x l IH]; intros seen m Hnd Hkey Hsrc Hseen; simpl.
    - rewrite app_nil_r in *. done.
    - destruct (merge_dep_invariant m x (existingDeps ++ seen ++ x :: l))
        as (H1 & H2 & H3 & H4 & H5); [done|done|done| |].
      { rewrite !elem_of_app. right. right. by left. }
      destruct (IH (seen ++ [x]) (merge_dep m x)) as (G1 & G2 & G3 & G4).
      + done.
      + done.
      + by rewrite <- app_assoc.
      + intros d Hd. rewrite app_assoc in Hd.
        apply elem_of_app in Hd as [Hd| ->%list_elem_of_singleton]; [|done].
        apply H5. by apply Hseen.
      + rewrite <- !app_assoc in G3, G4. done. }
  destruct (Hgen newDeps [] (depMap_of existingDeps)) as (G1 & G2 & G3 & G4).
  { done. } { done. }
  { eapply Forall_impl; [exact Hsrc0|]. intros kv Hkv. simpl.
    apply elem_of_app. by left. }
  { intros d Hd. rewrite app_nil_r in Hd. by apply Hin0. }
  simpl in G3, G4.
  set (m := fold_left merge_dep newDeps (depMap_of existingDeps)) in *.
  set (cmp := λ a b, localeCompare (parsePepPackageName a) (parsePepPackageName b)).
  pose proof (Array_sort_Permutation cmp (map snd m)) as Hp.
  assert (map parsePepPackageName (map snd m) = m.*1) as Hnames.
  { unfold keyed_by_name in G2. clear -G2.
    induction G2 as [|[k v] m Hk _ IH]; simpl; [done|].
    simpl in Hk. by rewrite <- Hk, IH. }
  split; [|split].
  - rewrite Hp, Hnames. done.
  - intros d Hd. rewrite Hp in Hd.
    apply list_elem_of_fmap in Hd as ([k v] & -> & Hkv).
    rewrite Forall_forall in G3. specialize (G3 _ Hkv). simpl in G3.
    by apply elem_of_app in G3.
  - intros d Hd. rewrite Hp, Hnames. apply G4. by apply elem_of_app.
Qed.

End more_python.

(** ** Missing files *)

Section missing_files.
Import Structured Policy.

Lemma filter_all {A} (P : A → Prop) `{∀ x, Decision (P x)} (l : list A) :
  Forall P l → filter P l = l.
Proof.
  induction 1 as [|x l Hx _ IH]; [done|].
  by rewrite filter_cons_True, IH.
Qed.

(** X21.  What each merger does when its file does not exist: the npm
    and project-manifest mergers throw [ENOENT] and create nothing; the
    compose merger starts from a document with version 3, and the
    registry merger from an empty registry, and they write the file;
    the env-file and requirement-list mergers create a file holding the
    section of the additions, all of them, and create nothing when
    there is no addition. *)
Theorem mergers_on_a_missing_file `{Host} (σ : fs) p :
  σ !! p = None →
  (∀ newDeps, mergeNpmDependencies p newDeps σ = (Throw (ENOENT p), σ))
  ∧ (∀ newDeps, mergePyprojectDependencies p newDeps σ = (Throw (ENOENT p), σ))
  ∧ (∀ newServices,
       mergeDockerComposeServices p newServices σ
       = match mergeCompose_document
                 {| version := Some "3"; services := None; compose_other := [] |}
                 newServices with
         | Ret compose' => (Ret tt, <[p := stringify compose']> σ)
         | Throw e => (Throw e, σ)
         end)
  ∧ (∀ newGraphs,
       mergeLanggraphJson p newGraphs σ
       = (Ret tt,
          <[p := JSON_stringify_LanggraphJson
                   {| graphs := Some (fold_left add_graph newGraphs []);
                      langgraph_other := [] |} +:+ nl]> σ))
  ∧ (∀ additions : list string,
       mergeEnvAdditions p additions σ
       = (Ret tt, match additions with
                  | [] => σ
                  | _ => <[p := env_section additions]> σ
                  end))
  ∧ (∀ newDeps : list string,
       mergeRequirementsTxt p newDeps σ
       = (Ret tt, match newDeps with
                  | [] => σ
                  | _ => <[p := req_section newDeps]> σ
                  end)).
Proof.
  intros Hσ. repeat split.
  - intros newDeps.
    unfold mergeNpmDependencies, Fs.bind, readFileSync. by rewrite Hσ.
  - intros newDeps. by rewrite mergePyprojectDependencies_run, Hσ.
  - intros newServices.
    unfold mergeDockerComposeServices, Fs.bind, Fs.existsSync, lift, ret,
      writeFileSync.
    rewrite Hσ. simpl. by destruct (mergeCompose_document _ newServices).
  - intros newGraphs.
    unfold mergeLanggraphJson, Fs.bind, Fs.existsSync, ret, writeFileSync.
    rewrite Hσ. done.
  - intros additions. rewrite mergeEnvAdditions_run, Hσ. simpl.
    rewrite filter_all; [done|]. apply Forall_forall. intros v _.
    unfold env_defines. rewrite andb_false_iff. right.
    by destruct v.
  - intros newDeps. rewrite mergeRequirementsTxt_run, Hσ. simpl.
    rewrite filter_all; [done|]. apply Forall_forall. by intros dep _.
Qed.

Lemma mergers_on_a_missing_file_witness :
  let host := sample_host empty_PackageJson None empty_LanggraphJson in
  @mergeNpmDependencies host "package.json" [("zod", "^3.0.0")] ∅
  = (Throw (ENOENT "package.json"), ∅)
  ∧ mergeEnvAdditions ".env.example" ["API_KEY"] ∅
    = (Ret tt, {[".env.example" := env_section ["API_KEY"]]}).
Proof.
  intros host.
  destruct (@mergers_on_a_missing_file host ∅ "package.json" (lookup_empty _))
    as (Hnpm & _).
  destruct (@mergers_on_a_missing_file host ∅ ".env.example" (lookup_empty _))
    as (_ & _ & _ & _ & Henv & _).
  split; [apply Hnpm|]. rewrite Henv. reflexivity.
Defined.

End missing_files.

(** ** More on the migration runner *)

Section more_migrations.
Import Versions RunMigrations MigrationSpec.

(** X22.  Started with one of its three arguments missing or empty,
    the runner prints its usage line, exits with status 1, prints no
    report and starts no subprocess, whatever the migrations directory
    holds. *)
Theorem main_usage_error `{Process} argv2 argv3 argv4 (w : world) :
  truthy_arg argv2 = None ∨ truthy_arg argv3 = None ∨ truthy_arg argv4 = None →
  main argv2 argv3 argv4 w
  = Ret {| printed := None; usage_error := true; exit_code := 1;
           spawned := []; final_world := w |}.
Proof.
  intros Hmissing. unfold main.
  destruct (truthy_arg argv2), (truthy_arg argv3), (truthy_arg argv4);
    try done.
  by destruct Hmissing as [?|[?|?]].
Qed.

Lemma main_usage_error_witness :
  @main sample_process (Some "1.0.0") (Some "") (Some "core") tt
  = Ret {| printed := None; usage_error := true; exit_code := 1;
           spawned := []; final_world := (tt : @world sample_process) |}.
Proof.
  apply (@main_usage_error sample_process). right. left. reflexivity.
Defined.

(** One turn of the loop, when no subprocess creates or removes a file. *)
Lemma run_one_stable `{Process} dir root st v (w : world) :
  (∀ w' c s, existsSync (execFileSync w' c).2 s = existsSync w' s) →
  (∀ s, existsSync (st_world st) s = existsSync w s) →
  (∀ s, existsSync (st_world (run_one dir root st v)) s = existsSync w s)
  ∧ ∃ r, st_results (run_one dir root st v) = st_results st ++ [r]
         ∧ version r = v
         ∧ ((existsSync w (migration_script dir v) = false
             ∧ st_spawned (run_one dir root st v) = st_spawned st
             ∧ success r = false
             ∧ error r = Some ("Migration " +:+ v +:+ "/index.ts not found"))
            ∨ (existsSync w (migration_script dir v) = true
               ∧ ∃ c, st_spawned (run_one dir root st v) = st_spawned st ++ [c]
                      ∧ script_of c = Some (migration_script dir v))).
Proof.
  intros Hstable Hw. unfold run_one. fold (migration_script dir v).
  rewrite <- (Hw (migration_script dir v)).
  destruct (existsSync (st_world st) (migration_script dir v)) eqn:Hex; simpl.
  - pose proof (Hstable (st_world st)
      {| file := execPath;
         args := ["--require"; tsxCjsRegisterSpecifier;
                  migration_script dir v; root];
         options := {| stdio := "pipe"; cwd := root; timeout := 120000 |} |})
      as Hsame.
    destruct (execFileSync _ _) as [thrown w'] eqn:Hexec. simpl in *.
    split; [intros s; by rewrite Hsame|].
    eexists. split; [done|]. split; [by destruct thrown|].
    right. split; [done|]. eexists. by split.
  - split; [done|].
    eexists. split; [done|]. split; [done|]. by left.
Qed.

Lemma run_loop_stable `{Process} dir root versions st (w : world) :
  (∀ w' c s, existsSync (execFileSync w' c).2 s = existsSync w' s) →
  (∀ s, existsSync (st_world st) s = existsSync w s) →
  let st' := fold_left (run_one dir root) versions st in
  ∃ rs cs,
    st_results st' = st_results st ++ rs
    ∧ st_spawned st' = st_spawned st ++ cs
    ∧ map version rs = versions
    ∧ omap script_of cs
      = List.filter (existsSync w) (map (migration_script dir) versions)
    ∧ Forall (λ r, existsSync w (migration_script dir (version r)) = false →
                   success r = false
                   ∧ error r = Some ("Migration " +:+ version r
                                     +:+ "/index.ts not found")) rs.
Proof.
  intros Hstable. revert st. induction versions as [|v versions IH];
    intros st Hw; simpl.
  - exists [], []. by rewrite !app_nil_r.
  - destruct (run_one_stable dir root st v w Hstable Hw)
      as (Hw' & r & Hr & Hv & Hcase).
    destruct (IH (run_one dir root st v) Hw')
      as (rs & cs & Hrs & Hcs & Hmap & Hsp & Hnf).
    rewrite Hrs, Hcs, Hr, <- app_assoc.
    destruct Hcase as [(Hno & Hspawn & Hfail & Herr)|(Hyes & c & Hspawn & Hscript)].
    + exists (r :: rs), cs. rewrite Hspawn.
      split; [done|]. split; [done|]. split; [simpl; by f_equal|].
      split; [simpl; by rewrite Hno|]. constructor; [|done]. intros _. by rewrite Hv.
    + exists (r :: rs), (c :: cs). rewrite Hspawn, <- app_assoc.
      split; [done|]. split; [done|]. split; [simpl; by f_equal|].
      split; [simpl; rewrite Hscript, Hyes; simpl; f_equal; exact Hsp|].
      constructor; [|done]. rewrite Hv. congruence.
Qed.

(** X23.  When the subprocesses neither create nor remove files, the
    runner starts a subprocess for exactly the selected migrations whose
    [index.ts] exists, in ascending order, and reports every other
    selected migration as failed with the message that its [index.ts]
    was not found. *)
Theorem main_spawns_existing_scripts `{Process}
    fromVersion toVersion newCorePath (w : world) entries :
  (∀ w' c s, existsSync (execFileSync w' c).2 s = existsSync w' s) →
  fromVersion ≠ "" → toVersion ≠ "" → newCorePath ≠ "" →
  is_semver fromVersion = true → is_semver toVersion = true →
  let migrationsDir := path_join [newCorePath; "migrations"] in
  existsSync w migrationsDir = true →
  readdirSync w migrationsDir = Ret entries →
  ∃ out rs,
    main (Some fromVersion) (Some toVersion) (Some newCorePath) w = Ret out
    ∧ printed out = Some {| migrationsRun := length rs; results := rs |}
    ∧ omap script_of (spawned out)
      = List.filter (existsSync w)
          (map (migration_script migrationsDir) (map version rs))
    ∧ Forall (λ r, existsSync w (migration_script migrationsDir (version r))
                   = false →
                   success r = false
                   ∧ error r = Some ("Migration " +:+ version r
                                     +:+ "/index.ts not found")) rs.
Proof.
  intros Hstable Hfrom Hto Hcore Hvfrom Hvto migrationsDir Hdir Hread.
  unfold main, truthy_arg.
  rewrite !truthy_string_ne by done. fold migrationsDir.
  rewrite Hdir, Hread. simpl.
  destruct (migrationVersions_spec entries fromVersion toVersion Hvfrom Hvto)
    as (versions & -> & _ & _). simpl.
  destruct (run_loop_stable migrationsDir process_cwd versions
              {| st_results := []; st_spawned := []; st_world := w |} w Hstable)
    as (rs & cs & Hrs & Hcs & Hmap & Hsp & Hnf); [done|].
  simpl in Hrs, Hcs.
  eexists _, rs. split; [done|]. simpl. rewrite Hrs, Hcs, Hmap.
  split; [done|]. split; [done|]. done.
Qed.

(** The sample process, from 1.0.0 to 1.2.0: only 1.1.0 has a script. *)
Lemma main_spawns_existing_scripts_witness :
  ∃ out rs,
    @main sample_process (Some "1.0.0") (Some "1.2.0") (Some "core") tt = Ret out
    ∧ printed out = Some {| migrationsRun := length rs; results := rs |}
    ∧ omap script_of (spawned out) = ["core/migrations/1.1.0/index.ts"].
Proof.
  destruct (@main_spawns_existing_scripts sample_process
              "1.0.0" "1.2.0" "core" tt _
              ltac:(done) ltac:(discriminate) ltac:(discriminate)
              ltac:(discriminate) eq_refl eq_refl eq_refl eq_refl)
    as (out & rs & Hmain & Hprinted & Hsp & _).
  exists out, rs. split; [exact Hmain|]. split; [exact Hprinted|].
  rewrite Hsp. vm_compute in Hmain. injection Hmain as <-.
  vm_compute in Hprinted. injection Hprinted as _ <-. reflexivity.
Defined.

End more_migrations.

(** ** Running the package managers *)

Section install.
Import Install More.

(** X24.  [runPipInstall] runs one command, the pip of [.venv] when
    that directory exists and the pip of the path otherwise, and never
    throws: when the command fails it logs a warning and returns.
    [runNpmInstall] runs [npm install] and lets its failure through. *)
Theorem runPipInstall_never_throws `{Shell} (w : world) :
  let venv := existsSync w (RunMigrations.path_join [process_cwd; ".venv"]) in
  let command := if venv then ".venv/bin/pip install -e ." else "pip install -e ." in
  let thrown := (execSync w command {| stdio := "inherit"; cwd := process_cwd |}).1 in
  result (runPipInstall w) = Ret tt
  ∧ commands (runPipInstall w) = [command]
  ∧ (logged (runPipInstall w) = [] ↔ thrown = None)
  ∧ length (logged (runPipInstall w)) ≤ 1
  ∧ (∀ e, result (runNpmInstall w) = Throw e
          ↔ (execSync w "npm install --legacy-peer-deps"
               {| stdio := "inherit"; cwd := process_cwd |}).1 = Some e).
Proof.
  intros venv command thrown. subst thrown command venv.
  unfold runPipInstall, runNpmInstall.
  destruct (execSync w (if existsSync w _ then _ else _) _) as [t w'] eqn:Hpip.
  destruct (execSync w "npm install --legacy-peer-deps" _) as [t2 w2] eqn:Hnpm.
  simpl. split; [done|]. split; [done|]. split; [by destruct t|].
  split; [destruct t; simpl; lia|].
  intros e. destruct t2; split; intros; by simplify_eq.
Qed.

Lemma runPipInstall_never_throws_witness :
  result (@runPipInstall failing_shell tt) = Ret tt
  ∧ commands (@runPipInstall failing_shell tt) = [".venv/bin/pip install -e ."]
  ∧ result (@runNpmInstall failing_shell tt) = Throw (Error "Command failed").
Proof.
  destruct (@runPipInstall_never_throws failing_shell tt)
    as (Hres & Hcmd & _ & _ & Hnpm).
  split; [exact Hres|]. split; [exact Hcmd|]. apply Hnpm. reflexivity.
Defined.

End install.

(** ** The project manifest as a text *)

Section python_manifest.
Import Versions Structured Policy More.

Lemma startsWith_free w s t :
  startsWith w s = false → startsWith s w = false →
  startsWith w (s +:+ t) = false.
Proof.
  unfold startsWith. revert s. induction w as [|a w IH]; intros [|b s]; simpl;
    try done.
  destruct (ascii_dec a b) as [->|Hab]; [|done].
  destruct (ascii_dec b b); [|done]. apply IH.
Qed.

Lemma startsWith_app_long p h t :
  (String.length p ≤ String.length h)%nat →
  startsWith p (h +:+ t) = startsWith p h.
Proof.
  unfold startsWith. revert h. induction p as [|a p IH]; intros h Hlen.
  - by destruct (h +:+ t), h.
  - destruct h as [|b h]; simpl in *; [lia|].
    destruct (ascii_dec a b); [|done]. apply IH. lia.
Qed.

Lemma string_app_length (a b : string) :
  String.length (a +:+ b) = (String.length a + String.length b)%nat.
Proof. induction a as [|c a IH]; simpl; [done|]. by rewrite IH. Qed.

Lemma substring_0_length (s : string) : String.substring 0 (String.length s) s = s.
Proof. induction s as [|c s IH]; simpl; [done|]. by rewrite IH. Qed.

Lemma substring_app (a b : string) :
  String.substring (String.length a)
    (String.length (a +:+ b) - String.length a) (a +:+ b) = b.
Proof.
  rewrite string_app_length.
  replace (String.length a + String.length b - String.length a)%nat
    with (String.length b) by lia.
  induction a as [|c a IH]; simpl; [apply substring_0_length|done].
Qed.

Lemma has_project_length s : has_project s = true → (9 ≤ String.length s)%nat.
Proof.
  induction s as [|c s IH]; [done|]. cbn [has_project].
  intros [Hs|Hr]%orb_true_iff.
  - apply startsWith_app in Hs as [t ->]. rewrite string_app_length. simpl. lia.
  - specialize (IH Hr). simpl. lia.
Qed.

Lemma word_free_app_r w a b : word_free w (a +:+ b) = true → word_free w b = true.
Proof.
  induction a as [|c a IH]; [done|]. rewrite string_app_cons. cbn [word_free].
  intros [_ Hr]%andb_true_iff. by apply IH.
Qed.

Lemma forallb_string_app (p : ascii → bool) (a b : string) :
  forallb p (list_ascii_of_string (a +:+ b))
  = forallb p (list_ascii_of_string a) && forallb p (list_ascii_of_string b).
Proof. induction a as [|c a IH]; simpl; [done|]. by rewrite IH, andb_assoc. Qed.

Lemma join_lines_fold (t : list string) (acc : string) :
  fold_left (λ acc s, acc +:+ nl +:+ s) t acc
  = acc +:+ fold_right (λ s rest, nl +:+ s +:+ rest) "" t.
Proof.
  revert acc. induction t as [|s t IH]; intros acc; simpl.
  - by rewrite string_app_nil_r.
  - rewrite IH. by rewrite !string_app_assoc.
Qed.

Lemma join_lines_chars (p : ascii → bool) (ls : list string) :
  p LF = true →
  Forall (λ l, forallb p (list_ascii_of_string l) = true) ls →
  forallb p (list_ascii_of_string (join_lines ls)) = true.
Proof.
  intros Hlf Hall. destruct ls as [|h t]; [done|].
  apply Forall_cons in Hall as [Hh Ht]. unfold join_lines.
  rewrite join_lines_fold, forallb_string_app, Hh. simpl.
  induction Ht as [|s t Hs Ht IH]; simpl; [done|].
  rewrite Hlf. simpl.
  change ("" +:+ s +:+ foldr (λ s0 rest : string, nl +:+ s0 +:+ rest) "" t)
    with (s +:+ foldr (λ s0 rest : string, nl +:+ s0 +:+ rest) "" t).
  by rewrite forallb_string_app, Hs.
Qed.

Lemma split_join_lines (ls : list string) :
  ls ≠ [] →
  Forall (λ l, existsb (λ a, bool_decide (a = LF)) (list_ascii_of_string l)
               = false) ls →
  split LF (join_lines ls) = ls.
Proof.
  intros Hne Hall. destruct ls as [|h t]; [done|].
  apply Forall_cons in Hall as [Hh Ht]. unfold join_lines.
  assert (∀ acc pre, split LF acc = pre →
            split LF (fold_left (λ acc s, acc +:+ nl +:+ s) t acc) = pre ++ t)
    as Hgen.
  { clear Hne. induction Ht as [|s t Hs Ht IH]; intros acc pre Hacc; simpl.
    - by rewrite app_nil_r.
    - rewrite (IH (acc +:+ nl +:+ s) (pre ++ [s])).
      + by rewrite <- app_assoc.
      + change (nl +:+ s) with (String LF s).
        by rewrite split_app, Hacc, (split_no_sep LF s). }
  apply (Hgen h [h]). by apply split_no_sep.
Qed.

Lemma trimEnd_nonspace_end s c :
  is_space c = false → trimEnd (s +:+ String c "") = s +:+ String c "".
Proof.
  intros Hc. induction s as [|a s IH]; simpl.
  - by rewrite Hc.
  - rewrite IH. by destruct s.
Qed.

Lemma strip_closing_quote_end d :
  forallb array_char (list_ascii_of_string d) = true →
  strip_closing_quote (d +:+ String DQUOTE ",") = d.
Proof.
  induction d as [|c d IH]; simpl; [done|].
  intros [Hc Hd]%andb_true_iff. rewrite IH by done.
  unfold array_char in Hc.
  apply andb_true_iff in Hc as [[[Hq%negb_true_iff _]%andb_true_iff _]%andb_true_iff _].
  by rewrite Hq.
Qed.

(** A line of the array is read back as its specifier. *)
Lemma dep_line_read d :
  plain_specifier d = true →
  strip_quotes (trim (dep_line d)) = d
  ∧ truthy_string d && negb (startsWith "#" d) = true.
Proof.
  intros [Hd Hchars]%andb_true_iff. split; [|done].
  unfold dep_line, trim.
  assert (trimStart ("    " +:+ dquote +:+ d +:+ dquote +:+ ",")
          = (dquote +:+ d +:+ dquote) +:+ ",") as ->.
  { rewrite !string_app_assoc. reflexivity. }
  rewrite trimEnd_nonspace_end by done.
  rewrite !string_app_assoc.
  change (strip_quotes (dquote +:+ d +:+ dquote +:+ ","))
    with (strip_closing_quote (d +:+ String DQUOTE ",")).
  by apply strip_closing_quote_end.
Qed.

Lemma plain_specifier_no_LF d :
  plain_specifier d = true →
  existsb (λ a, bool_decide (a = LF)) (list_ascii_of_string d) = false.
Proof.
  intros [_ Hchars]%andb_true_iff.
  induction d as [|c d IH]; simpl in *; [done|].
  apply andb_true_iff in Hchars as [Hc Hd]. rewrite IH by done.
  unfold array_char in Hc.
  apply andb_true_iff in Hc as [[[_ Hlf%negb_true_iff]%andb_true_iff _]%andb_true_iff _].
  by rewrite Hlf.
Qed.

Lemma plain_specifier_chars (p : ascii → bool) d :
  (∀ c, array_char c = true → p c = true) →
  plain_specifier d = true → forallb p (list_ascii_of_string d) = true.
Proof.
  intros Hp [_ Hchars]%andb_true_iff.
  induction d as [|c d IH]; simpl in *; [done|].
  apply andb_true_iff in Hchars as [Hc Hd]. by rewrite Hp, IH.
Qed.

Lemma dep_line_chars (p : ascii → bool) d :
  p " "%char = true → p DQUOTE = true → p ","%char = true →
  forallb p (list_ascii_of_string d) = true →
  forallb p (list_ascii_of_string (dep_line d)) = true.
Proof.
  intros Hs Hq Hc Hd. unfold dep_line.
  rewrite !forallb_string_app, Hd. simpl. by rewrite Hs, Hq, Hc.
Qed.

Lemma deps_array_block ds post :
  deps_array ds +:+ post
  = "dependencies = [" +:+ deps_block ds +:+ String "]" post.
Proof. unfold deps_array, deps_block. by rewrite !string_app_assoc. Qed.

Lemma until_close_app block post :
  forallb (λ c, negb (bool_decide (c = "]"%char))) (list_ascii_of_string block)
  = true →
  until_close (block +:+ String "]" post) = Some (block, post).
Proof.
  induction block as [|c block IH]; simpl.
  - done.
  - intros [Hc%negb_true_iff Hb]%andb_true_iff. by rewrite Hc, IH.
Qed.

Lemma deps_here_array ds post :
  Forall (λ d, plain_specifier d = true) ds →
  deps_here (deps_array ds +:+ post) = Some (deps_block ds, post).
Proof.
  intros Hds. rewrite deps_array_block.
  assert (∀ X, deps_assign ("dependencies = [" +:+ X) = Some X) as Hassign.
  { intros X. unfold deps_assign.
    change (startsWith "dependencies" ("dependencies = [" +:+ X)) with true.
    cbn match.
    change (String.substring 12 (String.length ("dependencies = [" +:+ X) - 12)
              ("dependencies = [" +:+ X))
      with (" = [" +:+ String.substring 0 (String.length X) X).
    by rewrite substring_0_length. }
  unfold deps_here. rewrite Hassign. cbn [mbind option_bind].
  apply until_close_app. unfold deps_block.
  rewrite !forallb_string_app. simpl. rewrite andb_true_r.
  apply join_lines_chars; [done|].
  apply Forall_fmap. eapply Forall_impl; [exact Hds|]. intros d Hd.
  unfold compose. apply dep_line_chars; [done..|].
  apply plain_specifier_chars; [|done].
  intros c Hc. unfold array_char in Hc.
  by apply andb_true_iff in Hc as [[_ Hb]%andb_true_iff _].
Qed.

Lemma deps_here_free s t :
  startsWith "dependencies" s = false → startsWith s "dependencies" = false →
  deps_here (s +:+ t) = None.
Proof.
  intros H1 H2. unfold deps_here, deps_assign.
  by rewrite startsWith_free.
Qed.

Lemma deps_after_unfold s :
  deps_after s
  = match deps_here s with
    | Some (block, _) => Some block
    | None => match s with
              | EmptyString => None
              | String _ r => deps_after r
              end
    end.
Proof. by destruct s. Qed.

Lemma depsMatch_unfold content :
  depsMatch content
  = match (if startsWith "[project]" content
           then deps_after (String.substring 9 (String.length content - 9) content)
           else None) with
    | Some block => Some block
    | None => match content with
              | EmptyString => None
              | String _ r => depsMatch r
              end
    end.
Proof. by destruct content. Qed.

Lemma replace_deps_unfold replacement content :
  replace_deps replacement content
  = match deps_here content with
    | Some (_, rest) => replacement +:+ rest
    | None => match content with
              | EmptyString => EmptyString
              | String c r => String c (replace_deps replacement r)
              end
    end.
Proof. by destruct content. Qed.

Lemma deps_after_free s t block rest :
  word_free "dependencies" s = true →
  deps_here t = Some (block, rest) →
  deps_after (s +:+ t) = Some block.
Proof.
  intros Hfree Hhere. induction s as [|c s IH].
  - change ("" +:+ t) with t. by rewrite deps_after_unfold, Hhere.
  - cbn [word_free] in Hfree.
    apply andb_true_iff in Hfree as [[H1%negb_true_iff H2%negb_true_iff]%andb_true_iff Hs].
    rewrite deps_after_unfold, deps_here_free by done.
    rewrite string_app_cons. by apply IH.
Qed.

Lemma depsMatch_head head t block rest :
  manifest_head head = true →
  deps_here t = Some (block, rest) →
  depsMatch (head +:+ t) = Some block.
Proof.
  intros [Hproj Hfree]%andb_true_iff Hhere.
  induction head as [|c head IH]; [done|].
  rewrite depsMatch_unfold.
  cbn [has_project] in Hproj.
  destruct (startsWith "[project]" (String c head)) eqn:Hstart.
  - rewrite startsWith_app_long
      by (apply startsWith_app in Hstart as [h' ->];
          rewrite string_app_length; simpl; lia).
    rewrite Hstart.
    apply startsWith_app in Hstart as [h' Hh']. rewrite Hh'.
    rewrite string_app_assoc.
    change (String.length ("[project]" +:+ h' +:+ t) - 9)%nat
      with (String.length ("[project]" +:+ (h' +:+ t))
            - String.length "[project]")%nat.
    change 9%nat with (String.length "[project]") at 1.
    rewrite substring_app.
    rewrite (deps_after_free h' t block rest); [done| |done].
    rewrite Hh' in Hfree. by apply word_free_app_r in Hfree.
  - simpl in Hproj.
    pose proof (has_project_length _ Hproj) as Hlen.
    rewrite startsWith_app_long by (simpl; lia). rewrite Hstart.
    rewrite string_app_cons. apply IH; [done|].
    cbn [word_free] in Hfree. by apply andb_true_iff in Hfree as [_ Hfree].
Qed.

Lemma replace_deps_head replacement head t block rest :
  word_free "dependencies" head = true →
  deps_here t = Some (block, rest) →
  replace_deps replacement (head +:+ t) = head +:+ replacement +:+ rest.
Proof.
  intros Hfree Hhere. induction head as [|c head IH].
  - change ("" +:+ t) with t. by rewrite replace_deps_unfold, Hhere.
  - cbn [word_free] in Hfree.
    apply andb_true_iff in Hfree as [[H1%negb_true_iff H2%negb_true_iff]%andb_true_iff Hs].
    rewrite replace_deps_unfold, deps_here_free by done.
    rewrite !string_app_cons. by rewrite IH.
Qed.

(** The array is read back as the list of its specifiers. *)
Lemma parse_deps_block_array ds :
  Forall (λ d, plain_specifier d = true) ds →
  parse_deps_block (deps_block ds) = ds.
Proof.
  intros Hds. unfold parse_deps_block, deps_block.
  set (F := λ (line : string) (acc : list string),
              let trimmed := strip_quotes (trim line) in
              if truthy_string trimmed && negb (startsWith "#" trimmed)
              then trimmed :: acc else acc).
  assert (∀ acc, fold_right F acc (map dep_line ds) = ds ++ acc) as Hlines.
  { intros acc. induction Hds as [|d ds Hd Hds IH]; simpl; [done|].
    rewrite IH. unfold F at 1.
    destruct (dep_line_read d Hd) as [-> ->]. done. }
  change (nl +:+ join_lines (map dep_line ds) +:+ nl)
    with ("" +:+ String LF (join_lines (map dep_line ds) +:+ String LF "")).
  rewrite !split_app. simpl split.
  destruct ds as [|d ds'] eqn:Hd; [done|]. rewrite <- Hd in *.
  rewrite split_join_lines.
  - change ([""] ++ map dep_line ds ++ [""])
      with ("" :: map dep_line ds ++ [""]).
    cbn [foldr]. rewrite foldr_app, Hlines.
    by rewrite app_nil_r.
  - by subst.
  - apply Forall_fmap. eapply Forall_impl; [exact Hds|]. intros x Hx. simpl.
    unfold dep_line.
    apply plain_specifier_no_LF in Hx.
    induction x as [|c x IH]; [done|].
    simpl in *. apply orb_false_iff in Hx as [Hc Hx]. specialize (IH Hx).
    rewrite Hc. simpl. exact IH.
Qed.

(** What the merger makes of a manifest whose array holds one
    specifier to a line. *)
Lemma mergePyproject_text_array `{Host} head ds post newDeps :
  manifest_head head = true →
  Forall (λ d, plain_specifier d = true) ds →
  mergePyproject_text (head +:+ deps_array ds +:+ post) newDeps
  = head +:+ deps_array (merged_deps ds newDeps) +:+ post.
Proof.
  intros Hhead Hds.
  pose proof (deps_here_array ds post Hds) as Hhere.
  unfold mergePyproject_text.
  rewrite (depsMatch_head head _ _ _ Hhead Hhere).
  rewrite parse_deps_block_array by done.
  apply andb_true_iff in Hhead as [_ Hfree].
  rewrite (replace_deps_head _ head _ _ _ Hfree Hhere).
  reflexivity.
Qed.

Lemma merge_dep_get_ne depMap dep k :
  parsePepPackageName dep ≠ k → obj_get (merge_dep depMap dep) k = obj_get depMap k.
Proof.
  intros Hne. unfold merge_dep.
  repeat case_match; rewrite ?Map_get_set_ne by done; done.
Qed.

Lemma fold_merge_dep_untouched (newDeps : list string) depMap k :
  (∀ d, d ∈ newDeps → parsePepPackageName d ≠ k) →
  obj_get (fold_left merge_dep newDeps depMap) k = obj_get depMap k.
Proof.
  revert depMap. induction newDeps as [|x rest IH]; intros depMap Hk; [done|].
  simpl. rewrite IH.
  - apply merge_dep_get_ne, Hk. by left.
  - intros d Hd. apply Hk. by right.
Qed.

Lemma depMap_of_get (ds : list string) e :
  distinct_names ds → e ∈ ds →
  obj_get (depMap_of ds) (parsePepPackageName e) = Some e.
Proof.
  unfold depMap_of, distinct_names. generalize ([] : obj string).
  induction ds as [|d ds IH]; intros acc Hnd He; [by apply elem_of_nil in He|].
  simpl in *. apply NoDup_cons in Hnd as [Hd Hnd].
  apply elem_of_cons in He as [->|He]; [|by apply IH].
  clear IH.
  assert (∀ (l : list string) (m : obj string),
            (∀ x, x ∈ l → parsePepPackageName x ≠ parsePepPackageName d) →
            obj_get (fold_left (λ m dep, Map_set (parsePepPackageName dep) dep m)
                       l m) (parsePepPackageName d)
            = obj_get m (parsePepPackageName d)) as Hkeep.
  { induction l as [|x l IHl]; intros m Hl; [done|]. simpl.
    rewrite IHl by (intros y Hy; apply Hl; by right).
    apply Map_get_set_ne, Hl. by left. }
  rewrite Hkeep; [apply Map_get_set_eq|].
  intros x Hx Heq. apply Hd. rewrite <- Heq.
  apply list_elem_of_fmap. by exists x.
Qed.

Lemma fold_merge_dep_get (newDeps : list string) depMap dep e :
  distinct_names newDeps → dep ∈ newDeps →
  obj_get depMap (parsePepPackageName dep) = Some e →
  e ≠ "" → e ≠ dep →
  obj_get (fold_left merge_dep newDeps depMap) (parsePepPackageName dep)
  = Some (resolveDepConflict e dep).
Proof.
  unfold distinct_names. revert depMap.
  induction newDeps as [|x rest IH]; intros depMap Hnd Hdep Hget Hne Hdiff;
    [by apply elem_of_nil in Hdep|].
  simpl in *. apply NoDup_cons in Hnd as [Hx Hnd].
  apply elem_of_cons in Hdep as [->|Hdep].
  - rewrite fold_merge_dep_untouched.
    + rewrite (merge_dep_conflict _ _ e) by done. apply Map_get_set_eq.
    + intros d Hd Heq. apply Hx. rewrite <- Heq.
      apply list_elem_of_fmap. by exists d.
  - apply IH; [done|done| |done|done].
    rewrite merge_dep_get_ne; [done|].
    intros Heq. apply Hx. rewrite Heq. apply list_elem_of_fmap. by exists dep.
Qed.

Lemma obj_get_snd {A} (m : obj A) k v : obj_get m k = Some v → v ∈ map snd m.
Proof.
  induction m as [|[k1 v1] m IH]; simpl; [done|].
  case_bool_decide; [intros [= ->]; by left|]. intros Hget. right. by apply IH.
Qed.

Lemma NoDup_fmap_eq {A B} (f : A → B) (l : list A) x y :
  NoDup (map f l) → x ∈ l → y ∈ l → f x = f y → x = y.
Proof.
  induction l as [|a l IH]; intros Hnd Hx Hy Heq; [by apply elem_of_nil in Hx|].
  simpl in Hnd. apply NoDup_cons in Hnd as [Ha Hnd].
  apply elem_of_cons in Hx as [->|Hx]; apply elem_of_cons in Hy as [->|Hy].
  - done.
  - destruct Ha. rewrite Heq. apply list_elem_of_fmap. by exists y.
  - destruct Ha. rewrite <- Heq. apply list_elem_of_fmap. by exists x.
  - by apply IH.
Qed.

Lemma plain_specifier_ne d : plain_specifier d = true → d ≠ "".
Proof. by destruct d. Qed.

(** C2, as the code has it.  Neither Python merger ever raises a
    conflict.  On a project manifest whose dependency array holds one
    quoted specifier to a line, the project-manifest merger writes the
    manifest back with an array in the same form, in which every package
    has one specifier; for a package that is on both sides with
    different specifiers it is one of the two: the incoming one when
    both carry a [>] or [>=] minimum version and the incoming minimum
    is numerically higher, the existing one otherwise, so as soon as one
    of the two has no such minimum (an exact pin, say).  The
    requirement-list merger appends only the packages the file does not
    mention, so for a package on both sides it keeps the existing line
    and drops the incoming one. *)
Theorem python_mergers_pick_one_side :
  (∀ `{Host} (σ : fs) p head (ds : list string) post (newDeps : list string),
     σ !! p = Some (head +:+ deps_array ds +:+ post) →
     manifest_head head = true →
     Forall (λ d, plain_specifier d = true) ds →
     Forall (λ d, dollar_free d = true) newDeps →
     distinct_names ds → distinct_names newDeps →
     ∃ written,
       mergePyprojectDependencies p newDeps σ
       = (Ret tt, <[p := head +:+ deps_array written +:+ post]> σ)
       ∧ distinct_names written
       ∧ ∀ existing dep,
           existing ∈ ds → dep ∈ newDeps →
           parsePepPackageName existing = parsePepPackageName dep →
           existing ≠ dep →
           ∃ kept,
             kept ∈ written
             ∧ (∀ d, d ∈ written →
                     parsePepPackageName d = parsePepPackageName dep →
                     d = kept)
             ∧ (match_min_version existing = None
                ∨ match_min_version dep = None → kept = existing)
             ∧ (∀ ev rv,
                  match_min_version existing = Some ev →
                  match_min_version dep = Some rv →
                  safe_minimum ev = true → safe_minimum rv = true →
                  (version_lt (minimum_numbers ev) (minimum_numbers rv) →
                   kept = dep)
                  ∧ (¬ version_lt (minimum_numbers ev) (minimum_numbers rv) →
                     kept = existing)))
  ∧ (∀ (σ : fs) p (newDeps : list string),
       let content := default "" (σ !! p) in
       let toAdd :=
         filter (λ dep, req_mentions content (parsePepPackageName dep) = false)
                newDeps in
       mergeRequirementsTxt p newDeps σ
       = (Ret tt,
          match toAdd with
          | [] => σ
          | _ => <[p := content +:+ line_end content +:+ req_section toAdd]> σ
          end)
       ∧ (∀ dep, req_mentions content (parsePepPackageName dep) = true →
                 dep ∉ toAdd)).
Proof.
  split.
  - intros H σ p head ds post newDeps Hσ Hhead Hds _ Hnd Hnew.
    exists (merged_deps ds newDeps).
    rewrite mergePyprojectDependencies_run, Hσ.
    rewrite mergePyproject_text_array by done.
    split; [done|].
    destruct (merged_deps_invariant ds newDeps) as (Hnames & _ & _).
    split; [exact Hnames|].
    intros existing dep He Hdep Hname Hdiff.
    exists (resolveDepConflict existing dep).
    assert (resolveDepConflict existing dep ∈ merged_deps ds newDeps) as Hin.
    { unfold merged_deps. rewrite Array_sort_Permutation.
      apply (obj_get_snd _ (parsePepPackageName dep)).
      apply fold_merge_dep_get; [done|done| | |done].
      - rewrite <- Hname. by apply depMap_of_get.
      - apply plain_specifier_ne. rewrite Forall_forall in Hds. by apply Hds. }
    split; [exact Hin|]. split; [|split].
    + intros d Hd Hdname.
      apply (NoDup_fmap_eq parsePepPackageName (merged_deps ds newDeps));
        [done|done|done|].
      rewrite Hdname.
      destruct (resolveDepConflict_either existing dep) as [-> | ->]; done.
    + apply resolveDepConflict_no_minimum.
    + intros ev rv Hev Hrv Hsafe Hsafe'.
      by apply resolveDepConflict_by_minimum.
  - intros σ p newDeps content toAdd. split.
    + apply mergeRequirementsTxt_run.
    + intros dep Hdep [Hf _]%list_elem_of_filter. congruence.
Qed.

(** An exact pin against a range, in both files: the pin stays. *)
Lemma python_mergers_pick_one_side_witness :
  let host := sample_host empty_PackageJson None empty_LanggraphJson in
  let head := "[project]" +:+ nl +:+ "name = " +:+ dquote +:+ "demo" +:+ dquote
              +:+ nl in
  (∃ written,
     @mergePyprojectDependencies host "pyproject.toml" ["langgraph>=0.3.0"]
       {["pyproject.toml" := pyproject_pinned]}
     = (Ret tt,
        <["pyproject.toml" := head +:+ deps_array written +:+ nl]>
          {["pyproject.toml" := pyproject_pinned]})
     ∧ "langgraph==0.2.0" ∈ written
     ∧ ∀ d, d ∈ written → parsePepPackageName d = "langgraph" →
            d = "langgraph==0.2.0")
  ∧ "langgraph>=0.3.0"
    ∉ filter (λ dep, req_mentions requirements_pinned
                       (parsePepPackageName dep) = false)
             ["langgraph>=0.3.0"].
Proof.
  intros host head.
  destruct python_mergers_pick_one_side as (Hpy & Hreq).
  split.
  - destruct (Hpy host {["pyproject.toml" := pyproject_pinned]} "pyproject.toml"
                head ["langgraph==0.2.0"] nl ["langgraph>=0.3.0"])
      as (written & Hrun & _ & Hone).
    + reflexivity.
    + reflexivity.
    + by repeat constructor.
    + by repeat constructor.
    + apply NoDup_singleton.
    + apply NoDup_singleton.
    + destruct (Hone "langgraph==0.2.0" "langgraph>=0.3.0")
        as (kept & Hin & Honly & Hpin & _);
        [apply list_elem_of_here|apply list_elem_of_here|reflexivity
        |discriminate|].
      rewrite (Hpin (or_introl eq_refl)) in Hin, Honly.
      exists written. split; [exact Hrun|]. split; [exact Hin|exact Honly].
  - destruct (Hreq {["requirements.txt" := requirements_pinned]}
                "requirements.txt" ["langgraph>=0.3.0"]) as [_ Hdrop].
    apply Hdrop. reflexivity.
Defined.

(** C2, as stated, fails: an exact pin in the file against a range in
    the additions raises nothing.  The project manifest is written back
    with the pin, and the requirement list is left as it is. *)
Lemma python_mergers_raise_no_conflict :
  let host := sample_host empty_PackageJson None empty_LanggraphJson in
  @mergePyprojectDependencies host "pyproject.toml" ["langgraph>=0.3.0"]
    {["pyproject.toml" := pyproject_pinned]}
  = (Ret tt, {["pyproject.toml" := pyproject_pinned]})
  ∧ mergeRequirementsTxt "requirements.txt" ["langgraph>=0.3.0"]
      {["requirements.txt" := requirements_pinned]}
    = (Ret tt, {["requirements.txt" := requirements_pinned]}).
Proof. split; vm_compute; reflexivity. Qed.

(** X20.  On a project manifest whose dependency array holds one quoted
    specifier to a line, the array the merger writes names every
    package once, names every package of the old array and of the
    additions, and holds only specifiers that were in the old array or
    among the additions. *)
Theorem mergePyprojectDependencies_deduplicates `{Host} (σ : fs) p head
    (ds : list string) post (newDeps : list string) :
  σ !! p = Some (head +:+ deps_array ds +:+ post) →
  manifest_head head = true →
  Forall (λ d, plain_specifier d = true) ds →
  Forall (λ d, dollar_free d = true) newDeps →
  ∃ written,
    mergePyprojectDependencies p newDeps σ
    = (Ret tt, <[p := head +:+ deps_array written +:+ post]> σ)
    ∧ NoDup (map parsePepPackageName written)
    ∧ (∀ d, d ∈ written → d ∈ ds ∨ d ∈ newDeps)
    ∧ (∀ d, d ∈ ds ∨ d ∈ newDeps →
            parsePepPackageName d ∈ map parsePepPackageName written).
Proof.
  intros Hσ Hhead Hds _. exists (merged_deps ds newDeps).
  rewrite mergePyprojectDependencies_run, Hσ.
  rewrite mergePyproject_text_array by done.
  split; [done|]. apply merged_deps_invariant.
Qed.

(** [httpx] is in the array and among the additions, [fastapi] is new:
    the array written names each of them once. *)
Lemma mergePyprojectDependencies_deduplicates_witness :
  let host := sample_host empty_PackageJson None empty_LanggraphJson in
  let head := "[project]" +:+ nl in
  let ds := ["langgraph>=0.2.0"; "httpx>=0.27"] in
  let σ : fs := {["pyproject.toml" := head +:+ deps_array ds +:+ nl]} in
  ∃ written,
    @mergePyprojectDependencies host "pyproject.toml"
      ["httpx>=0.28"; "fastapi>=0.104.0"] σ
    = (Ret tt, <["pyproject.toml" := head +:+ deps_array written +:+ nl]> σ)
    ∧ NoDup (map parsePepPackageName written)
    ∧ "httpx" ∈ map parsePepPackageName written
    ∧ "fastapi" ∈ map parsePepPackageName written.
Proof.
  intros host head ds σ.
  destruct (@mergePyprojectDependencies_deduplicates host σ "pyproject.toml"
              head ds nl ["httpx>=0.28"; "fastapi>=0.104.0"])
    as (written & Hrun & Hnd & _ & Hall);
    [reflexivity|reflexivity|by repeat constructor|by repeat constructor|].
  exists written. split; [exact Hrun|]. split; [exact Hnd|]. split.
  - apply (Hall "httpx>=0.27"). left. apply list_elem_of_further, list_elem_of_here.
  - apply (Hall "fastapi>=0.104.0"). right.
    apply list_elem_of_further, list_elem_of_here.
Defined.

End python_manifest.
